(** * CodeBook: point-update segment tree and disjoint-set union

    A shallow embedding of two data structures of the repository, the
    generic point-update segment tree ([SegTree]) and the union-find
    structure ([DSU]), together with the properties their specification
    states about them.

    Conventions of the embedding.
    - [int] values are integers of [Z] between [INT_MIN] and [INT_MAX].
      Arithmetic on [int] is checked: signed overflow is undefined
      behaviour in C++, so a result that is not representable ends the
      run with [IntOverflow]. A program that returns has computed every
      index exactly.
    - [T = long long] values are integers of [Z] between [LLONG_MIN] and
      [LLONG_MAX]. [merge] is the operation the tree is generic over; the
      source instantiates it with [a + b], which is modelled as addition
      in two's complement, the wrap-around written out, so that it is a
      total and associative operation on [T] with identity 0.
    - A [std::vector] is a list; [operator[]] outside the vector ends the
      run with [OutOfBounds].
    - [OutOfBounds] and [IntOverflow] mark the first point at which a run
      leaves defined behaviour. [operator[]] is not checked and neither
      is [int] arithmetic: what the compiled program does from that point
      on is not determined by the source, and is not modelled. A result
      [OutOfBounds] therefore reads, the run reaches an access outside a
      vector; it does not say that the compiled program stops there.
    - Member functions are programs over the object's state: they take the
      state and give a result and the state after the call, or an error.
    - Recursion that does not follow the structure of the data takes a
      recursion budget ([fuel]); a call that needs more gives [OutOfFuel]. *)

From Stdlib Require Import ZArith Lia.

From stdpp Require Import base tactics option list.

Local Open Scope Z_scope.

(** [lia] with division and remainder by constants. *)
Ltac Zify.zify_post_hook ::= Z.to_euclidean_division_equations.

(** ** Results and programs over a state *)

Inductive result (A : Type) : Type :=
  | Ok (x : A)
  | OutOfBounds
  | IntOverflow
  | LengthError
  | OutOfFuel.

Arguments Ok {A} x.

Arguments OutOfBounds {A}.

Arguments IntOverflow {A}.

Arguments LengthError {A}.

Arguments OutOfFuel {A}.

Definition rbind {A B : Type} (r : result A) (k : A -> result B) : result B :=
  match r with
  | Ok x => k x
  | OutOfBounds => OutOfBounds
  | IntOverflow => IntOverflow
  | LengthError => LengthError
  | OutOfFuel => OutOfFuel
  end.

Definition prog (S A : Type) : Type := S -> result (A * S).

Definition ret {S A : Type} (x : A) : prog S A := fun s => Ok (x, s).

Definition bind {S A B : Type} (m : prog S A) (k : A -> prog S B) : prog S B :=
  fun s => rbind (m s) (fun p => k (fst p) (snd p)).

Definition lift {S A : Type} (r : result A) : prog S A :=
  fun s => rbind r (fun x => Ok (x, s)).

Definition out_of_fuel {S A : Type} : prog S A := fun _ => OutOfFuel.

Declare Scope prog_scope.

Delimit Scope prog_scope with prog.

Notation "x <- m ;; k" := (bind m (fun x => k))
  (at level 20, m at level 99, k at level 200, only parsing) : prog_scope.

Notation "m ;; k" := (bind m (fun _ => k))
  (at level 100, k at level 200, only parsing, right associativity) : prog_scope.

Notation "x <~ r ;; k" := (rbind r (fun x => k))
  (at level 20, r at level 99, k at level 200, only parsing) : prog_scope.

Local Open Scope prog_scope.

(** ** Machine integers *)

Definition INT_MIN : Z := - 2 ^ 31.

Definition INT_MAX : Z := 2 ^ 31 - 1.

Definition LLONG_MIN : Z := - 2 ^ 63.

Definition LLONG_MAX : Z := 2 ^ 63 - 1.

Definition is_int (z : Z) : Prop := INT_MIN <= z <= INT_MAX.

Definition is_T (z : Z) : Prop := LLONG_MIN <= z <= LLONG_MAX.

(** The value [z] as an [int], when it is one. *)
Definition int_of (z : Z) : result Z :=
  if (INT_MIN <=? z) && (z <=? INT_MAX) then Ok z else IntOverflow.

Definition int_add (x y : Z) : result Z := int_of (x + y).

Definition int_sub (x y : Z) : result Z := int_of (x - y).

Definition int_mul (x y : Z) : result Z := int_of (x * y).

(** [x / y] of C++ rounds towards zero. *)
Definition int_div (x y : Z) : result Z := int_of (x ÷ y).

(** Two's complement wrap-around of [long long]. *)
Definition wrap_ll (z : Z) : Z := (z + 2 ^ 63) mod 2 ^ 64 - 2 ^ 63.

(** ** Vectors *)

(** [vec[i]] read. *)
Definition vec_at {A : Type} (vec : list A) (i : Z) : result A :=
  if 0 <=? i then
    match vec !! Z.to_nat i with
    | Some x => Ok x
    | None => OutOfBounds
    end
  else OutOfBounds.

(** [vec[i] = x]. *)
Definition vec_set {A : Type} (vec : list A) (i : Z) (x : A) : result (list A) :=
  if (0 <=? i) && (i <? Z.of_nat (length vec))
  then Ok (<[Z.to_nat i := x]> vec)
  else OutOfBounds.

(** [vec.resize(k)] on an empty vector and [vec.assign(k, x)]: [k] copies
    of [x]. The count is a [size_t]: a negative [int] converts to a size
    beyond [max_size()], and the call throws. *)
Definition vec_fill {A : Type} (k : Z) (x : A) : result (list A) :=
  if 0 <=? k then Ok (replicate (Z.to_nat k) x) else LengthError.

(** ** Programs that agree on every result

    [m'] returns what [m] returns, whenever [m] returns: how a program
    with a larger recursion budget relates to the same program with a
    smaller one. *)

Definition refines {S A : Type} (m m' : prog S A) : Prop :=
  forall s r, m s = Ok r -> m' s = Ok r.

(** * The segment tree *)

Module SegmentTree.

(** [using T = long long;] *)
Abbreviation T := Z (only parsing).

Record SegTree : Type := mkSegTree { n : Z; t : list T }.

(** [const T IDENTITY = 0;] *)
Definition IDENTITY : T := 0.

(** [T merge(T a, T b) { return a + b; }] *)
Definition merge (a b : T) : T := wrap_ll (a + b).

(** [t[v]] *)
Definition read_t (v : Z) : prog SegTree T :=
  fun st => x <~ vec_at (t st) v ;; Ok (x, st).

(** [t[v] = x] *)
Definition write_t (v : Z) (x : T) : prog SegTree unit :=
  fun st => buf <~ vec_set (t st) v x ;; Ok (tt, mkSegTree (n st) buf).

(** [int tm = tl + (tr - tl) / 2;] *)
Definition split_tm (tl tr : Z) : result Z :=
  d <~ int_sub tr tl ;;
  h <~ int_div d 2 ;;
  int_add tl h.

(** [v * 2] and [v * 2 + 1]. Where the source writes one of them twice in
    a row ([build(a, v * 2, ...)] and then [t[v * 2]]), the programs below
    compute it once. *)
Definition left_child (v : Z) : result Z := int_mul v 2.

Definition right_child (v : Z) : result Z := w <~ int_mul v 2 ;; int_add w 1.

Fixpoint build (fuel : nat) (a : list Z) (v tl tr : Z) : prog SegTree unit :=
  match fuel with
  | O => out_of_fuel
  | S fuel =>
      if tl =? tr then
        x <- lift (vec_at a tl) ;;
        write_t v x
      else
        tm <- lift (split_tm tl tr) ;;
        lc <- lift (left_child v) ;;
        build fuel a lc tl tm ;;
        rc <- lift (right_child v) ;;
        tm1 <- lift (int_add tm 1) ;;
        build fuel a rc tm1 tr ;;
        x <- read_t lc ;;
        y <- read_t rc ;;
        write_t v (merge x y)
  end.

(** [SegTree(const std::vector<int>& a)]: [n = a.size()], which has to be
    an [int]; [t.resize(4 * n)], which fills [t] with zeros;
    [build(a, 1, 0, n - 1)]. *)
Definition SegTree_ctor (fuel : nat) (a : list Z) : result SegTree :=
  n0 <~ int_of (Z.of_nat (length a)) ;;
  k <~ int_mul 4 n0 ;;
  buf <~ vec_fill k 0 ;;
  hi <~ int_sub n0 1 ;;
  p <~ build fuel a 1 0 hi (mkSegTree n0 buf) ;;
  Ok (snd p).

Fixpoint query_recursive (fuel : nat) (v tl tr l r : Z) : prog SegTree T :=
  match fuel with
  | O => out_of_fuel
  | S fuel =>
      if l >? r then ret IDENTITY
      else if (l =? tl) && (r =? tr) then read_t v
      else
        tm <- lift (split_tm tl tr) ;;
        lc <- lift (left_child v) ;;
        left_res <- query_recursive fuel lc tl tm l (Z.min r tm) ;;
        rc <- lift (right_child v) ;;
        tm1 <- lift (int_add tm 1) ;;
        right_res <- query_recursive fuel rc tm1 tr (Z.max l tm1) r ;;
        ret (merge left_res right_res)
  end.

Fixpoint update_recursive (fuel : nat) (v tl tr pos : Z) (new_val : T)
  : prog SegTree unit :=
  match fuel with
  | O => out_of_fuel
  | S fuel =>
      if tl =? tr then write_t v new_val
      else
        tm <- lift (split_tm tl tr) ;;
        (if pos <=? tm then
           lc <- lift (left_child v) ;;
           update_recursive fuel lc tl tm pos new_val
         else
           rc <- lift (right_child v) ;;
           tm1 <- lift (int_add tm 1) ;;
           update_recursive fuel rc tm1 tr pos new_val) ;;
        lc <- lift (left_child v) ;;
        rc <- lift (right_child v) ;;
        x <- read_t lc ;;
        y <- read_t rc ;;
        write_t v (merge x y)
  end.

(** [T query(int l, int r)] *)
Definition query (fuel : nat) (l r : Z) : prog SegTree T :=
  fun st =>
    hi <~ int_sub (n st) 1 ;;
    query_recursive fuel 1 0 hi l r st.

(** [void update(int pos, T new_val)] *)
Definition update (fuel : nat) (pos : Z) (new_val : T) : prog SegTree unit :=
  fun st =>
    hi <~ int_sub (n st) 1 ;;
    update_recursive fuel 1 0 hi pos new_val st.

(** ** What the operations are specified against *)

(** The elements [l..r] of the conceptual array, and the left-to-right
    fold of [merge] over a list of elements. *)
Definition range (arr : list T) (l r : Z) : list T :=
  take (Z.to_nat (r + 1 - l)) (drop (Z.to_nat l) arr).

Definition fold_merge (xs : list T) : T := fold_left merge xs IDENTITY.

Definition range_fold (arr : list T) (l r : Z) : T := fold_merge (range arr l r).

(** The nodes of the tree over [0..N-1]: slot, left end, right end. *)
Inductive node (N : Z) : Z -> Z -> Z -> Prop :=
  | node_root : node N 1 0 (N - 1)
  | node_left v tl tr :
      node N v tl tr -> tl <> tr ->
      node N (v * 2) tl (tl + (tr - tl) ÷ 2)
  | node_right v tl tr :
      node N v tl tr -> tl <> tr ->
      node N (v * 2 + 1) (tl + (tr - tl) ÷ 2 + 1) tr.

(** The slots below slot [v]. *)
Inductive desc (v : Z) : Z -> Prop :=
  | desc_self : desc v v
  | desc_left w : desc v w -> desc v (w * 2)
  | desc_right w : desc v w -> desc v (w * 2 + 1).

(** Slot [v] and the slots below it hold the tree of [arr] over [tl..tr]. *)
Inductive covers (arr buf : list T) : Z -> Z -> Z -> Prop :=
  | covers_leaf v tl x :
      1 <= v ->
      vec_at arr tl = Ok x ->
      vec_at buf v = Ok x ->
      covers arr buf v tl tl
  | covers_node v tl tr x y :
      1 <= v -> tl < tr ->
      covers arr buf (v * 2) tl (tl + (tr - tl) / 2) ->
      covers arr buf (v * 2 + 1) (tl + (tr - tl) / 2 + 1) tr ->
      vec_at buf (v * 2) = Ok x ->
      vec_at buf (v * 2 + 1) = Ok y ->
      vec_at buf v = Ok (merge x y) ->
      covers arr buf v tl tr.

(** A subtree at slot [v] over [len] elements fits a buffer of [L] slots. *)
Definition fits (L v len : Z) : Prop :=
  exists k, 0 <= k /\ len <= 2 ^ k /\ (v + 1) * 2 ^ k <= L.

(** The conceptual array after a point update. *)
Definition array_set (arr : list T) (pos : Z) (x : T) : list T :=
  <[Z.to_nat pos := x]> arr.

(** The invariant of the structure: [st] is the tree of the array [arr]. *)
Record tree_of (arr : list T) (st : SegTree) : Prop := mk_tree_of {
  tree_n : n st = Z.of_nat (length arr);
  tree_nonempty : 1 <= n st;
  tree_size : Z.of_nat (length (t st)) = 4 * n st;
  tree_int : 4 * n st <= INT_MAX;
  tree_elems : Forall is_T arr;
  tree_covers : covers arr (t st) 1 0 (n st - 1)
}.

(** The trees that the interface produces, with the conceptual array each
    one stands for: a tree constructed from a vector of [int], and a tree
    after a point update at a position of the array. *)
Inductive represents : list T -> SegTree -> Prop :=
  | represents_ctor fuel a st :
      Forall is_int a -> 1 <= Z.of_nat (length a) ->
      SegTree_ctor fuel a = Ok st ->
      represents a st
  | represents_update fuel arr st pos x st' :
      represents arr st ->
      0 <= pos <= n st - 1 -> is_T x ->
      update fuel pos x st = Ok (tt, st') ->
      represents (array_set arr pos x) st'.

(** The aggregate of every node of [st] is the fold over its range of [arr]. *)
Definition node_invariant (arr : list T) (st : SegTree) : Prop :=
  forall v tl tr,
    node (n st) v tl tr -> vec_at (t st) v = Ok (range_fold arr tl tr).

(** The array of the usage example of the source, and its tree. *)
Definition sample : list Z := [1; 2; 3; 4; 5].

Definition sample_tree : SegTree :=
  mkSegTree 5 [0; 15; 6; 9; 3; 3; 4; 5; 1; 2; 0; 0; 0; 0; 0; 0; 0; 0; 0; 0].

(** ** Further notions for the properties of the code *)

(** The nodes below the node at slot [v] with range [tl..tr], that node
    included: the calls that [build] started at [(v, tl, tr)] makes. *)
Inductive below (v tl tr : Z) : Z -> Z -> Z -> Prop :=
  | below_self : below v tl tr v tl tr
  | below_left w a b :
      below v tl tr w a b -> a <> b ->
      below v tl tr (w * 2) a (a + (b - a) ÷ 2)
  | below_right w a b :
      below v tl tr w a b -> a <> b ->
      below v tl tr (w * 2 + 1) (a + (b - a) ÷ 2 + 1) b.

(** The ranges of the recursion steps. [build], [query_recursive] and
    [update_recursive] are private and are only started by the
    constructor, [query] and [update], at the range [0..hi] with
    hi = n - 1; a step with the range [tl..tr] passes on [tl..tm] or
    [tm+1..tr], where tm is its split point. Which of the two a step
    passes on, and whether it goes on at all, differs between the three
    functions; the relation has every range that any of them can pass on,
    also below a leaf and for n = 0. *)
Inductive visited (hi : Z) : Z -> Z -> Prop :=
  | visited_root : visited hi 0 hi
  | visited_left tl tr :
      visited hi tl tr -> visited hi tl (tl + (tr - tl) ÷ 2)
  | visited_right tl tr :
      visited hi tl tr -> visited hi (tl + (tr - tl) ÷ 2 + 1) tr.

(** Every slot of the buffer is the slot of a node or still holds the
    zero that [resize] put there. *)
Definition clean (st : SegTree) : Prop :=
  forall w x,
    vec_at (t st) w = Ok x -> (exists tl tr, node (n st) w tl tr) \/ x = 0.

(** The sum of a list of integers, without wrap-around. *)
Definition Zsum (xs : list Z) : Z := fold_right Z.add 0 xs.

End SegmentTree.

(** * Disjoint-set union *)

Module UnionFind.

Record DSU : Type := mkDSU { parent : list Z; sz : list Z }.

Definition read_parent (v : Z) : prog DSU Z :=
  fun st => x <~ vec_at (parent st) v ;; Ok (x, st).

Definition write_parent (v x : Z) : prog DSU unit :=
  fun st => buf <~ vec_set (parent st) v x ;; Ok (tt, mkDSU buf (sz st)).

Definition read_sz (v : Z) : prog DSU Z :=
  fun st => x <~ vec_at (sz st) v ;; Ok (x, st).

Definition write_sz (v x : Z) : prog DSU unit :=
  fun st => buf <~ vec_set (sz st) v x ;; Ok (tt, mkDSU (parent st) buf).

(** [DSU(int n)]: [parent] is 0, 1, ..., n-1 and every [sz] is 1. *)
Definition DSU_ctor (n : Z) : result DSU :=
  p <~ vec_fill n 0 ;;
  s <~ vec_fill n 1 ;;
  Ok (mkDSU (imap (fun i _ => Z.of_nat i) p) s).

Fixpoint find_set (fuel : nat) (v : Z) : prog DSU Z :=
  match fuel with
  | O => out_of_fuel
  | S fuel =>
      p <- read_parent v ;;
      if v =? p then ret v
      else
        p <- read_parent v ;;
        r <- find_set fuel p ;;
        write_parent v r ;;
        ret r
  end.

Definition union_sets (fuel : nat) (a b : Z) : prog DSU unit :=
  a <- find_set fuel a ;;
  b <- find_set fuel b ;;
  if a =? b then ret tt
  else
    sa <- read_sz a ;;
    sb <- read_sz b ;;
    let (a, b) := if sa <? sb then (b, a) else (a, b) in
    write_parent b a ;;
    sa <- read_sz a ;;
    sb <- read_sz b ;;
    s <- lift (int_add sa sb) ;;
    write_sz a s.

(** ** What the operations are specified against *)

(** [r] is the representative of [v]: the root that the parent links from
    [v] lead to. *)
Inductive root_of (P : list Z) : Z -> Z -> Prop :=
  | root_self v : vec_at P v = Ok v -> root_of P v v
  | root_step v p r :
      vec_at P v = Ok p -> p <> v -> root_of P p r -> root_of P v r.

(** [x] and [y] are in the same set. *)
Definition same_set (st : DSU) (x y : Z) : Prop :=
  exists r, root_of (parent st) x r /\ root_of (parent st) y r.

(** The sum of [f 0], ..., [f (k-1)]. *)
Fixpoint sum_to (f : nat -> Z) (k : nat) : Z :=
  match k with
  | O => 0
  | S k => sum_to f k + f k
  end.

(** The size recorded for [i] when [i] is a root, and 0 otherwise. *)
Definition root_size (P S : list Z) (i : nat) : Z :=
  match P !! i, S !! i with
  | Some p, Some s => if p =? Z.of_nat i then s else 0
  | _, _ => 0
  end.

(** The invariant of the structure. *)
Record dsu_inv (st : DSU) : Prop := mk_dsu_inv {
  inv_sz_length : length (sz st) = length (parent st);
  inv_rooted : forall v, 0 <= v < Z.of_nat (length (parent st)) ->
               exists r, root_of (parent st) v r;
  inv_sz_nonneg : forall i s, sz st !! i = Some s -> 0 <= s;
  inv_sz_sum :
    sum_to (root_size (parent st) (sz st)) (length (parent st)) <= INT_MAX
}.

(** The states of a DSU over [N] elements: the state after construction,
    and the states after calls with arguments in [0, N-1]. *)
Inductive dsu_state (N : Z) : DSU -> Prop :=
  | dsu_new st : DSU_ctor N = Ok st -> is_int N -> dsu_state N st
  | dsu_find fuel st v r st' :
      dsu_state N st -> 0 <= v <= N - 1 ->
      find_set fuel v st = Ok (r, st') ->
      dsu_state N st'
  | dsu_union fuel st a b st' :
      dsu_state N st -> 0 <= a <= N - 1 -> 0 <= b <= N - 1 ->
      union_sets fuel a b st = Ok (tt, st') ->
      dsu_state N st'.

(** What [find_set] does to the parent links [P]: the result [P'] has the
    same length, the same roots and the same representatives, and each
    link of [P'] is the link of [P] or leads to the node's own root. *)
Record compressed (P P' : list Z) : Prop := mk_compressed {
  compressed_length : length P' = length P;
  compressed_roots : forall x rx, root_of P x rx -> root_of P' x rx;
  compressed_same_roots : forall x, vec_at P' x = Ok x <-> vec_at P x = Ok x;
  compressed_links : forall x,
      vec_at P' x = vec_at P x \/
      exists rx, vec_at P' x = Ok rx /\ root_of P x rx
}.

(** ** Further notions for the properties of the code *)

(** [rep] gives every element its representative. *)
Definition representatives (P : list Z) (rep : nat -> Z) : Prop :=
  forall i, (i < length P)%nat -> root_of P (Z.of_nat i) (rep i).

(** The number of the elements 0, ..., k-1 whose representative is [r]. *)
Definition class_size (rep : nat -> Z) (k : nat) (r : Z) : Z :=
  sum_to (fun i => if rep i =? r then 1 else 0) k.

(** The size recorded at every root is the size of its set. *)
Definition sizes_ok (st : DSU) : Prop :=
  exists rep,
    representatives (parent st) rep /\
    forall r s,
      vec_at (parent st) r = Ok r -> vec_at (sz st) r = Ok s ->
      s = class_size rep (length (parent st)) r.

(** [v] reaches its representative [r] in at most [h] steps. *)
Inductive root_within (P : list Z) : nat -> Z -> Z -> Prop :=
  | within_self h v : vec_at P v = Ok v -> root_within P h v v
  | within_step h v p r :
      vec_at P v = Ok p -> p <> v -> root_within P h p r ->
      root_within P (S h) v r.

(** Union by size keeps the trees shallow: a set whose elements are up to
    [h] steps away from the root has at least [2 ^ h] elements recorded. *)
Definition shallow (st : DSU) : Prop :=
  forall v r,
    root_of (parent st) v r ->
    exists h s,
      root_within (parent st) h v r /\
      vec_at (sz st) r = Ok s /\ 2 ^ Z.of_nat h <= s.

End UnionFind.

(** * Properties of the programs *)

(** ** Equations of the programs *)

Lemma bind_Ok {S A B : Type} (m : prog S A) (k : A -> prog S B) s x s' :
  m s = Ok (x, s') -> bind m k s = k x s'.
Proof. intros H. unfold bind. rewrite H. reflexivity. Qed.

Lemma bind_Ok_inv {S A B : Type} (m : prog S A) (k : A -> prog S B) s y s2 :
  bind m k s = Ok (y, s2) ->
  exists x s1, m s = Ok (x, s1) /\ k x s1 = Ok (y, s2).
Proof.
  unfold bind. destruct (m s) as [[x s1]| | | |]; simpl; try discriminate.
  intros H. exists x, s1. split; [reflexivity | exact H].
Qed.

Lemma lift_Ok {S A : Type} (r : result A) (s : S) x :
  r = Ok x -> lift r s = Ok (x, s).
Proof. intros ->. reflexivity. Qed.

Lemma lift_Ok_inv {S A : Type} (r : result A) (s s' : S) x :
  lift r s = Ok (x, s') -> r = Ok x /\ s' = s.
Proof.
  unfold lift. destruct r; simpl; try discriminate.
  intros H. injection H as -> ->. split; reflexivity.
Qed.

Lemma int_of_Ok z : is_int z -> int_of z = Ok z.
Proof.
  unfold is_int, int_of. intros [H1 H2].
  apply Z.leb_le in H1. apply Z.leb_le in H2. rewrite H1, H2. reflexivity.
Qed.

Lemma int_of_Ok_inv z y : int_of z = Ok y -> y = z /\ is_int z.
Proof.
  unfold int_of, is_int.
  destruct (INT_MIN <=? z) eqn:H1; destruct (z <=? INT_MAX) eqn:H2;
    simpl; try discriminate.
  intros H. injection H as <-.
  apply Z.leb_le in H1. apply Z.leb_le in H2. auto.
Qed.

Lemma vec_at_Ok {A : Type} (vec : list A) i x :
  vec_at vec i = Ok x <-> 0 <= i /\ vec !! Z.to_nat i = Some x.
Proof.
  unfold vec_at. destruct (0 <=? i) eqn:H0.
  - apply Z.leb_le in H0. destruct (vec !! Z.to_nat i) as [y|].
    + split; [intros H; injection H as ->; auto | intros [_ H]; congruence].
    + split; [discriminate | intros [_ H]; discriminate].
  - apply Z.leb_gt in H0. split; [discriminate | intros [H _]; lia].
Qed.

Lemma vec_at_bound {A : Type} (vec : list A) i x :
  vec_at vec i = Ok x -> 0 <= i < Z.of_nat (length vec).
Proof.
  intros H. apply vec_at_Ok in H as [H0 H]. apply lookup_lt_Some in H. lia.
Qed.

Lemma vec_at_in_range {A : Type} (vec : list A) i :
  0 <= i < Z.of_nat (length vec) -> exists x, vec_at vec i = Ok x.
Proof.
  intros H. destruct (lookup_lt_is_Some_2 vec (Z.to_nat i)) as [x Hx]; [lia|].
  exists x. apply vec_at_Ok. split; [lia | exact Hx].
Qed.

Lemma vec_set_Ok {A : Type} (vec : list A) i x :
  0 <= i < Z.of_nat (length vec) ->
  vec_set vec i x = Ok (<[Z.to_nat i := x]> vec).
Proof.
  intros [H1 H2]. unfold vec_set.
  apply Z.leb_le in H1. apply Z.ltb_lt in H2. rewrite H1, H2. reflexivity.
Qed.

Lemma vec_at_insert_eq {A : Type} (vec : list A) i x :
  0 <= i < Z.of_nat (length vec) ->
  vec_at (<[Z.to_nat i := x]> vec) i = Ok x.
Proof.
  intros H. apply vec_at_Ok. split; [lia|].
  apply list_lookup_insert_eq. lia.
Qed.

Lemma vec_at_insert_ne {A : Type} (vec : list A) i j x :
  0 <= i -> i <> j ->
  vec_at (<[Z.to_nat i := x]> vec) j = vec_at vec j.
Proof.
  intros Hi Hne. unfold vec_at. destruct (0 <=? j) eqn:Hj; [|reflexivity].
  apply Z.leb_le in Hj. rewrite list_lookup_insert_ne by lia. reflexivity.
Qed.

(** ** A larger recursion budget changes no result *)

Lemma refines_refl {S A : Type} (m : prog S A) : refines m m.
Proof. intros s r H. exact H. Qed.

Lemma refines_bind {S A B : Type} (m m' : prog S A) (k k' : A -> prog S B) :
  refines m m' -> (forall x, refines (k x) (k' x)) ->
  refines (bind m k) (bind m' k').
Proof.
  intros Hm Hk s [y s2] H.
  apply bind_Ok_inv in H as (x & s1 & H1 & H2).
  rewrite (bind_Ok _ _ _ _ _ (Hm _ _ H1)). apply Hk, H2.
Qed.

Lemma refines_out_of_fuel {S A : Type} (m : prog S A) : refines out_of_fuel m.
Proof. intros s r H. discriminate H. Qed.

(** ** What a step that returned has computed *)

Lemma bind_cong {S A B : Type} (m : prog S A) (k k' : A -> prog S B) s :
  (forall x s', m s = Ok (x, s') -> k x s' = k' x s') ->
  bind m k s = bind m k' s.
Proof.
  intros H. unfold bind. destruct (m s) as [[x s']| | | |]; simpl; auto.
Qed.

Lemma bind_cong_l {S A B : Type} (m m' : prog S A) (k : A -> prog S B) s :
  m s = m' s -> bind m k s = bind m' k s.
Proof. intros H. unfold bind. rewrite H. reflexivity. Qed.

Lemma bind_refines_at {S A B : Type} (m m' : prog S A) (k k' : A -> prog S B) s :
  (forall r, m s = Ok r -> m' s = Ok r) ->
  (forall x s1, m s = Ok (x, s1) -> forall r, k x s1 = Ok r -> k' x s1 = Ok r) ->
  forall r, bind m k s = Ok r -> bind m' k' s = Ok r.
Proof.
  intros Hm Hk [y s2] H. apply bind_Ok_inv in H as (x & s1 & H1 & H2).
  rewrite (bind_Ok _ _ _ _ _ (Hm _ H1)). eapply Hk; eassumption.
Qed.

Lemma int_add_inv x y z : int_add x y = Ok z -> z = x + y /\ is_int (x + y).
Proof. apply int_of_Ok_inv. Qed.

Lemma int_sub_inv x y z : int_sub x y = Ok z -> z = x - y /\ is_int (x - y).
Proof. apply int_of_Ok_inv. Qed.

Lemma int_mul_inv x y z : int_mul x y = Ok z -> z = x * y /\ is_int (x * y).
Proof. apply int_of_Ok_inv. Qed.

Lemma vec_at_of_nat {A : Type} (vec : list A) (i : nat) x :
  vec !! i = Some x -> vec_at vec (Z.of_nat i) = Ok x.
Proof. intros H. apply vec_at_Ok. rewrite Nat2Z.id. split; [lia | exact H]. Qed.

Lemma vec_at_out_of_range {A : Type} (vec : list A) i :
  i < 0 \/ Z.of_nat (length vec) <= i -> vec_at vec i = OutOfBounds.
Proof.
  intros H. unfold vec_at. destruct (Z.leb_spec 0 i) as [H0|]; [|reflexivity].
  rewrite lookup_ge_None_2 by lia. reflexivity.
Qed.

(** * Properties of the segment tree *)

Module SegmentTreeSpec.

Import SegmentTree.

(** ** The merge operation is a monoid on [T] *)

Lemma wrap_ll_is_T z : is_T (wrap_ll z).
Proof.
  unfold wrap_ll, is_T, LLONG_MIN, LLONG_MAX.
  pose proof (Z.mod_pos_bound (z + 2 ^ 63) (2 ^ 64) ltac:(lia)). lia.
Qed.

Lemma wrap_ll_id z : is_T z -> wrap_ll z = z.
Proof.
  unfold wrap_ll, is_T, LLONG_MIN, LLONG_MAX. intros H.
  rewrite Z.mod_small by lia. lia.
Qed.

Lemma wrap_ll_add_l x y : wrap_ll (wrap_ll x + y) = wrap_ll (x + y).
Proof.
  unfold wrap_ll. f_equal.
  replace ((x + 2 ^ 63) mod 2 ^ 64 - 2 ^ 63 + y + 2 ^ 63)
    with ((x + 2 ^ 63) mod 2 ^ 64 + y) by lia.
  rewrite Zplus_mod_idemp_l. f_equal. lia.
Qed.

Lemma merge_is_T a b : is_T (merge a b).
Proof. apply wrap_ll_is_T. Qed.

Lemma IDENTITY_is_T : is_T IDENTITY.
Proof. unfold is_T, IDENTITY, LLONG_MIN, LLONG_MAX. lia. Qed.

Lemma merge_assoc a b c : merge (merge a b) c = merge a (merge b c).
Proof.
  unfold merge. rewrite wrap_ll_add_l.
  rewrite (Z.add_comm a (wrap_ll (b + c))), wrap_ll_add_l.
  f_equal. lia.
Qed.

Lemma merge_IDENTITY_l x : is_T x -> merge IDENTITY x = x.
Proof. intros H. unfold merge, IDENTITY. simpl. apply wrap_ll_id, H. Qed.

Lemma merge_IDENTITY_r x : is_T x -> merge x IDENTITY = x.
Proof.
  intros H. unfold merge, IDENTITY. rewrite Z.add_0_r. apply wrap_ll_id, H.
Qed.

(** ** Folds over ranges *)

Lemma fold_left_merge_is_T xs z : is_T z -> is_T (fold_left merge xs z).
Proof.
  revert z. induction xs as [|x xs IH]; intros z Hz; simpl; [exact Hz|].
  apply IH, merge_is_T.
Qed.

Lemma fold_merge_is_T xs : is_T (fold_merge xs).
Proof. apply fold_left_merge_is_T, IDENTITY_is_T. Qed.

Lemma fold_left_merge_from xs z :
  is_T z -> fold_left merge xs z = merge z (fold_merge xs).
Proof.
  unfold fold_merge. revert z. induction xs as [|x xs IH]; intros z Hz; simpl.
  - symmetry. apply merge_IDENTITY_r, Hz.
  - rewrite (IH (merge z x)) by apply merge_is_T.
    rewrite (IH (merge IDENTITY x)) by apply merge_is_T.
    rewrite !merge_assoc. f_equal.
    rewrite merge_IDENTITY_l by apply merge_is_T. reflexivity.
Qed.

Lemma fold_merge_app xs ys :
  fold_merge (xs ++ ys) = merge (fold_merge xs) (fold_merge ys).
Proof.
  unfold fold_merge at 1. rewrite fold_left_app.
  apply fold_left_merge_from, fold_merge_is_T.
Qed.

Lemma fold_merge_single x : is_T x -> fold_merge [x] = x.
Proof. intros H. unfold fold_merge. simpl. apply merge_IDENTITY_l, H. Qed.

Lemma range_empty arr l r : r < l -> range arr l r = [].
Proof.
  intros H. unfold range. replace (Z.to_nat (r + 1 - l)) with 0%nat by lia.
  reflexivity.
Qed.

Lemma range_single arr i x : vec_at arr i = Ok x -> range arr i i = [x].
Proof.
  intros H. apply vec_at_Ok in H as [Hi H]. unfold range.
  replace (Z.to_nat (i + 1 - i)) with 1%nat by lia.
  rewrite (drop_S _ _ _ H). reflexivity.
Qed.

Lemma range_split arr l m r :
  0 <= l -> l - 1 <= m <= r ->
  range arr l r = range arr l m ++ range arr (m + 1) r.
Proof.
  intros Hl Hm. unfold range.
  replace (Z.to_nat (m + 1)) with (Z.to_nat l + Z.to_nat (m + 1 - l))%nat by lia.
  rewrite <- drop_drop, take_take_drop. f_equal. lia.
Qed.

Lemma range_fold_empty arr l r : r < l -> range_fold arr l r = IDENTITY.
Proof. intros H. unfold range_fold. rewrite range_empty by exact H. reflexivity. Qed.

Lemma range_fold_split arr l m r :
  0 <= l -> l - 1 <= m <= r ->
  range_fold arr l r = merge (range_fold arr l m) (range_fold arr (m + 1) r).
Proof.
  intros Hl Hm. unfold range_fold.
  rewrite (range_split arr l m r) by assumption. apply fold_merge_app.
Qed.

Lemma range_fold_is_T arr l r : is_T (range_fold arr l r).
Proof. apply fold_merge_is_T. Qed.

Lemma vec_at_is_T arr i x : Forall is_T arr -> vec_at arr i = Ok x -> is_T x.
Proof.
  intros Harr H. apply vec_at_Ok in H as [_ H].
  eapply Forall_lookup_1; eassumption.
Qed.

Lemma range_fold_single arr i x :
  Forall is_T arr -> vec_at arr i = Ok x -> range_fold arr i i = x.
Proof.
  intros Harr H. unfold range_fold. rewrite (range_single _ _ _ H).
  apply fold_merge_single. eapply vec_at_is_T; eassumption.
Qed.

(** ** Slots below a slot *)

Lemma desc_ge v w : 1 <= v -> desc v w -> v <= w.
Proof. intros Hv H. induction H; lia. Qed.

Lemma desc_trans u v w : desc u v -> desc v w -> desc u w.
Proof.
  intros Huv Hvw. induction Hvw; [exact Huv | |]; constructor; assumption.
Qed.

Lemma desc_chain v v' w : desc v w -> desc v' w -> desc v v' \/ desc v' v.
Proof.
  intros H. revert v'. induction H as [|w H IH|w H IH]; intros v' H'.
  - right. exact H'.
  - inversion H' as [E|w' Hw' E|w' Hw' E].
    + left. constructor. exact H.
    + assert (w' = w) as -> by lia. apply IH, Hw'.
    + lia.
  - inversion H' as [E|w' Hw' E|w' Hw' E].
    + left. constructor. exact H.
    + lia.
    + assert (w' = w) as -> by lia. apply IH, Hw'.
Qed.

Lemma desc_children_disjoint v w :
  1 <= v -> desc (v * 2) w -> desc (v * 2 + 1) w -> False.
Proof.
  intros Hv Hl Hr. destruct (desc_chain _ _ _ Hl Hr) as [H|H].
  - inversion H as [E|w' Hw' E|w' Hw' E]; try lia.
    assert (w' = v) as -> by lia. apply desc_ge in Hw'; lia.
  - apply desc_ge in H; lia.
Qed.

Lemma desc_left_child v w : desc (v * 2) w -> desc v w.
Proof. apply desc_trans. constructor. constructor. Qed.

Lemma desc_right_child v w : desc (v * 2 + 1) w -> desc v w.
Proof. apply desc_trans. constructor. constructor. Qed.

Lemma desc_left_ne v w : 1 <= v -> desc (v * 2) w -> w <> v.
Proof. intros Hv H. apply desc_ge in H; lia. Qed.

Lemma desc_right_ne v w : 1 <= v -> desc (v * 2 + 1) w -> w <> v.
Proof. intros Hv H. apply desc_ge in H; lia. Qed.

(** ** The tree held by the slots *)

Lemma covers_le arr buf v tl tr : covers arr buf v tl tr -> tl <= tr.
Proof. intros H. destruct H; lia. Qed.

Lemma covers_slot arr buf v tl tr :
  covers arr buf v tl tr -> 1 <= v < Z.of_nat (length buf).
Proof.
  intros H. destruct H as [v tl x Hv _ Hb | v tl tr x y Hv _ _ _ _ _ Hb];
    apply vec_at_bound in Hb; lia.
Qed.

Lemma covers_frame arr arr' buf buf' v tl tr :
  covers arr buf v tl tr ->
  (forall w, desc v w -> vec_at buf' w = vec_at buf w) ->
  (forall i, tl <= i <= tr -> vec_at arr' i = vec_at arr i) ->
  covers arr' buf' v tl tr.
Proof.
  intros H. induction H as [v tl x Hv Ha Hb | v tl tr x y Hv Hlt Hl IHl Hr IHr Hx Hy Hm];
    intros Hbuf Harr.
  - apply covers_leaf with x; [exact Hv | |].
    + rewrite Harr by lia. exact Ha.
    + rewrite Hbuf by constructor. exact Hb.
  - apply covers_node with x y; try assumption.
    + apply IHl.
      * intros w Hw. apply Hbuf, desc_left_child, Hw.
      * intros i Hi. apply Harr. lia.
    + apply IHr.
      * intros w Hw. apply Hbuf, desc_right_child, Hw.
      * intros i Hi. apply Harr. lia.
    + rewrite Hbuf by (constructor; constructor). exact Hx.
    + rewrite Hbuf by (constructor; constructor). exact Hy.
    + rewrite Hbuf by constructor. exact Hm.
Qed.

(** The aggregate of a node is the fold over its range. *)
Lemma covers_fold arr buf v tl tr :
  Forall is_T arr -> 0 <= tl ->
  covers arr buf v tl tr ->
  vec_at buf v = Ok (range_fold arr tl tr).
Proof.
  intros Harr Htl H.
  induction H as [v tl x Hv Ha Hb | v tl tr x y Hv Hlt Hl IHl Hr IHr Hx Hy Hm].
  - rewrite (range_fold_single arr tl x) by assumption. exact Hb.
  - rewrite (range_fold_split arr tl (tl + (tr - tl) / 2) tr) by lia.
    specialize (IHl Htl). specialize (IHr ltac:(lia)).
    rewrite Hx in IHl. rewrite Hy in IHr.
    injection IHl as <-. injection IHr as <-. exact Hm.
Qed.

(** ** Slot indices stay inside the buffer *)

Lemma fits_slot L v len : 0 <= v -> 1 <= len -> fits L v len -> v + 1 <= L.
Proof.
  intros Hv Hlen (k & Hk & H1 & H2).
  assert (1 <= 2 ^ k) by (pose proof (Z.pow_pos_nonneg 2 k); lia).
  nia.
Qed.

Lemma fits_children L v tl tr :
  0 <= v -> tl < tr -> fits L v (tr - tl + 1) ->
  fits L (v * 2) (tl + (tr - tl) / 2 - tl + 1) /\
  fits L (v * 2 + 1) (tr - (tl + (tr - tl) / 2 + 1) + 1).
Proof.
  intros Hv Hlt (k & Hk & H1 & H2).
  assert (1 <= k) as Hk1.
  { destruct (Z.eq_dec k 0) as [->|]; [simpl in H1; lia | lia]. }
  assert (2 ^ k = 2 * 2 ^ (k - 1)) as E.
  { rewrite <- Z.pow_succ_r by lia. f_equal. lia. }
  assert (0 < 2 ^ (k - 1)) by (apply Z.pow_pos_nonneg; lia).
  split; exists (k - 1); (split; [lia|]); split; try lia; nia.
Qed.

Lemma fits_root N : 1 <= N -> fits (4 * N) 1 N.
Proof.
  intros HN. exists (Z.log2_up N).
  pose proof (Z.log2_up_nonneg N) as H0.
  split; [exact H0|].
  destruct (Z.eq_dec N 1) as [->|Hne].
  - replace (Z.log2_up 1) with 0 by reflexivity. simpl. lia.
  - pose proof (Z.log2_up_spec N ltac:(lia)) as [H1 H2].
    assert (0 < Z.log2_up N) by (apply Z.log2_up_pos; lia).
    assert (2 ^ Z.log2_up N = 2 * 2 ^ Z.pred (Z.log2_up N)) as E.
    { rewrite <- Z.pow_succ_r by lia. f_equal. lia. }
    lia.
Qed.

(** ** Steps of the programs *)

Lemma split_tm_Ok tl tr :
  0 <= tl <= tr -> tr <= INT_MAX -> split_tm tl tr = Ok (tl + (tr - tl) / 2).
Proof.
  intros H Hmax. unfold split_tm, int_sub, int_div, int_add.
  assert (INT_MIN <= 0) by (unfold INT_MIN; lia).
  rewrite (int_of_Ok (tr - tl)) by (unfold is_int; lia). simpl.
  rewrite Z.quot_div_nonneg by lia.
  rewrite (int_of_Ok ((tr - tl) / 2)) by (unfold is_int; lia). simpl.
  apply int_of_Ok. unfold is_int; lia.
Qed.

Lemma left_child_Ok v : 0 <= v -> v * 2 <= INT_MAX -> left_child v = Ok (v * 2).
Proof.
  intros H Hmax. unfold left_child, int_mul. apply int_of_Ok.
  unfold is_int, INT_MIN. lia.
Qed.

Lemma right_child_Ok v :
  0 <= v -> v * 2 + 1 <= INT_MAX -> right_child v = Ok (v * 2 + 1).
Proof.
  intros H Hmax. unfold right_child, int_mul, int_add.
  rewrite (int_of_Ok (v * 2)) by (unfold is_int, INT_MIN; lia). simpl.
  apply int_of_Ok. unfold is_int, INT_MIN; lia.
Qed.

Lemma int_succ_Ok x : 0 <= x -> x + 1 <= INT_MAX -> int_add x 1 = Ok (x + 1).
Proof.
  intros H Hmax. apply int_of_Ok. unfold is_int, INT_MIN; lia.
Qed.

Lemma read_t_Ok st v x : vec_at (t st) v = Ok x -> read_t v st = Ok (x, st).
Proof. intros H. unfold read_t. rewrite H. reflexivity. Qed.

Lemma write_t_Ok st v x :
  0 <= v < Z.of_nat (length (t st)) ->
  write_t v x st = Ok (tt, mkSegTree (n st) (<[Z.to_nat v := x]> (t st))).
Proof. intros H. unfold write_t. rewrite vec_set_Ok by exact H. reflexivity. Qed.

(** ** Construction *)

Lemma build_spec fuel : forall a v tl tr st,
  Forall is_T a ->
  0 <= tl <= tr -> tr < Z.of_nat (length a) -> tr <= INT_MAX ->
  tr - tl < Z.of_nat fuel ->
  1 <= v -> fits (Z.of_nat (length (t st))) v (tr - tl + 1) ->
  Z.of_nat (length (t st)) <= INT_MAX ->
  exists buf,
    build fuel a v tl tr st = Ok (tt, mkSegTree (n st) buf) /\
    length buf = length (t st) /\
    covers a buf v tl tr /\
    (forall w, ~ desc v w -> vec_at buf w = vec_at (t st) w).
Proof.
  induction fuel as [|fuel IH]; intros a v tl tr st Ha Hr Hlen Hmax Hfuel Hv Hfit HL;
    [lia|].
  cbn [build].
  assert (v + 1 <= Z.of_nat (length (t st))) as Hslot
    by (apply (fits_slot _ v (tr - tl + 1)); [lia | lia | exact Hfit]).
  destruct (Z.eqb_spec tl tr) as [->|Hne].
  - destruct (vec_at_in_range a tr ltac:(lia)) as [x Hx].
    rewrite (bind_Ok _ _ _ _ _ (lift_Ok _ st _ Hx)).
    rewrite write_t_Ok by lia.
    exists (<[Z.to_nat v := x]> (t st)). split; [reflexivity|].
    split; [apply length_insert|]. split.
    + apply covers_leaf with x; [exact Hv | exact Hx |].
      apply vec_at_insert_eq. lia.
    + intros w Hw. apply vec_at_insert_ne; [lia|].
      intros E. apply Hw. rewrite E. constructor.
  - assert (tl < tr) as Hlt by lia.
    destruct (fits_children _ v tl tr ltac:(lia) Hlt Hfit) as [Hfl Hfr].
    set (tm := tl + (tr - tl) / 2) in *.
    assert (tl <= tm < tr) as Htm by (unfold tm; lia).
    assert (v * 2 + 1 + 1 <= Z.of_nat (length (t st))) as Hslotr
      by (apply (fits_slot _ (v * 2 + 1) (tr - (tm + 1) + 1));
          [lia | lia | exact Hfr]).
    rewrite (bind_Ok _ _ _ _ _ (lift_Ok _ st _ (split_tm_Ok tl tr ltac:(lia) Hmax))).
    fold tm.
    rewrite (bind_Ok _ _ _ _ _ (lift_Ok _ st _ (left_child_Ok v ltac:(lia) ltac:(lia)))).
    destruct (IH a (v * 2) tl tm st Ha ltac:(lia) ltac:(lia) ltac:(lia) ltac:(lia)
                ltac:(lia) Hfl HL) as (buf1 & E1 & Hlen1 & Hc1 & Hf1).
    rewrite (bind_Ok _ _ _ _ _ E1).
    set (st1 := mkSegTree (n st) buf1).
    rewrite (bind_Ok _ _ _ _ _ (lift_Ok _ st1 _ (right_child_Ok v ltac:(lia) ltac:(lia)))).
    rewrite (bind_Ok _ _ _ _ _ (lift_Ok _ st1 _ (int_succ_Ok tm ltac:(lia) ltac:(lia)))).
    destruct (IH a (v * 2 + 1) (tm + 1) tr st1 Ha ltac:(lia) ltac:(lia) ltac:(lia)
                ltac:(lia) ltac:(lia)) as (buf2 & E2 & Hlen2 & Hc2 & Hf2).
    { simpl. rewrite Hlen1. exact Hfr. }
    { simpl. rewrite Hlen1. exact HL. }
    rewrite (bind_Ok _ _ _ _ _ E2).
    simpl in E2, Hlen2, Hf2. clear E1 E2.
    set (st2 := mkSegTree (n st) buf2).
    assert (covers a buf2 (v * 2) tl tm) as Hc1'.
    { apply covers_frame with a buf1; [exact Hc1 | | reflexivity].
      intros w Hw. apply Hf2. intros Hw'.
      exact (desc_children_disjoint v w Hv Hw Hw'). }
    destruct (vec_at_in_range buf2 (v * 2) ltac:(lia)) as [x Hx].
    destruct (vec_at_in_range buf2 (v * 2 + 1) ltac:(lia)) as [y Hy].
    rewrite (bind_Ok _ _ _ _ _ (read_t_Ok st2 _ _ Hx)).
    rewrite (bind_Ok _ _ _ _ _ (read_t_Ok st2 _ _ Hy)).
    rewrite write_t_Ok by (simpl; lia). simpl.
    exists (<[Z.to_nat v := merge x y]> buf2). split; [reflexivity|].
    split; [rewrite length_insert; lia|]. split.
    + apply covers_node with x y; try assumption.
      * apply covers_frame with a buf2; [exact Hc1' | | reflexivity].
        intros w Hw. apply vec_at_insert_ne; [lia|].
        intros E. exact (desc_left_ne v w Hv Hw (eq_sym E)).
      * apply covers_frame with a buf2; [exact Hc2 | | reflexivity].
        intros w Hw. apply vec_at_insert_ne; [lia|].
        intros E. exact (desc_right_ne v w Hv Hw (eq_sym E)).
      * rewrite vec_at_insert_ne by lia. exact Hx.
      * rewrite vec_at_insert_ne by lia. exact Hy.
      * apply vec_at_insert_eq. lia.
    + intros w Hw. rewrite vec_at_insert_ne.
      * rewrite Hf2 by (intros Hw'; apply Hw, desc_right_child, Hw').
        apply Hf1. intros Hw'. apply Hw, desc_left_child, Hw'.
      * lia.
      * intros E. apply Hw. rewrite E. constructor.
Qed.

Lemma build_fuel_mono fuel : forall fuel' a v tl tr,
  (fuel <= fuel')%nat -> refines (build fuel a v tl tr) (build fuel' a v tl tr).
Proof.
  induction fuel as [|fuel IH]; intros fuel' a v tl tr Hle;
    [apply refines_out_of_fuel|].
  destruct fuel' as [|fuel']; [lia|]. cbn [build].
  destruct (tl =? tr); [apply refines_refl|].
  repeat (apply refines_bind;
          [first [apply IH; lia | apply refines_refl] | intros ?]).
  apply refines_refl.
Qed.

Lemma is_int_is_T x : is_int x -> is_T x.
Proof.
  unfold is_int, is_T, INT_MIN, INT_MAX, LLONG_MIN, LLONG_MAX. lia.
Qed.

Lemma Forall_is_int_is_T a : Forall is_int a -> Forall is_T a.
Proof. intros H. induction H; constructor; auto using is_int_is_T. Qed.

Lemma SegTree_ctor_spec fuel a :
  Forall is_int a ->
  1 <= Z.of_nat (length a) -> 4 * Z.of_nat (length a) <= INT_MAX ->
  Z.of_nat (length a) <= Z.of_nat fuel ->
  exists st, SegTree_ctor fuel a = Ok st /\ tree_of a st.
Proof.
  intros Ha HN Hmax Hfuel. unfold SegTree_ctor, int_mul, int_sub.
  remember (Z.of_nat (length a)) as N eqn:EN.
  assert (INT_MIN <= 0) by (unfold INT_MIN; lia).
  rewrite (int_of_Ok N) by (unfold is_int; lia). simpl.
  rewrite (int_of_Ok (4 * N)) by (unfold is_int; lia). simpl.
  unfold vec_fill. destruct (Z.leb_spec 0 (4 * N)) as [_|]; [simpl|lia].
  rewrite (int_of_Ok (N - 1)) by (unfold is_int; lia). simpl.
  set (st0 := mkSegTree N (replicate (Z.to_nat (4 * N)) 0)).
  assert (Z.of_nat (length (t st0)) = 4 * N) as HL
    by (simpl; rewrite length_replicate; lia).
  assert (fits (Z.of_nat (length (t st0))) 1 (N - 1 - 0 + 1)) as Hfit.
  { rewrite HL. replace (N - 1 - 0 + 1) with N by lia. apply fits_root, HN. }
  destruct (build_spec fuel a 1 0 (N - 1) st0 (Forall_is_int_is_T _ Ha)
              ltac:(lia) ltac:(lia) ltac:(lia) ltac:(lia) ltac:(lia) Hfit
              ltac:(lia)) as (buf & E & Hlen & Hc & _).
  rewrite E. simpl. eexists; split; [reflexivity|].
  split; cbn [n t].
  - exact EN.
  - exact HN.
  - rewrite Hlen. exact HL.
  - exact Hmax.
  - apply Forall_is_int_is_T, Ha.
  - exact Hc.
Qed.

Lemma SegTree_ctor_fuel_mono fuel fuel' a st :
  (fuel <= fuel')%nat -> SegTree_ctor fuel a = Ok st -> SegTree_ctor fuel' a = Ok st.
Proof.
  intros Hle. unfold SegTree_ctor.
  destruct (int_of (Z.of_nat (length a))) as [n0| | | |]; simpl; try discriminate.
  destruct (int_mul 4 n0) as [k| | | |]; simpl; try discriminate.
  destruct (vec_fill k 0) as [buf| | | |]; simpl; try discriminate.
  destruct (int_sub n0 1) as [hi| | | |]; simpl; try discriminate.
  destruct (build fuel a 1 0 hi (mkSegTree n0 buf)) as [p| | | |] eqn:E;
    simpl; try discriminate.
  rewrite (build_fuel_mono fuel fuel' a 1 0 hi Hle _ _ E). simpl. auto.
Qed.

(** A tree that was constructed from [a] is the tree of [a]. *)
Lemma SegTree_ctor_tree_of fuel a st :
  Forall is_int a -> 1 <= Z.of_nat (length a) ->
  SegTree_ctor fuel a = Ok st -> tree_of a st.
Proof.
  intros Ha HN E.
  assert (4 * Z.of_nat (length a) <= INT_MAX) as Hmax.
  { revert E. unfold SegTree_ctor.
    destruct (int_of (Z.of_nat (length a))) as [n0| | | |] eqn:E0;
      simpl; try discriminate.
    apply int_of_Ok_inv in E0 as [-> _].
    destruct (int_mul 4 (Z.of_nat (length a))) as [k| | | |] eqn:E1;
      simpl; try discriminate.
    apply int_of_Ok_inv in E1 as [_ [_ E1]]. intros _. exact E1. }
  set (fuel' := Nat.max fuel (length a)).
  destruct (SegTree_ctor_spec fuel' a Ha HN Hmax ltac:(lia)) as (st' & E' & Ht).
  rewrite (SegTree_ctor_fuel_mono fuel fuel' a st ltac:(lia) E) in E'.
  injection E' as ->. exact Ht.
Qed.

(** ** Queries *)

(** The step of [query_recursive] below a node that the range does not
    match. *)
Lemma query_recursive_node fuel
  (IH : forall arr v tl tr l r st,
      Forall is_T arr ->
      covers arr (t st) v tl tr ->
      0 <= tl -> tr <= INT_MAX -> Z.of_nat (length (t st)) <= INT_MAX ->
      tr - tl < Z.of_nat fuel ->
      r < l \/ tl <= l <= r /\ r <= tr ->
      query_recursive fuel v tl tr l r st = Ok (range_fold arr l r, st)) :
  forall arr v tl tr l r st,
  Forall is_T arr ->
  covers arr (t st) v tl tr ->
  0 <= tl -> tr <= INT_MAX -> Z.of_nat (length (t st)) <= INT_MAX ->
  tr - tl < Z.of_nat (S fuel) ->
  tl <= l <= r -> r <= tr -> l <> tl \/ r <> tr ->
  (tm <- lift (split_tm tl tr) ;;
   lc <- lift (left_child v) ;;
   left_res <- query_recursive fuel lc tl tm l (Z.min r tm) ;;
   rc <- lift (right_child v) ;;
   tm1 <- lift (int_add tm 1) ;;
   right_res <- query_recursive fuel rc tm1 tr (Z.max l tm1) r ;;
   ret (merge left_res right_res)) st = Ok (range_fold arr l r, st).
Proof.
  intros arr v tl tr l r st Harr Hc Htl Hmax HL Hfuel Hl Hr Hne.
  inversion Hc as [v' tl' x Hv Ha Hb | v' tl' tr' x y Hv Hlt Hcl Hcr Hx Hy Hm];
    subst; [lia|].
  set (tm := tl + (tr - tl) / 2) in *.
  assert (tl <= tm < tr) as Htm by (unfold tm; lia).
  apply vec_at_bound in Hy as Hyb.
  rewrite (bind_Ok _ _ _ _ _ (lift_Ok _ st _ (split_tm_Ok tl tr ltac:(lia) Hmax))).
  fold tm.
  rewrite (bind_Ok _ _ _ _ _ (lift_Ok _ st _ (left_child_Ok v ltac:(lia) ltac:(lia)))).
  rewrite (bind_Ok _ _ _ _ _
             (IH arr (v * 2) tl tm l (Z.min r tm) st Harr Hcl Htl ltac:(lia) HL
                 ltac:(lia) ltac:(lia))).
  rewrite (bind_Ok _ _ _ _ _ (lift_Ok _ st _ (right_child_Ok v ltac:(lia) ltac:(lia)))).
  rewrite (bind_Ok _ _ _ _ _ (lift_Ok _ st _ (int_succ_Ok tm ltac:(lia) ltac:(lia)))).
  rewrite (bind_Ok _ _ _ _ _
             (IH arr (v * 2 + 1) (tm + 1) tr (Z.max l (tm + 1)) r st Harr Hcr
                 ltac:(lia) Hmax HL ltac:(lia) ltac:(lia))).
  unfold ret. do 2 f_equal.
  destruct (Z.le_gt_cases r tm) as [Hrm|Hrm].
  - rewrite Z.min_l by lia. rewrite (range_fold_empty arr (Z.max l (tm + 1)) r) by lia.
    apply merge_IDENTITY_r, range_fold_is_T.
  - rewrite Z.min_r by lia. destruct (Z.le_gt_cases l tm) as [Hlm|Hlm].
    + rewrite Z.max_r by lia. symmetry. apply range_fold_split; lia.
    + rewrite Z.max_l by lia. rewrite (range_fold_empty arr l tm) by lia.
      apply merge_IDENTITY_l, range_fold_is_T.
Qed.

Lemma query_recursive_spec fuel : forall arr v tl tr l r st,
  Forall is_T arr ->
  covers arr (t st) v tl tr ->
  0 <= tl -> tr <= INT_MAX -> Z.of_nat (length (t st)) <= INT_MAX ->
  tr - tl < Z.of_nat fuel ->
  r < l \/ tl <= l <= r /\ r <= tr ->
  query_recursive fuel v tl tr l r st = Ok (range_fold arr l r, st).
Proof.
  induction fuel as [|fuel IH]; intros arr v tl tr l r st Harr Hc Htl Hmax HL Hfuel Hlr.
  { apply covers_le in Hc. lia. }
  cbn [query_recursive].
  destruct (Z.gtb_spec l r) as [Hgt|Hle].
  { unfold ret. rewrite range_fold_empty by lia. reflexivity. }
  destruct Hlr as [?|[Hl Hr]]; [lia|].
  destruct (Z.eqb_spec l tl) as [->|Hne1]; simpl.
  - destruct (Z.eqb_spec r tr) as [->|Hne2].
    + apply read_t_Ok, covers_fold; assumption.
    + apply (query_recursive_node fuel IH arr v tl tr tl r st); auto; lia.
  - apply (query_recursive_node fuel IH arr v tl tr l r st); auto; lia.
Qed.

Lemma query_recursive_fuel_mono fuel : forall fuel' v tl tr l r,
  (fuel <= fuel')%nat ->
  refines (query_recursive fuel v tl tr l r) (query_recursive fuel' v tl tr l r).
Proof.
  induction fuel as [|fuel IH]; intros fuel' v tl tr l r Hle;
    [apply refines_out_of_fuel|].
  destruct fuel' as [|fuel']; [lia|]. cbn [query_recursive].
  destruct (l >? r); [apply refines_refl|].
  destruct ((l =? tl) && (r =? tr)); [apply refines_refl|].
  repeat (apply refines_bind;
          [first [apply IH; lia | apply refines_refl] | intros ?]).
  apply refines_refl.
Qed.

(** [query_recursive] only reads the state. *)
Lemma query_recursive_state fuel : forall v tl tr l r st x st',
  query_recursive fuel v tl tr l r st = Ok (x, st') -> st' = st.
Proof.
  induction fuel as [|fuel IH]; intros v tl tr l r st x st' H; [discriminate H|].
  cbn [query_recursive] in H.
  destruct (l >? r).
  { unfold ret in H. congruence. }
  destruct ((l =? tl) && (r =? tr)).
  { unfold read_t in H. destruct (vec_at (t st) v); simpl in H; congruence. }
  apply bind_Ok_inv in H as (tm & s1 & H1 & H). apply lift_Ok_inv in H1 as [_ ->].
  apply bind_Ok_inv in H as (lc & s1 & H1 & H). apply lift_Ok_inv in H1 as [_ ->].
  apply bind_Ok_inv in H as (xl & s1 & H1 & H). apply IH in H1 as ->.
  apply bind_Ok_inv in H as (rc & s1 & H1 & H). apply lift_Ok_inv in H1 as [_ ->].
  apply bind_Ok_inv in H as (tm1 & s1 & H1 & H). apply lift_Ok_inv in H1 as [_ ->].
  apply bind_Ok_inv in H as (xr & s1 & H1 & H). apply IH in H1 as ->.
  unfold ret in H. congruence.
Qed.

(** ** Point updates *)

Lemma array_set_other arr pos x i :
  0 <= pos -> i <> pos -> vec_at (array_set arr pos x) i = vec_at arr i.
Proof. intros Hp Hne. apply vec_at_insert_ne; [exact Hp | auto]. Qed.

Lemma update_recursive_spec fuel : forall arr v tl tr pos x st,
  covers arr (t st) v tl tr ->
  0 <= tl -> tl <= pos <= tr -> tr <= INT_MAX ->
  Z.of_nat (length (t st)) <= INT_MAX ->
  tr - tl < Z.of_nat fuel ->
  exists buf,
    update_recursive fuel v tl tr pos x st = Ok (tt, mkSegTree (n st) buf) /\
    length buf = length (t st) /\
    covers (array_set arr pos x) buf v tl tr /\
    (forall w, ~ desc v w -> vec_at buf w = vec_at (t st) w).
Proof.
  induction fuel as [|fuel IH]; intros arr v tl tr pos x st Hc Htl Hpos Hmax HL Hfuel;
    [lia|].
  cbn [update_recursive].
  pose proof (covers_slot _ _ _ _ _ Hc) as Hslot.
  inversion Hc as [v' tl' x0 Hv Ha Hb | v' tl' tr' x0 y0 Hv Hlt Hcl Hcr Hx Hy Hm];
    subst.
  - rewrite Z.eqb_refl. assert (pos = tr) as -> by lia.
    rewrite write_t_Ok by lia.
    exists (<[Z.to_nat v := x]> (t st)). split; [reflexivity|].
    split; [apply length_insert|]. split.
    + apply vec_at_bound in Ha.
      apply covers_leaf with x; [exact Hv | |].
      * apply vec_at_insert_eq. lia.
      * apply vec_at_insert_eq. lia.
    + intros w Hw. apply vec_at_insert_ne; [lia|].
      intros E. apply Hw. rewrite E. constructor.
  - destruct (Z.eqb_spec tl tr) as [|_]; [lia|].
    set (tm := tl + (tr - tl) / 2) in *.
    assert (tl <= tm < tr) as Htm by (unfold tm; lia).
    apply vec_at_bound in Hy as Hyb.
    rewrite (bind_Ok _ _ _ _ _ (lift_Ok _ st _ (split_tm_Ok tl tr ltac:(lia) Hmax))).
    fold tm.
    assert (exists buf1,
      (if pos <=? tm
       then lc <- lift (left_child v) ;;
            update_recursive fuel lc tl tm pos x
       else rc <- lift (right_child v) ;;
            tm1 <- lift (int_add tm 1) ;;
            update_recursive fuel rc tm1 tr pos x) st
      = Ok (tt, mkSegTree (n st) buf1) /\
      length buf1 = length (t st) /\
      covers (array_set arr pos x) buf1 (v * 2) tl tm /\
      covers (array_set arr pos x) buf1 (v * 2 + 1) (tm + 1) tr /\
      (forall w, ~ desc v w -> vec_at buf1 w = vec_at (t st) w))
      as (buf1 & E1 & Hlen1 & Hcl1 & Hcr1 & Hf1).
    { destruct (Z.leb_spec pos tm) as [Hle|Hgt].
      - rewrite (bind_Ok _ _ _ _ _
                   (lift_Ok _ st _ (left_child_Ok v ltac:(lia) ltac:(lia)))).
        destruct (IH arr (v * 2) tl tm pos x st Hcl Htl ltac:(lia) ltac:(lia) HL
                    ltac:(lia)) as (buf1 & E1 & Hlen1 & Hc1 & Hf1).
        exists buf1. split; [exact E1|]. split; [exact Hlen1|].
        split; [exact Hc1|]. split.
        + apply covers_frame with arr (t st); [exact Hcr | |].
          * intros w Hw. apply Hf1. intros Hw'.
            exact (desc_children_disjoint v w Hv Hw' Hw).
          * intros i Hi. apply array_set_other; lia.
        + intros w Hw. apply Hf1. intros Hw'. apply Hw, desc_left_child, Hw'.
      - rewrite (bind_Ok _ _ _ _ _
                   (lift_Ok _ st _ (right_child_Ok v ltac:(lia) ltac:(lia)))).
        rewrite (bind_Ok _ _ _ _ _
                   (lift_Ok _ st _ (int_succ_Ok tm ltac:(lia) ltac:(lia)))).
        destruct (IH arr (v * 2 + 1) (tm + 1) tr pos x st Hcr ltac:(lia) ltac:(lia)
                    Hmax HL ltac:(lia)) as (buf1 & E1 & Hlen1 & Hc1 & Hf1).
        exists buf1. split; [exact E1|]. split; [exact Hlen1|]. split; [|split].
        + apply covers_frame with arr (t st); [exact Hcl | |].
          * intros w Hw. apply Hf1. intros Hw'.
            exact (desc_children_disjoint v w Hv Hw Hw').
          * intros i Hi. apply array_set_other; lia.
        + exact Hc1.
        + intros w Hw. apply Hf1. intros Hw'. apply Hw, desc_right_child, Hw'. }
    rewrite (bind_Ok _ _ _ _ _ E1). clear E1.
    set (st1 := mkSegTree (n st) buf1).
    rewrite (bind_Ok _ _ _ _ _ (lift_Ok _ st1 _ (left_child_Ok v ltac:(lia) ltac:(lia)))).
    rewrite (bind_Ok _ _ _ _ _ (lift_Ok _ st1 _ (right_child_Ok v ltac:(lia) ltac:(lia)))).
    destruct (vec_at_in_range buf1 (v * 2) ltac:(lia)) as [x1 Hx1].
    destruct (vec_at_in_range buf1 (v * 2 + 1) ltac:(lia)) as [y1 Hy1].
    rewrite (bind_Ok _ _ _ _ _ (read_t_Ok st1 _ _ Hx1)).
    rewrite (bind_Ok _ _ _ _ _ (read_t_Ok st1 _ _ Hy1)).
    rewrite write_t_Ok by (simpl; lia). simpl.
    exists (<[Z.to_nat v := merge x1 y1]> buf1). split; [reflexivity|].
    split; [rewrite length_insert; lia|]. split.
    + apply covers_node with x1 y1; try assumption.
      * apply covers_frame with (array_set arr pos x) buf1;
          [exact Hcl1 | | reflexivity].
        intros w Hw. apply vec_at_insert_ne; [lia|].
        intros E. exact (desc_left_ne v w Hv Hw (eq_sym E)).
      * apply covers_frame with (array_set arr pos x) buf1;
          [exact Hcr1 | | reflexivity].
        intros w Hw. apply vec_at_insert_ne; [lia|].
        intros E. exact (desc_right_ne v w Hv Hw (eq_sym E)).
      * rewrite vec_at_insert_ne by lia. exact Hx1.
      * rewrite vec_at_insert_ne by lia. exact Hy1.
      * apply vec_at_insert_eq. lia.
    + intros w Hw. rewrite vec_at_insert_ne.
      * apply Hf1, Hw.
      * lia.
      * intros E. apply Hw. rewrite E. constructor.
Qed.

Lemma update_recursive_fuel_mono fuel : forall fuel' v tl tr pos x,
  (fuel <= fuel')%nat ->
  refines (update_recursive fuel v tl tr pos x)
          (update_recursive fuel' v tl tr pos x).
Proof.
  induction fuel as [|fuel IH]; intros fuel' v tl tr pos x Hle;
    [apply refines_out_of_fuel|].
  destruct fuel' as [|fuel']; [lia|]. cbn [update_recursive].
  destruct (tl =? tr); [apply refines_refl|].
  apply refines_bind; [apply refines_refl|]. intros tm.
  apply refines_bind; [|intros ?; apply refines_refl].
  destruct (pos <=? tm);
    repeat (apply refines_bind; [apply refines_refl | intros ?]);
    apply IH; lia.
Qed.

(** ** The interface on the tree of an array *)

Lemma tree_of_n_int arr st : tree_of arr st -> is_int (n st - 1).
Proof.
  intros [_ H1 _ H2 _ _]. unfold is_int, INT_MIN. lia.
Qed.

Lemma query_tree_of fuel arr st l r :
  tree_of arr st -> n st <= Z.of_nat fuel ->
  r < l \/ 0 <= l <= r /\ r <= n st - 1 ->
  query fuel l r st = Ok (range_fold arr l r, st).
Proof.
  intros Ht Hfuel Hlr. unfold query, int_sub.
  rewrite (int_of_Ok _ (tree_of_n_int _ _ Ht)). simpl.
  destruct Ht as [Hn H1 Hsz Hmax Harr Hc].
  apply query_recursive_spec; try assumption; lia.
Qed.

Lemma update_tree_of fuel arr st pos x :
  tree_of arr st -> n st <= Z.of_nat fuel ->
  0 <= pos <= n st - 1 -> is_T x ->
  exists st',
    update fuel pos x st = Ok (tt, st') /\ tree_of (array_set arr pos x) st'.
Proof.
  intros Ht Hfuel Hpos Hx. unfold update, int_sub.
  rewrite (int_of_Ok _ (tree_of_n_int _ _ Ht)). simpl.
  destruct Ht as [Hn H1 Hsz Hmax Harr Hc].
  destruct (update_recursive_spec fuel arr 1 0 (n st - 1) pos x st Hc)
    as (buf & E & Hlen & Hc' & _); try lia.
  exists (mkSegTree (n st) buf). split; [exact E|].
  split; cbn [n t].
  - unfold array_set. rewrite length_insert. exact Hn.
  - exact H1.
  - rewrite Hlen. exact Hsz.
  - exact Hmax.
  - unfold array_set. apply Forall_insert; assumption.
  - exact Hc'.
Qed.

Lemma update_fuel_mono fuel fuel' pos x :
  (fuel <= fuel')%nat -> refines (update fuel pos x) (update fuel' pos x).
Proof.
  intros Hle st r. unfold update.
  destruct (int_sub (n st) 1) as [hi| | | |]; simpl; try discriminate.
  apply update_recursive_fuel_mono, Hle.
Qed.

Lemma represents_tree_of arr st : represents arr st -> tree_of arr st.
Proof.
  intros H. induction H as [fuel a st Ha HN E | fuel arr st pos x st' H IH Hpos Hx E].
  - eapply SegTree_ctor_tree_of; eassumption.
  - set (fuel' := Nat.max fuel (Z.to_nat (n st))).
    destruct (update_tree_of fuel' arr st pos x IH ltac:(lia) Hpos Hx)
      as (st'' & E' & Ht).
    rewrite (update_fuel_mono fuel fuel' pos x ltac:(lia) _ _ E) in E'.
    injection E' as ->. exact Ht.
Qed.

Lemma range_whole arr : range arr 0 (Z.of_nat (length arr) - 1) = arr.
Proof.
  unfold range. simpl. rewrite drop_0. apply take_ge. lia.
Qed.

(** The ranges that [build], [query_recursive] and [update_recursive]
    split are the ranges of the nodes, and they lie inside [0, N-1]. *)
Lemma node_range N v tl tr :
  1 <= N -> node N v tl tr -> 1 <= v /\ 0 <= tl <= tr /\ tr <= N - 1.
Proof.
  intros HN H. induction H as [|v tl tr H IH Hne|v tl tr H IH Hne].
  - lia.
  - rewrite Z.quot_div_nonneg by lia. lia.
  - rewrite Z.quot_div_nonneg by lia. lia.
Qed.

Lemma node_covers arr st v tl tr :
  tree_of arr st -> node (n st) v tl tr ->
  0 <= tl /\ tr <= n st - 1 /\ covers arr (t st) v tl tr.
Proof.
  intros Ht H. induction H as [|v tl tr H IH Hne|v tl tr H IH Hne].
  - destruct Ht. split; [lia|]. split; [lia|assumption].
  - destruct IH as (Htl & Htr & Hc).
    inversion Hc as [v' tl' x Hv Ha Hb | v' tl' tr' x y Hv Hlt Hcl Hcr Hx Hy Hm];
      subst; [contradiction|].
    rewrite Z.quot_div_nonneg by lia.
    split; [lia|]. split; [lia|exact Hcl].
  - destruct IH as (Htl & Htr & Hc).
    inversion Hc as [v' tl' x Hv Ha Hb | v' tl' tr' x y Hv Hlt Hcl Hcr Hx Hy Hm];
      subst; [contradiction|].
    rewrite Z.quot_div_nonneg by lia.
    split; [lia|]. split; [lia|exact Hcr].
Qed.

Lemma tree_of_node_invariant arr st : tree_of arr st -> node_invariant arr st.
Proof.
  intros Ht v tl tr Hnode.
  destruct (node_covers arr st v tl tr Ht Hnode) as (Htl & _ & Hc).
  destruct Ht. apply covers_fold; assumption.
Qed.

Lemma tree_of_update_n arr arr' st st' :
  tree_of arr st -> tree_of arr' st' -> length arr' = length arr -> n st' = n st.
Proof. intros [Hn _ _ _ _ _] [Hn' _ _ _ _ _] E. lia. Qed.

Lemma array_set_length arr pos x : length (array_set arr pos x) = length arr.
Proof. apply length_insert. Qed.

Lemma array_set_range_fold_eq arr pos x :
  0 <= pos < Z.of_nat (length arr) -> is_T x ->
  range_fold (array_set arr pos x) pos pos = x.
Proof.
  intros Hpos Hx. unfold range_fold.
  rewrite (range_single _ pos x).
  - apply fold_merge_single, Hx.
  - apply vec_at_insert_eq. exact Hpos.
Qed.

Lemma array_set_range_fold_ne arr pos x i :
  0 <= pos -> 0 <= i -> i <> pos ->
  range_fold (array_set arr pos x) i i = range_fold arr i i.
Proof.
  intros Hpos Hi Hne. unfold range_fold, range, array_set.
  replace (Z.to_nat (i + 1 - i)) with 1%nat by lia.
  f_equal. apply list_eq. intros [|k].
  - rewrite !lookup_take_lt, !lookup_drop by lia.
    apply list_lookup_insert_ne. lia.
  - rewrite !lookup_take_ge by lia. reflexivity.
Qed.

(** ** The properties of the specification *)

Ltac machine_range :=
  unfold is_int, is_T, INT_MIN, INT_MAX, LLONG_MIN, LLONG_MAX; lia.

Ltac machine_list :=
  repeat first [apply Forall_nil_2 | apply Forall_cons_2; [machine_range|]].

(** C1: on a tree that was constructed from an array of length N >= 1 and
    then updated at valid positions any number of times, [query l r] with
    0 <= l <= r <= N-1 returns the left-to-right fold of [merge] over the
    elements l..r of the current conceptual array; in particular
    [query 0 (N-1)] returns the fold over the entire array, as it does
    immediately after construction. *)
Theorem query_returns_fold fuel arr st :
  represents arr st ->
  n st <= Z.of_nat fuel ->
  n st = Z.of_nat (length arr) /\
  (forall l r, 0 <= l <= r -> r <= n st - 1 ->
     query fuel l r st = Ok (range_fold arr l r, st)) /\
  query fuel 0 (n st - 1) st = Ok (fold_merge arr, st).
Proof.
  intros Hrep Hfuel. apply represents_tree_of in Hrep as Ht.
  pose proof (tree_n _ _ Ht) as Hn. pose proof (tree_nonempty _ _ Ht) as H1.
  split; [exact Hn|]. split.
  - intros l r Hl Hr. apply query_tree_of; auto.
  - rewrite (query_tree_of fuel arr st 0 (n st - 1) Ht Hfuel) by lia.
    unfold range_fold. rewrite Hn, range_whole. reflexivity.
Qed.

Lemma query_returns_fold_witness :
  SegTree_ctor 5 sample = Ok sample_tree /\
  query 5 1 3 sample_tree = Ok (9, sample_tree) /\
  query 5 0 4 sample_tree = Ok (15, sample_tree).
Proof.
  split; [reflexivity|].
  assert (represents sample sample_tree) as Hrep.
  { apply (represents_ctor 5); [unfold sample; machine_list | simpl; lia | reflexivity]. }
  pose proof (query_returns_fold 5 sample sample_tree Hrep ltac:(simpl; lia))
    as (_ & Hq & Hall).
  split; [apply (Hq 1 3); simpl; lia | exact Hall].
Defined.

(** C2: in every tree that the interface produces, the aggregate stored
    at each node covering [tl, tr] is [merge] folded left to right over the
    elements tl..tr of the conceptual array; this holds after construction,
    and every [update pos x] with 0 <= pos <= N-1 returns and establishes
    it again for the updated array. *)
Theorem node_aggregates arr st :
  represents arr st ->
  node_invariant arr st /\
  (forall fuel pos x,
     0 <= pos <= n st - 1 -> is_T x -> n st <= Z.of_nat fuel ->
     exists st',
       update fuel pos x st = Ok (tt, st') /\
       node_invariant (array_set arr pos x) st').
Proof.
  intros Hrep. apply represents_tree_of in Hrep as Ht. split.
  - apply tree_of_node_invariant, Ht.
  - intros fuel pos x Hpos Hx Hfuel.
    destruct (update_tree_of fuel arr st pos x Ht Hfuel Hpos Hx) as (st' & E & Ht').
    exists st'. split; [exact E|]. apply tree_of_node_invariant, Ht'.
Qed.

Lemma node_aggregates_witness :
  vec_at (t sample_tree) 3 = Ok (range_fold sample 3 4) /\
  exists st',
    update 5 2 10 sample_tree = Ok (tt, st') /\
    node_invariant (array_set sample 2 10) st'.
Proof.
  assert (represents sample sample_tree) as Hrep.
  { apply (represents_ctor 5); [unfold sample; machine_list | simpl; lia | reflexivity]. }
  pose proof (node_aggregates sample sample_tree Hrep) as [Hinv Hupd].
  split.
  - apply Hinv. apply (node_right 5 1 0 4); [apply (node_root 5) | lia].
  - apply (Hupd 5%nat 2 10); [simpl; lia | machine_range | simpl; lia].
Defined.

(** C3: on a tree of size N >= 1, for every position 0 <= pos <= N-1 and
    every value v, [update pos v] returns and [query pos pos] then
    returns v. *)
Theorem update_then_query fuel arr st pos v :
  represents arr st ->
  0 <= pos <= n st - 1 -> is_T v ->
  n st <= Z.of_nat fuel ->
  exists st',
    update fuel pos v st = Ok (tt, st') /\
    query fuel pos pos st' = Ok (v, st').
Proof.
  intros Hrep Hpos Hv Hfuel. apply represents_tree_of in Hrep as Ht.
  destruct (update_tree_of fuel arr st pos v Ht Hfuel Hpos Hv) as (st' & E & Ht').
  exists st'. split; [exact E|].
  pose proof (tree_of_update_n _ _ _ _ Ht Ht' (array_set_length arr pos v)) as Hn.
  rewrite (query_tree_of fuel _ st' pos pos Ht') by lia.
  rewrite array_set_range_fold_eq; [reflexivity | | exact Hv].
  pose proof (tree_n _ _ Ht). lia.
Qed.

Lemma update_then_query_witness :
  exists st',
    update 5 2 10 sample_tree = Ok (tt, st') /\
    query 5 2 2 st' = Ok (10, st').
Proof.
  apply (update_then_query 5 sample sample_tree 2 10).
  - apply (represents_ctor 5); [unfold sample; machine_list | simpl; lia | reflexivity].
  - simpl; lia.
  - machine_range.
  - simpl; lia.
Defined.

(** C4: [update pos v] changes only position [pos] of the conceptual
    array. For valid pos1 <> pos2, after [update pos1 v1] and then
    [update pos2 v2], [query pos1 pos1] returns v1, [query pos2 pos2]
    returns v2, and at every other position i the query returns the value
    it returned before the two updates. *)
Theorem updates_are_independent fuel arr st pos1 v1 pos2 v2 :
  represents arr st ->
  0 <= pos1 <= n st - 1 -> 0 <= pos2 <= n st - 1 -> pos1 <> pos2 ->
  is_T v1 -> is_T v2 ->
  n st <= Z.of_nat fuel ->
  exists st1 st2,
    update fuel pos1 v1 st = Ok (tt, st1) /\
    update fuel pos2 v2 st1 = Ok (tt, st2) /\
    query fuel pos1 pos1 st2 = Ok (v1, st2) /\
    query fuel pos2 pos2 st2 = Ok (v2, st2) /\
    (forall i, 0 <= i <= n st - 1 -> i <> pos1 ->
       exists x,
         query fuel i i st = Ok (x, st) /\
         query fuel i i st1 = Ok (x, st1)) /\
    (forall i, 0 <= i <= n st - 1 -> i <> pos1 -> i <> pos2 ->
       exists x,
         query fuel i i st = Ok (x, st) /\
         query fuel i i st2 = Ok (x, st2)).
Proof.
  intros Hrep Hp1 Hp2 Hne Hv1 Hv2 Hfuel. apply represents_tree_of in Hrep as Ht.
  destruct (update_tree_of fuel arr st pos1 v1 Ht Hfuel Hp1 Hv1) as (st1 & E1 & Ht1).
  pose proof (tree_of_update_n _ _ _ _ Ht Ht1 (array_set_length arr pos1 v1)) as Hn1.
  destruct (update_tree_of fuel _ st1 pos2 v2 Ht1 ltac:(lia) ltac:(lia) Hv2)
    as (st2 & E2 & Ht2).
  pose proof (tree_of_update_n _ _ _ _ Ht1 Ht2 (array_set_length _ pos2 v2)) as Hn2.
  pose proof (tree_n _ _ Ht) as Hn.
  exists st1, st2. split; [exact E1|]. split; [exact E2|].
  split; [|split; [|split]].
  - rewrite (query_tree_of fuel _ st2 pos1 pos1 Ht2) by lia.
    rewrite array_set_range_fold_ne by lia.
    rewrite array_set_range_fold_eq; [reflexivity | lia | exact Hv1].
  - rewrite (query_tree_of fuel _ st2 pos2 pos2 Ht2) by lia.
    rewrite array_set_range_fold_eq; [reflexivity | | exact Hv2].
    rewrite array_set_length. lia.
  - intros i Hi Hi1. exists (range_fold arr i i). split.
    + apply query_tree_of; auto; lia.
    + rewrite (query_tree_of fuel _ st1 i i Ht1) by lia.
      rewrite array_set_range_fold_ne by lia. reflexivity.
  - intros i Hi Hi1 Hi2. exists (range_fold arr i i). split.
    + apply query_tree_of; auto; lia.
    + rewrite (query_tree_of fuel _ st2 i i Ht2) by lia.
      rewrite !array_set_range_fold_ne by lia. reflexivity.
Qed.

Lemma updates_are_independent_witness :
  exists st1 st2,
    update 5 0 100 sample_tree = Ok (tt, st1) /\
    update 5 2 10 st1 = Ok (tt, st2) /\
    query 5 0 0 st2 = Ok (100, st2) /\
    query 5 2 2 st2 = Ok (10, st2) /\
    (exists x, query 5 4 4 sample_tree = Ok (x, sample_tree) /\
               query 5 4 4 st2 = Ok (x, st2)).
Proof.
  destruct (updates_are_independent 5 sample sample_tree 0 100 2 10)
    as (st1 & st2 & E1 & E2 & Q1 & Q2 & _ & Hother).
  - apply (represents_ctor 5); [unfold sample; machine_list | simpl; lia | reflexivity].
  - simpl; lia.
  - simpl; lia.
  - lia.
  - machine_range.
  - machine_range.
  - simpl; lia.
  - exists st1, st2. repeat (split; [assumption|]).
    apply (Hother 4); [simpl; lia | lia | lia].
Defined.

(** C5: on a tree of size N >= 1, [query l r] with l > r returns the
    identity element, for all l and r. *)
Theorem query_empty_range fuel st l r :
  1 <= n st <= INT_MAX ->
  l > r ->
  query (S fuel) l r st = Ok (IDENTITY, st).
Proof.
  intros Hn Hlr. unfold query, int_sub.
  rewrite int_of_Ok by (unfold is_int, INT_MIN; lia). simpl.
  destruct (Z.gtb_spec l r) as [_|]; [reflexivity | lia].
Qed.

Lemma query_empty_range_witness :
  query 1 3 1 sample_tree = Ok (IDENTITY, sample_tree).
Proof.
  apply (query_empty_range 0 sample_tree 3 1).
  - unfold INT_MAX. simpl. lia.
  - lia.
Defined.

(** C6 does not hold of the code: the constructor does not reject an
    empty array and does not make an empty tree. With N = 0 the root range
    is [0, -1]; [build] takes it for an inner node, splits it at 0 and
    descends into the leaf [0, 0], where [a[0]] is read outside the empty
    vector. *)
Theorem ctor_empty_out_of_bounds fuel :
  SegTree_ctor (S (S fuel)) [] = OutOfBounds.
Proof. reflexivity. Qed.

(** The ends of a range matter for the computation of the split point:
    with a negative left end, tl = -1 and tr = INT_MAX, the difference
    tr - tl is not an [int]. No recursion step has such a range, see
    [visited_ends] below. *)
Remark split_tm_negative_left_end :
  is_int (-1) /\ is_int INT_MAX /\ -1 <= INT_MAX /\
  INT_MAX - -1 > INT_MAX /\
  split_tm (-1) INT_MAX = IntOverflow.
Proof.
  unfold is_int, INT_MIN, INT_MAX.
  repeat (split; [lia|]). reflexivity.
Qed.

(** For representable 0 <= tl <= tr the split point is
    tm = tl + (tr - tl) / 2 and its computation does not overflow: the
    intermediate values tr - tl and (tr - tl) / 2 and tm itself lie between
    0 and tr. The split has tl <= tm <= tr; a range of odd length has one
    more element in the left half [tl, tm] than in the right half
    [tm+1, tr], and a range of even length has halves of equal length. *)
Lemma split_tm_in_range tl tr :
  0 <= tl <= tr -> tr <= INT_MAX ->
  split_tm tl tr = Ok (tl + (tr - tl) / 2) /\
  int_sub tr tl = Ok (tr - tl) /\ 0 <= tr - tl <= tr /\
  int_div (tr - tl) 2 = Ok ((tr - tl) / 2) /\ 0 <= (tr - tl) / 2 <= tr /\
  tl <= tl + (tr - tl) / 2 <= tr /\
  (Z.odd (tr - tl + 1) = true ->
     (tl + (tr - tl) / 2) - tl + 1 = (tr - (tl + (tr - tl) / 2 + 1) + 1) + 1) /\
  (Z.even (tr - tl + 1) = true ->
     (tl + (tr - tl) / 2) - tl + 1 = tr - (tl + (tr - tl) / 2 + 1) + 1).
Proof.
  intros H Hmax.
  assert (INT_MIN <= 0) by (unfold INT_MIN; lia).
  split; [apply split_tm_Ok; assumption|].
  split; [apply int_of_Ok; unfold is_int; lia|].
  split; [lia|].
  split.
  { unfold int_div. rewrite Z.quot_div_nonneg by lia.
    apply int_of_Ok. unfold is_int; lia. }
  split; [lia|]. split; [lia|]. split.
  - intros Hodd. rewrite Z.odd_spec in Hodd. destruct Hodd as [k Hk]. lia.
  - intros Heven. rewrite Z.even_spec in Heven. destruct Heven as [k Hk]. lia.
Qed.

(** In a tree of size N the ranges that are split are node ranges, so the
    split point of every recursion step is computed without overflow. *)
Corollary node_split_Ok N v tl tr :
  1 <= N <= INT_MAX -> node N v tl tr ->
  split_tm tl tr = Ok (tl + (tr - tl) / 2).
Proof.
  intros HN Hnode.
  destruct (node_range N v tl tr ltac:(lia) Hnode) as (_ & Hr & Hmax).
  apply split_tm_Ok; lia.
Qed.

(** The left end of the range of a recursion step is never negative, and
    the right end never below -1: the recursion starts at [0..n-1] with
    n >= 0, and the split point of a range with these ends is not
    negative, whether the range is empty or not. *)
Lemma visited_ends hi tl tr :
  -1 <= hi -> visited hi tl tr -> 0 <= tl /\ -1 <= tr.
Proof.
  intros Hhi H. induction H as [|tl tr _ IH|tl tr _ IH]; lia.
Qed.

(** A node range is the range of a recursion step. *)
Lemma node_visited N v tl tr : node N v tl tr -> visited (N - 1) tl tr.
Proof.
  intros H. induction H as [|v tl tr _ IH _|v tl tr _ IH _].
  - apply visited_root.
  - apply visited_left, IH.
  - apply visited_right, IH.
Qed.

(** C7: at every recursion step of [build], [query_recursive] and
    [update_recursive] the split point is tm = tl + (tr - tl) / 2 and its
    computation does not overflow. The range [tl..tr] of a step of a tree
    over n >= 0 elements has 0 <= tl; for every such range with
    representable tl <= tr the intermediate values tr - tl and
    (tr - tl) / 2 and tm itself are [int]s between 0 and tr, the split
    has tl <= tm <= tr, and a range of odd length has one more element in
    the left half [tl, tm] than in the right half [tm+1, tr]. *)
Theorem split_at_every_step N tl tr :
  0 <= N ->
  visited (N - 1) tl tr ->
  tl <= tr -> tr <= INT_MAX ->
  split_tm tl tr = Ok (tl + (tr - tl) / 2) /\
  int_sub tr tl = Ok (tr - tl) /\ 0 <= tr - tl <= tr /\
  int_div (tr - tl) 2 = Ok ((tr - tl) / 2) /\ 0 <= (tr - tl) / 2 <= tr /\
  int_add tl ((tr - tl) / 2) = Ok (tl + (tr - tl) / 2) /\
  tl <= tl + (tr - tl) / 2 <= tr /\
  (Z.odd (tr - tl + 1) = true ->
     (tl + (tr - tl) / 2) - tl + 1 = (tr - (tl + (tr - tl) / 2 + 1) + 1) + 1).
Proof.
  intros HN Hv Hle Hmax.
  destruct (visited_ends (N - 1) tl tr ltac:(lia) Hv) as [Htl _].
  destruct (split_tm_in_range tl tr ltac:(lia) Hmax)
    as (Hsplit & Hsub & Hd & Hdiv & Hh & Htm & Hodd & _).
  repeat (split; [assumption|]).
  split; [|split; assumption].
  apply int_of_Ok. unfold is_int, INT_MIN. lia.
Qed.

Lemma split_at_every_step_witness :
  visited 4 3 4 /\ split_tm 3 4 = Ok 3 /\
  visited 0 1 0 /\ visited 0 1 1 /\ split_tm 1 1 = Ok 1.
Proof.
  assert (visited 4 3 4) as Hv by exact (visited_right 4 0 4 (visited_root 4)).
  assert (visited 0 1 0) as Hw by exact (visited_right 0 0 0 (visited_root 0)).
  assert (visited 0 1 1) as Hx by exact (visited_left 0 1 0 Hw).
  split; [exact Hv|].
  split.
  { destruct (split_at_every_step 5 3 4) as [H _];
      [lia | exact Hv | lia | unfold INT_MAX; lia | exact H]. }
  split; [exact Hw|]. split; [exact Hx|].
  destruct (split_at_every_step 1 1 1) as [H _];
    [lia | exact Hx | lia | unfold INT_MAX; lia | exact H].
Defined.

(** C8, as stated, fails: for an array of N = 2^29 elements the size
    4 * N of the buffer is not an [int], and the constructor does not
    return a tree. *)
Lemma buffer_counterexample :
  ~ (forall a : list Z,
       Forall is_int a -> 1 <= Z.of_nat (length a) ->
       exists fuel st, SegTree_ctor fuel a = Ok st).
Proof.
  intros H.
  destruct (H (replicate (Z.to_nat (2 ^ 29)) 0)) as (fuel & st & E).
  - apply Forall_replicate. machine_range.
  - rewrite length_replicate. lia.
  - revert E. unfold SegTree_ctor. rewrite length_replicate.
    rewrite Z2Nat.id by lia.
    change (int_of (2 ^ 29)) with (@Ok Z (2 ^ 29)). cbn [rbind].
    change (int_mul 4 (2 ^ 29)) with (@IntOverflow Z). cbn [rbind].
    discriminate.
Qed.

(** C8 (amended): for every N >= 1 for which 4 * N is an [int], a buffer
    of 4 * N slots suffices. The constructor returns a tree with that
    buffer; on every tree that the interface produces, each [update] at a
    position 0 <= pos <= N-1 and each [query] of a range within [0, N-1]
    returns, given a recursion budget of N. An access outside the buffer
    stops a program with [OutOfBounds], so every slot that these calls
    read or write lies inside the buffer. *)
Theorem buffer_suffices fuel a :
  Forall is_int a ->
  1 <= Z.of_nat (length a) -> 4 * Z.of_nat (length a) <= INT_MAX ->
  Z.of_nat (length a) <= Z.of_nat fuel ->
  (exists st0,
     SegTree_ctor fuel a = Ok st0 /\
     n st0 = Z.of_nat (length a) /\
     Z.of_nat (length (t st0)) = 4 * Z.of_nat (length a)) /\
  (forall arr st,
     represents arr st -> n st = Z.of_nat (length a) ->
     Z.of_nat (length (t st)) = 4 * Z.of_nat (length a) /\
     (forall pos x, 0 <= pos <= Z.of_nat (length a) - 1 -> is_T x ->
        exists st', update fuel pos x st = Ok (tt, st') /\
                    n st' = n st /\ length (t st') = length (t st)) /\
     (forall l r, 0 <= l <= r -> r <= Z.of_nat (length a) - 1 ->
        exists y, query fuel l r st = Ok (y, st))).
Proof.
  intros Ha HN Hmax Hfuel. split.
  - destruct (SegTree_ctor_spec fuel a Ha HN Hmax Hfuel) as (st0 & E & Ht).
    exists st0. split; [exact E|]. destruct Ht as [Hn _ Hsz _ _ _].
    split; [exact Hn | lia].
  - intros arr st Hrep Hn. apply represents_tree_of in Hrep as Ht.
    pose proof (tree_size _ _ Ht) as Hsz.
    split; [lia|]. split.
    + intros pos x Hpos Hx.
      destruct (update_tree_of fuel arr st pos x Ht ltac:(lia) ltac:(lia) Hx)
        as (st' & E & Ht').
      exists st'. split; [exact E|].
      pose proof (tree_of_update_n _ _ _ _ Ht Ht' (array_set_length arr pos x)) as Hn'.
      split; [exact Hn'|].
      pose proof (tree_size _ _ Ht') as Hsz'. lia.
    + intros l r Hl Hr. exists (range_fold arr l r).
      apply query_tree_of; [exact Ht | lia | right; lia].
Qed.

Lemma buffer_suffices_witness :
  exists st0,
    SegTree_ctor 5 sample = Ok st0 /\
    n st0 = 5 /\ Z.of_nat (length (t st0)) = 20.
Proof.
  apply (buffer_suffices 5 sample).
  - unfold sample. machine_list.
  - simpl; lia.
  - unfold INT_MAX. simpl; lia.
  - simpl; lia.
Defined.

(** C9: [query] is read-only and deterministic. On every state and for
    all arguments, a call of [query l r] that returns leaves [n] and every
    slot of [t] as they were, and a second call with the same arguments
    returns the same result. *)
Theorem query_is_read_only fuel st l r x st' :
  query fuel l r st = Ok (x, st') ->
  n st' = n st /\ t st' = t st /\ query fuel l r st' = Ok (x, st').
Proof.
  intros H.
  assert (st' = st) as ->.
  { unfold query in H. destruct (int_sub (n st) 1); simpl in H; try discriminate.
    eapply query_recursive_state, H. }
  auto.
Qed.

Lemma query_is_read_only_witness :
  n sample_tree = 5 /\
  query 5 1 3 sample_tree = Ok (9, sample_tree).
Proof.
  destruct (query_is_read_only 5 sample_tree 1 3 9 sample_tree eq_refl)
    as (_ & _ & H).
  split; [reflexivity | exact H].
Defined.

(** ** The scenarios of the specification *)

Example scenario_sum :
  SegTree_ctor 5 [1; 2; 3; 4; 5] = Ok sample_tree /\
  query 5 1 3 sample_tree = Ok (9, sample_tree) /\
  exists st',
    update 5 2 10 sample_tree = Ok (tt, st') /\
    query 5 1 3 st' = Ok (16, st').
Proof.
  split; [reflexivity|]. split; [reflexivity|].
  eexists. split; [vm_compute; reflexivity|]. vm_compute. reflexivity.
Qed.

Example scenario_single :
  exists st st',
    SegTree_ctor 1 [7] = Ok st /\
    query 1 0 0 st = Ok (7, st) /\
    update 1 0 3 st = Ok (tt, st') /\
    query 1 0 0 st' = Ok (3, st').
Proof.
  do 2 eexists. do 3 (split; [vm_compute; reflexivity|]).
  vm_compute. reflexivity.
Qed.

(** * Further properties of the segment tree *)

(** ** What a step that returned has computed *)

Lemma split_tm_inv tl tr tm :
  split_tm tl tr = Ok tm -> tm = tl + (tr - tl) ÷ 2.
Proof.
  unfold split_tm. intros H.
  destruct (int_sub tr tl) as [d| | | |] eqn:Ed; simpl in H; try discriminate.
  apply int_sub_inv in Ed as [-> _].
  destruct (int_div (tr - tl) 2) as [h| | | |] eqn:Eh; simpl in H;
    try discriminate.
  apply int_of_Ok_inv in Eh as [-> _].
  apply int_add_inv in H as [-> _]. reflexivity.
Qed.

Lemma left_child_inv v lc : left_child v = Ok lc -> lc = v * 2.
Proof. intros H. apply int_mul_inv in H as [-> _]. reflexivity. Qed.

Lemma right_child_inv v rc : right_child v = Ok rc -> rc = v * 2 + 1.
Proof.
  unfold right_child. intros H.
  destruct (int_mul v 2) as [w| | | |] eqn:E; simpl in H; try discriminate.
  apply int_mul_inv in E as [-> _]. apply int_add_inv in H as [-> _].
  reflexivity.
Qed.

Lemma read_t_inv v st x st' :
  read_t v st = Ok (x, st') -> st' = st /\ vec_at (t st) v = Ok x.
Proof.
  unfold read_t. destruct (vec_at (t st) v) as [y| | | |]; simpl;
    try discriminate.
  intros H. injection H as -> ->. auto.
Qed.

Lemma write_t_inv v x st u st' :
  write_t v x st = Ok (u, st') ->
  0 <= v < Z.of_nat (length (t st)) /\
  st' = mkSegTree (n st) (<[Z.to_nat v := x]> (t st)).
Proof.
  unfold write_t, vec_set.
  destruct (Z.leb_spec 0 v) as [H0|H0];
    destruct (Z.ltb_spec v (Z.of_nat (length (t st)))) as [H1|H1];
    simpl; try discriminate.
  intros E. injection E as _ <-. auto.
Qed.

(** ** Positions beyond the ends of the array *)

Lemma update_recursive_right_end fuel : forall v tl tr pos pos' x st,
  tl <= tr -> tr <= pos -> tr <= pos' ->
  update_recursive fuel v tl tr pos x st
  = update_recursive fuel v tl tr pos' x st.
Proof.
  induction fuel as [|fuel IH]; intros v tl tr pos pos' x st Hle Hp Hp';
    [reflexivity|].
  cbn [update_recursive]. destruct (Z.eqb_spec tl tr) as [|Hne]; [reflexivity|].
  apply bind_cong. intros tm s1 Htm.
  apply lift_Ok_inv in Htm as [Htm ->]. apply split_tm_inv in Htm.
  assert (tl <= tm < tr) as Hm by (rewrite Z.quot_div_nonneg in Htm by lia; lia).
  destruct (Z.leb_spec pos tm) as [|_]; [lia|].
  destruct (Z.leb_spec pos' tm) as [|_]; [lia|].
  apply bind_cong_l. apply bind_cong. intros rc s1 _.
  apply bind_cong. intros tm1 s2 Htm1.
  apply lift_Ok_inv in Htm1 as [Htm1 ->]. apply int_add_inv in Htm1 as [-> _].
  apply IH; lia.
Qed.

Lemma update_recursive_left_end fuel : forall v tl tr pos pos' x st,
  tl <= tr -> pos <= tl -> pos' <= tl ->
  update_recursive fuel v tl tr pos x st
  = update_recursive fuel v tl tr pos' x st.
Proof.
  induction fuel as [|fuel IH]; intros v tl tr pos pos' x st Hle Hp Hp';
    [reflexivity|].
  cbn [update_recursive]. destruct (Z.eqb_spec tl tr) as [|Hne]; [reflexivity|].
  apply bind_cong. intros tm s1 Htm.
  apply lift_Ok_inv in Htm as [Htm ->]. apply split_tm_inv in Htm.
  assert (tl <= tm < tr) as Hm by (rewrite Z.quot_div_nonneg in Htm by lia; lia).
  destruct (Z.leb_spec pos tm) as [_|]; [|lia].
  destruct (Z.leb_spec pos' tm) as [_|]; [|lia].
  apply bind_cong_l. apply bind_cong. intros lc s1 _.
  apply IH; lia.
Qed.

(** X1: [update] does not check [pos]. On a tree of size N >= 1 a
    position at or beyond the right end acts as position N-1, and a
    position at or before the left end acts as position 0: the walk from
    the root always turns to the same side and overwrites the leaf at
    that end. *)
Theorem update_beyond_the_ends fuel st pos x :
  1 <= n st ->
  (n st - 1 <= pos -> update fuel pos x st = update fuel (n st - 1) x st) /\
  (pos <= 0 -> update fuel pos x st = update fuel 0 x st).
Proof.
  intros Hn. unfold update. split; intros Hpos.
  - destruct (int_sub (n st) 1) as [hi| | | |] eqn:E; try reflexivity.
    apply int_sub_inv in E as [-> _]. simpl.
    apply update_recursive_right_end; lia.
  - destruct (int_sub (n st) 1) as [hi| | | |] eqn:E; try reflexivity.
    apply int_sub_inv in E as [-> _]. simpl.
    apply update_recursive_left_end; lia.
Qed.

Lemma update_beyond_the_ends_witness :
  update 5 7 100 sample_tree = update 5 4 100 sample_tree /\
  update 5 (-3) 100 sample_tree = update 5 0 100 sample_tree.
Proof.
  destruct (update_beyond_the_ends 5 sample_tree 7 100 ltac:(simpl; lia))
    as [Hr _].
  destruct (update_beyond_the_ends 5 sample_tree (-3) 100 ltac:(simpl; lia))
    as [_ Hl].
  split; [apply Hr; simpl; lia | apply Hl; lia].
Defined.

(** ** Ranges that leave the array *)

(** The calls that a returning [query_recursive] makes below a node whose
    range it does not match. *)
Lemma query_recursive_calls fuel v tl tr l r st x st' :
  query_recursive (S fuel) v tl tr l r st = Ok (x, st') ->
  l <= r -> l <> tl \/ r <> tr ->
  exists xl xr,
    query_recursive fuel (v * 2) tl (tl + (tr - tl) ÷ 2)
      l (Z.min r (tl + (tr - tl) ÷ 2)) st = Ok (xl, st) /\
    query_recursive fuel (v * 2 + 1) (tl + (tr - tl) ÷ 2 + 1) tr
      (Z.max l (tl + (tr - tl) ÷ 2 + 1)) r st = Ok (xr, st).
Proof.
  intros H Hlr Hne. cbn [query_recursive] in H.
  destruct (Z.gtb_spec l r) as [|_]; [lia|].
  assert ((l =? tl) && (r =? tr) = false) as Hb.
  { destruct (Z.eqb_spec l tl); destruct (Z.eqb_spec r tr); simpl; auto; lia. }
  rewrite Hb in H.
  apply bind_Ok_inv in H as (tm & s1 & H1 & H).
  apply lift_Ok_inv in H1 as [Htm ->]. apply split_tm_inv in Htm as ->.
  apply bind_Ok_inv in H as (lc & s1 & H1 & H).
  apply lift_Ok_inv in H1 as [Hlc ->]. apply left_child_inv in Hlc as ->.
  apply bind_Ok_inv in H as (xl & s1 & Hl & H).
  pose proof (query_recursive_state _ _ _ _ _ _ _ _ _ Hl) as ->.
  apply bind_Ok_inv in H as (rc & s1 & H1 & H).
  apply lift_Ok_inv in H1 as [Hrc ->]. apply right_child_inv in Hrc as ->.
  apply bind_Ok_inv in H as (tm1 & s1 & H1 & H).
  apply lift_Ok_inv in H1 as [Htm1 ->]. apply int_add_inv in Htm1 as [-> _].
  apply bind_Ok_inv in H as (xr & s1 & Hr & H).
  pose proof (query_recursive_state _ _ _ _ _ _ _ _ _ Hr) as ->.
  exists xl, xr. auto.
Qed.

(** With the left end of the range before the array, the walk follows the
    leftmost nodes and then goes on below the leftmost leaf. *)
Lemma query_before_array fuel : forall v tr l r st x st',
  0 <= tr -> l < 0 -> l <= r ->
  query_recursive fuel v 0 tr l r st <> Ok (x, st').
Proof.
  induction fuel as [|fuel IH]; intros v tr l r st x st' Htr Hl Hlr H;
    [discriminate H|].
  destruct (query_recursive_calls _ _ _ _ _ _ _ _ _ H Hlr ltac:(lia))
    as (xl & _ & Hleft & _).
  rewrite Z.add_0_l, Z.sub_0_r in Hleft.
  apply IH in Hleft; [exact Hleft | | lia | ].
  - rewrite Z.quot_div_nonneg by lia. lia.
  - rewrite Z.quot_div_nonneg by lia. lia.
Qed.

(** Below the rightmost leaf: the ranges [c+2..c] repeat for ever. *)
Lemma query_beyond_loop fuel : forall v c l r st x st',
  c + 2 <= l -> l <= r ->
  query_recursive fuel v (c + 2) c l r st <> Ok (x, st').
Proof.
  induction fuel as [|fuel IH]; intros v c l r st x st' Hl Hlr H;
    [discriminate H|].
  destruct (query_recursive_calls _ _ _ _ _ _ _ _ _ H Hlr ltac:(lia))
    as (_ & xr & _ & Hright).
  replace (c + 2 + (c - (c + 2)) ÷ 2 + 1) with (c + 2) in Hright
    by lia.
  rewrite Z.max_l in Hright by lia.
  apply IH in Hright; [exact Hright | lia | lia].
Qed.

(** Right below the rightmost leaf, at a slot [w] whose left child is
    outside the buffer. *)
Lemma query_beyond_leaf fuel v c l r st x st' :
  c + 1 <= l -> l <= r ->
  Z.of_nat (length (t st)) <= v * 2 ->
  query_recursive fuel v (c + 1) c l r st <> Ok (x, st').
Proof.
  intros Hl Hlr Hv H. destruct fuel as [|fuel]; [discriminate H|].
  destruct (query_recursive_calls _ _ _ _ _ _ _ _ _ H Hlr ltac:(lia))
    as (xl & xr & Hleft & Hright).
  replace (c + 1 + (c - (c + 1)) ÷ 2) with (c + 1) in Hleft, Hright
    by lia.
  destruct (Z.eq_dec l (c + 1)) as [->|Hne].
  - rewrite Z.min_r in Hleft by lia.
    destruct fuel as [|fuel]; [discriminate Hleft|].
    cbn [query_recursive] in Hleft.
    destruct (Z.gtb_spec (c + 1) (c + 1)) as [|_]; [lia|].
    rewrite !Z.eqb_refl in Hleft. simpl in Hleft.
    apply read_t_inv in Hleft as [_ Hleft]. apply vec_at_bound in Hleft. lia.
  - rewrite Z.max_l in Hright by lia.
    replace (c + 1 + 1) with (c + 2) in Hright by lia.
    apply query_beyond_loop in Hright; [exact Hright | lia | lia].
Qed.

(** With the right end of the range beyond the array, the walk follows
    the rightmost nodes, whose slots grow to at least the size of the
    array, and then leaves the tree. *)
Lemma query_beyond_array fuel : forall v tl tr l r st x st',
  tl <= tr -> tr < r -> l <= r -> 0 <= v ->
  2 * (tr + 1) < (tr - tl + 2) * (v + 1) ->
  Z.of_nat (length (t st)) <= 4 * (tr + 1) ->
  query_recursive fuel v tl tr l r st <> Ok (x, st').
Proof.
  induction fuel as [|fuel IH]; intros v tl tr l r st x st' Hle Hr Hlr Hv Hinv Hlen H;
    [discriminate H|].
  destruct (query_recursive_calls _ _ _ _ _ _ _ _ _ H Hlr ltac:(lia))
    as (_ & xr & _ & Hright).
  rewrite Z.quot_div_nonneg in Hright by lia.
  destruct (Z.eq_dec tl tr) as [->|Hne].
  - replace (tr + (tr - tr) / 2 + 1) with (tr + 1) in Hright
      by lia.
    apply query_beyond_leaf in Hright; [exact Hright | lia | lia | nia].
  - apply IH in Hright; [exact Hright | lia | lia | lia | lia | | exact Hlen].
    assert (tr - tl + 2 <= 2 * (tr - (tl + (tr - tl) / 2 + 1) + 2)) by lia.
    nia.
Qed.

Lemma query_outside_not_Ok fuel arr st l r x st' :
  represents arr st ->
  l <= r -> l < 0 \/ n st - 1 < r ->
  query fuel l r st <> Ok (x, st').
Proof.
  intros Hrep Hlr Hout H. apply represents_tree_of in Hrep as Ht.
  pose proof (tree_nonempty _ _ Ht) as Hn. pose proof (tree_size _ _ Ht) as Hsz.
  unfold query in H.
  destruct (int_sub (n st) 1) as [hi| | | |] eqn:E; simpl in H; try discriminate.
  apply int_sub_inv in E as [-> _].
  destruct Hout as [Hl|Hr].
  - apply query_before_array in H; [exact H | lia | lia | lia].
  - apply query_beyond_array in H; [exact H | lia | lia | lia | lia | lia | lia].
Qed.

Lemma int_of_cases z : int_of z = Ok z \/ int_of z = IntOverflow.
Proof.
  unfold int_of. destruct ((INT_MIN <=? z) && (z <=? INT_MAX)); auto.
Qed.

Lemma vec_at_cases {A : Type} (vec : list A) i :
  (exists x, vec_at vec i = Ok x) \/ vec_at vec i = OutOfBounds.
Proof.
  unfold vec_at. destruct (0 <=? i); [|auto].
  destruct (vec !! Z.to_nat i); eauto.
Qed.

Lemma split_tm_cases tl tr :
  (exists tm, split_tm tl tr = Ok tm) \/ split_tm tl tr = IntOverflow.
Proof.
  unfold split_tm, int_sub, int_div, int_add.
  destruct (int_of_cases (tr - tl)) as [-> | ->]; cbn [rbind]; [|auto].
  destruct (int_of_cases ((tr - tl) ÷ 2)) as [-> | ->]; cbn [rbind]; [|auto].
  destruct (int_of_cases (tl + (tr - tl) ÷ 2)) as [-> | ->]; eauto.
Qed.

(** The recursion cannot go on for long. Every level doubles the slot
    index, which is an [int]: a call at slot [v] that used up a budget of
    [fuel] levels has v * 2 ^ fuel <= INT_MAX. *)
Lemma query_recursive_faults fuel : forall v tl tr l r st,
  1 <= v <= INT_MAX ->
  match query_recursive fuel v tl tr l r st with
  | OutOfFuel => v * 2 ^ Z.of_nat fuel <= INT_MAX
  | LengthError => False
  | _ => True
  end.
Proof.
  induction fuel as [|fuel IH]; intros v tl tr l r st Hv.
  { simpl. unfold out_of_fuel. lia. }
  assert (2 ^ Z.of_nat (S fuel) = 2 * 2 ^ Z.of_nat fuel) as Epow
    by (rewrite Nat2Z.inj_succ, Z.pow_succ_r by lia; reflexivity).
  assert (0 < 2 ^ Z.of_nat fuel) as Hpow by (apply Z.pow_pos_nonneg; lia).
  cbn [query_recursive].
  destruct (l >? r); [exact I|].
  destruct ((l =? tl) && (r =? tr)).
  { unfold read_t.
    destruct (vec_at_cases (t st) v) as [[x ->] | ->]; exact I. }
  unfold bind at 1, lift at 1.
  destruct (split_tm_cases tl tr) as [[tm ->] | ->]; cbn [rbind fst snd];
    [|exact I].
  unfold bind at 1, lift at 1, left_child, int_mul.
  destruct (int_of_cases (v * 2)) as [Elc | ->]; [rewrite Elc|];
    cbn [rbind fst snd]; [|exact I].
  apply int_of_Ok_inv in Elc as Hlc.
  unfold bind at 1.
  pose proof (IH (v * 2) tl tm l (Z.min r tm) st
                ltac:(unfold is_int in Hlc; lia)) as IHl.
  destruct (query_recursive fuel (v * 2) tl tm l (Z.min r tm) st)
    as [[xl s1]| | | |]; cbn [rbind fst snd]; try exact I; try exact IHl;
    [|nia].
  unfold bind at 1, lift at 1, right_child, int_mul, int_add.
  rewrite Elc. cbn [rbind].
  destruct (int_of_cases (v * 2 + 1)) as [Erc | ->]; [rewrite Erc|];
    cbn [rbind fst snd]; [|exact I].
  apply int_of_Ok_inv in Erc as Hrc.
  unfold bind at 1, lift at 1.
  destruct (int_of_cases (tm + 1)) as [-> | ->]; cbn [rbind fst snd];
    [|exact I].
  unfold bind at 1.
  pose proof (IH (v * 2 + 1) (tm + 1) tr (Z.max l (tm + 1)) r s1
                ltac:(unfold is_int in Hrc; lia)) as IHr.
  destruct (query_recursive fuel (v * 2 + 1) (tm + 1) tr (Z.max l (tm + 1)) r s1)
    as [[xr s2]| | | |]; cbn [rbind fst snd]; try exact I; try exact IHr.
  nia.
Qed.

(** X2: [query] does not check its range. On every tree that the
    interface produces, a call with l <= r and l < 0 or r > N-1 leaves
    defined behaviour within 31 levels of recursion: the run reaches a
    read of [t] outside its 4 * N slots, or an [int] operation whose
    result is not an [int] (the slot index doubles with every level). No
    such call is carried out to its end inside the buffer; what the
    compiled program does after that point (it may well return some
    value) is not determined by the source. *)
Theorem query_outside_leaves_the_buffer fuel arr st l r :
  represents arr st ->
  l <= r -> l < 0 \/ n st - 1 < r ->
  (31 <= fuel)%nat ->
  query fuel l r st = OutOfBounds \/ query fuel l r st = IntOverflow.
Proof.
  intros Hrep Hlr Hout Hfuel.
  pose proof (query_outside_not_Ok fuel arr st l r) as Hno.
  specialize (fun x st' => Hno x st' Hrep Hlr Hout).
  apply represents_tree_of in Hrep as Ht.
  pose proof (tree_nonempty _ _ Ht) as Hn. pose proof (tree_int _ _ Ht) as Hi.
  unfold query in *.
  assert (int_sub (n st) 1 = Ok (n st - 1)) as E
    by (apply int_of_Ok; unfold is_int, INT_MIN; lia).
  rewrite E in *. cbn [rbind] in *.
  pose proof (query_recursive_faults fuel 1 0 (n st - 1) l r st
                ltac:(unfold INT_MAX; lia)) as H.
  destruct (query_recursive fuel 1 0 (n st - 1) l r st) as [[x st']| | | |];
    auto.
  - exfalso. exact (Hno x st' eq_refl).
  - contradiction.
  - exfalso.
    assert (2 ^ 31 <= 2 ^ Z.of_nat fuel) by (apply Z.pow_le_mono_r; lia).
    unfold INT_MAX in H. lia.
Qed.

Lemma query_outside_leaves_the_buffer_witness :
  query 31 0 5 sample_tree = OutOfBounds /\
  query 31 (-1) 2 sample_tree = IntOverflow.
Proof.
  assert (represents sample sample_tree) as Hrep.
  { apply (represents_ctor 5); [unfold sample; machine_list | simpl; lia | reflexivity]. }
  split.
  - destruct (query_outside_leaves_the_buffer 31 sample sample_tree 0 5 Hrep)
      as [H|H]; [lia | right; simpl; lia | lia | exact H | ].
    exfalso. revert H. vm_compute. discriminate.
  - destruct (query_outside_leaves_the_buffer 31 sample sample_tree (-1) 2 Hrep)
      as [H|H]; [lia | left; lia | lia | | exact H].
    exfalso. revert H. vm_compute. discriminate.
Defined.

(** ** The slots that are written *)

Lemma below_trans v tl tr v' tl' tr' w a b :
  below v tl tr v' tl' tr' -> below v' tl' tr' w a b -> below v tl tr w a b.
Proof.
  intros H1 H2. induction H2; [exact H1 | |]; constructor; assumption.
Qed.

Lemma below_root_node N w a b : below 1 0 (N - 1) w a b -> node N w a b.
Proof. intros H. induction H; constructor; assumption. Qed.

Lemma build_writes fuel : forall a v tl tr st u st',
  build fuel a v tl tr st = Ok (u, st') ->
  n st' = n st /\
  forall w, vec_at (t st') w = vec_at (t st) w \/
            exists a b, below v tl tr w a b.
Proof.
  induction fuel as [|fuel IH]; intros a v tl tr st u st' H; [discriminate H|].
  cbn [build] in H. destruct (Z.eqb_spec tl tr) as [->|Hne].
  - apply bind_Ok_inv in H as (x & s1 & H1 & H).
    apply lift_Ok_inv in H1 as [_ ->].
    apply write_t_inv in H as [Hv ->]. split; [reflexivity|].
    intros w. cbn [t]. destruct (Z.eq_dec w v) as [->|Hw].
    + right. exists tr, tr. constructor.
    + left. apply vec_at_insert_ne; [lia | auto].
  - apply bind_Ok_inv in H as (tm & s1 & H1 & H).
    apply lift_Ok_inv in H1 as [Htm ->]. apply split_tm_inv in Htm as ->.
    apply bind_Ok_inv in H as (lc & s1 & H1 & H).
    apply lift_Ok_inv in H1 as [Hlc ->]. apply left_child_inv in Hlc as ->.
    apply bind_Ok_inv in H as (u1 & s1 & Hl & H).
    apply IH in Hl as [Hn1 Hw1].
    apply bind_Ok_inv in H as (rc & s2 & H1 & H).
    apply lift_Ok_inv in H1 as [Hrc ->]. apply right_child_inv in Hrc as ->.
    apply bind_Ok_inv in H as (tm1 & s2 & H1 & H).
    apply lift_Ok_inv in H1 as [Htm1 ->]. apply int_add_inv in Htm1 as [-> _].
    apply bind_Ok_inv in H as (u2 & s2 & Hr & H).
    apply IH in Hr as [Hn2 Hw2].
    apply bind_Ok_inv in H as (x & s3 & H1 & H). apply read_t_inv in H1 as [-> _].
    apply bind_Ok_inv in H as (y & s3 & H1 & H). apply read_t_inv in H1 as [-> _].
    apply write_t_inv in H as [Hv ->]. cbn [n t].
    split; [congruence|]. intros w.
    destruct (Z.eq_dec w v) as [->|Hw]; [right; exists tl, tr; constructor|].
    rewrite vec_at_insert_ne by (auto; lia).
    destruct (Hw2 w) as [E2|(a' & b' & Hb)].
    + destruct (Hw1 w) as [E1|(a' & b' & Hb)]; [left; congruence|].
      right. exists a', b'. eapply below_trans; [|exact Hb].
      apply below_left; [constructor | exact Hne].
    + right. exists a', b'. eapply below_trans; [|exact Hb].
      apply below_right; [constructor | exact Hne].
Qed.

Lemma update_recursive_writes fuel : forall v tl tr pos x st u st',
  update_recursive fuel v tl tr pos x st = Ok (u, st') ->
  n st' = n st /\
  forall w, vec_at (t st') w = vec_at (t st) w \/
            exists a b, below v tl tr w a b.
Proof.
  induction fuel as [|fuel IH]; intros v tl tr pos x st u st' H; [discriminate H|].
  cbn [update_recursive] in H. destruct (Z.eqb_spec tl tr) as [->|Hne].
  - apply write_t_inv in H as [Hv ->]. split; [reflexivity|].
    intros w. cbn [t]. destruct (Z.eq_dec w v) as [->|Hw].
    + right. exists tr, tr. constructor.
    + left. apply vec_at_insert_ne; [lia | auto].
  - apply bind_Ok_inv in H as (tm & s1 & H1 & H).
    apply lift_Ok_inv in H1 as [Htm ->]. apply split_tm_inv in Htm as ->.
    apply bind_Ok_inv in H as (u1 & s1 & Hrec & H).
    assert (n s1 = n st /\
            forall w, vec_at (t s1) w = vec_at (t st) w \/
                      exists a b, below v tl tr w a b) as [Hn1 Hw1].
    { destruct (pos <=? tl + (tr - tl) ÷ 2).
      - apply bind_Ok_inv in Hrec as (lc & s0 & H1 & Hrec).
        apply lift_Ok_inv in H1 as [Hlc ->]. apply left_child_inv in Hlc as ->.
        apply IH in Hrec as [Hn1 Hw1]. split; [exact Hn1|]. intros w.
        destruct (Hw1 w) as [E|(a' & b' & Hb)]; [left; exact E|].
        right. exists a', b'. eapply below_trans; [|exact Hb].
        apply below_left; [constructor | exact Hne].
      - apply bind_Ok_inv in Hrec as (rc & s0 & H1 & Hrec).
        apply lift_Ok_inv in H1 as [Hrc ->]. apply right_child_inv in Hrc as ->.
        apply bind_Ok_inv in Hrec as (tm1 & s0 & H1 & Hrec).
        apply lift_Ok_inv in H1 as [Htm1 ->]. apply int_add_inv in Htm1 as [-> _].
        apply IH in Hrec as [Hn1 Hw1]. split; [exact Hn1|]. intros w.
        destruct (Hw1 w) as [E|(a' & b' & Hb)]; [left; exact E|].
        right. exists a', b'. eapply below_trans; [|exact Hb].
        apply below_right; [constructor | exact Hne]. }
    apply bind_Ok_inv in H as (lc & s2 & H1 & H). apply lift_Ok_inv in H1 as [_ ->].
    apply bind_Ok_inv in H as (rc & s2 & H1 & H). apply lift_Ok_inv in H1 as [_ ->].
    apply bind_Ok_inv in H as (x1 & s3 & H1 & H). apply read_t_inv in H1 as [-> _].
    apply bind_Ok_inv in H as (y1 & s3 & H1 & H). apply read_t_inv in H1 as [-> _].
    apply write_t_inv in H as [Hv ->]. cbn [n t].
    split; [exact Hn1|]. intros w.
    destruct (Z.eq_dec w v) as [->|Hw]; [right; exists tl, tr; constructor|].
    rewrite vec_at_insert_ne by (auto; lia). apply Hw1.
Qed.

Lemma SegTree_ctor_clean fuel a st : SegTree_ctor fuel a = Ok st -> clean st.
Proof.
  unfold SegTree_ctor. intros H.
  destruct (int_of (Z.of_nat (length a))) as [n0| | | |]; simpl in H;
    try discriminate.
  destruct (int_mul 4 n0) as [k| | | |]; simpl in H; try discriminate.
  unfold vec_fill in H. destruct (0 <=? k); simpl in H; try discriminate.
  destruct (int_sub n0 1) as [hi| | | |] eqn:E; simpl in H; try discriminate.
  apply int_sub_inv in E as [-> _].
  destruct (build fuel a 1 0 (n0 - 1) _) as [[u s1]| | | |] eqn:Hb;
    simpl in H; try discriminate.
  injection H as ->. apply build_writes in Hb as [Hn Hw]. cbn [n t] in Hn, Hw.
  intros w x Hx. destruct (Hw w) as [E|(a' & b' & Hb)].
  - right. rewrite E in Hx. apply vec_at_Ok in Hx as [_ Hx].
    apply lookup_replicate in Hx as [-> _]. reflexivity.
  - left. exists a', b'. rewrite Hn. apply below_root_node, Hb.
Qed.

Lemma update_clean fuel pos x st u st' :
  update fuel pos x st = Ok (u, st') -> clean st -> clean st'.
Proof.
  unfold update. intros H Hclean.
  destruct (int_sub (n st) 1) as [hi| | | |] eqn:E; simpl in H; try discriminate.
  apply int_sub_inv in E as [-> _].
  apply update_recursive_writes in H as [Hn Hw].
  intros w y Hy. rewrite Hn. destruct (Hw w) as [E|(a' & b' & Hb)].
  - rewrite E in Hy. apply Hclean, Hy.
  - left. exists a', b'. apply below_root_node, Hb.
Qed.

Lemma represents_clean arr st : represents arr st -> clean st.
Proof.
  intros H. induction H as [fuel a st Ha HN E | fuel arr st pos x st' H IH Hpos Hx E].
  - eapply SegTree_ctor_clean, E.
  - eapply update_clean; eassumption.
Qed.

(** A state is fixed by the array it is the tree of and by the slots that
    no node uses. *)
Lemma tree_state_unique arr st st' :
  tree_of arr st -> clean st -> tree_of arr st' -> clean st' -> st = st'.
Proof.
  intros Ht Hc Ht' Hc'.
  pose proof (tree_of_node_invariant _ _ Ht) as Hinv.
  pose proof (tree_of_node_invariant _ _ Ht') as Hinv'.
  assert (n st' = n st) as Hn
    by (rewrite (tree_n _ _ Ht), (tree_n _ _ Ht'); reflexivity).
  assert (length (t st') = length (t st)) as Hlen.
  { pose proof (tree_size _ _ Ht). pose proof (tree_size _ _ Ht'). lia. }
  destruct st as [n1 t1], st' as [n2 t2]. cbn [n t] in *. subst n2.
  f_equal. apply list_eq. intros i.
  destruct (t1 !! i) as [x|] eqn:E1.
  - destruct (lookup_lt_is_Some_2 t2 i) as [x' E2].
    { rewrite Hlen. eapply lookup_lt_Some, E1. }
    rewrite E2. f_equal.
    apply vec_at_of_nat in E1. apply vec_at_of_nat in E2.
    destruct (Hc _ _ E1) as [(tl & tr & Hnode)|Hx].
    + pose proof (Hinv _ _ _ Hnode) as V1. pose proof (Hinv' _ _ _ Hnode) as V2.
      cbn [n t] in V1, V2. congruence.
    + destruct (Hc' _ _ E2) as [(tl & tr & Hnode)|Hx'].
      * pose proof (Hinv _ _ _ Hnode) as V1. pose proof (Hinv' _ _ _ Hnode) as V2.
        cbn [n t] in V1, V2. congruence.
      * congruence.
  - symmetry. apply lookup_ge_None. rewrite Hlen. apply lookup_ge_None, E1.
Qed.

(** X3: only the slots of nodes are ever written. In every tree that the
    interface produces the buffer has 4 * N slots, slot 0 holds the zero
    that [resize] put there, and so does every slot that is not the slot
    of a node. *)
Theorem unused_slots_stay_zero arr st :
  represents arr st ->
  Z.of_nat (length (t st)) = 4 * n st /\
  vec_at (t st) 0 = Ok 0 /\
  (forall w x,
     vec_at (t st) w = Ok x ->
     (forall tl tr, ~ node (n st) w tl tr) -> x = 0).
Proof.
  intros Hrep. pose proof (represents_clean _ _ Hrep) as Hclean.
  apply represents_tree_of in Hrep as Ht.
  pose proof (tree_size _ _ Ht) as Hsz. pose proof (tree_nonempty _ _ Ht) as Hn.
  assert (forall w x, vec_at (t st) w = Ok x ->
            (forall tl tr, ~ node (n st) w tl tr) -> x = 0) as Hzero.
  { intros w x Hx Hnot. destruct (Hclean w x Hx) as [(tl & tr & Hnode)|E].
    - destruct (Hnot tl tr Hnode).
    - exact E. }
  split; [exact Hsz|]. split; [|exact Hzero].
  destruct (vec_at_in_range (t st) 0 ltac:(lia)) as [x Hx].
  rewrite Hx. f_equal. apply (Hzero 0 x Hx).
  intros tl tr Hnode. apply (node_range _ _ _ _ Hn) in Hnode. lia.
Qed.

Lemma unused_slots_stay_zero_witness :
  Z.of_nat (length (t sample_tree)) = 4 * n sample_tree /\
  vec_at (t sample_tree) 0 = Ok 0.
Proof.
  destruct (unused_slots_stay_zero sample sample_tree) as (H1 & H2 & _).
  - apply (represents_ctor 5); [unfold sample; machine_list | simpl; lia | reflexivity].
  - split; assumption.
Defined.

(** X4: the tree depends only on the conceptual array, not on the updates
    that led to it: two trees that the interface produces for the same
    array are the same state, slot by slot. *)
Theorem history_independence arr st st' :
  represents arr st -> represents arr st' -> st = st'.
Proof.
  intros H H'. apply (tree_state_unique arr).
  - apply represents_tree_of, H.
  - apply (represents_clean arr), H.
  - apply represents_tree_of, H'.
  - apply (represents_clean arr), H'.
Qed.

Lemma history_independence_witness :
  exists s1 s2 s3 s4,
    update 5 2 10 sample_tree = Ok (tt, s1) /\
    update 5 0 100 s1 = Ok (tt, s2) /\
    update 5 0 100 sample_tree = Ok (tt, s3) /\
    update 5 2 10 s3 = Ok (tt, s4) /\
    s2 = s4.
Proof.
  assert (represents sample sample_tree) as Hrep.
  { apply (represents_ctor 5); [unfold sample; machine_list | simpl; lia | reflexivity]. }
  do 4 eexists.
  split; [vm_compute; reflexivity|]. split; [vm_compute; reflexivity|].
  split; [vm_compute; reflexivity|]. split; [vm_compute; reflexivity|].
  apply (history_independence [100; 2; 10; 4; 5]).
  - change (represents (array_set (array_set sample 2 10) 0 100)
              (mkSegTree 5 [0; 121; 112; 9; 102; 10; 4; 5; 100; 2;
                            0; 0; 0; 0; 0; 0; 0; 0; 0; 0])).
    apply (represents_update 5 _ (mkSegTree 5 [0; 22; 13; 9; 3; 10; 4; 5; 1; 2;
                                               0; 0; 0; 0; 0; 0; 0; 0; 0; 0]));
      [ | simpl; lia | machine_range | vm_compute; reflexivity].
    apply (represents_update 5 _ sample_tree);
      [exact Hrep | simpl; lia | machine_range | vm_compute; reflexivity].
  - change (represents (array_set (array_set sample 0 100) 2 10)
              (mkSegTree 5 [0; 121; 112; 9; 102; 10; 4; 5; 100; 2;
                            0; 0; 0; 0; 0; 0; 0; 0; 0; 0])).
    apply (represents_update 5 _ (mkSegTree 5 [0; 114; 105; 9; 102; 3; 4; 5; 100; 2;
                                               0; 0; 0; 0; 0; 0; 0; 0; 0; 0]));
      [ | simpl; lia | machine_range | vm_compute; reflexivity].
    apply (represents_update 5 _ sample_tree);
      [exact Hrep | simpl; lia | machine_range | vm_compute; reflexivity].
Defined.

(** X5: updating is the same as rebuilding. When the elements of the
    conceptual array are [int]s, the tree after any updates is the tree
    that the constructor builds from that array. *)
Theorem update_is_rebuild fuel arr st :
  represents arr st ->
  Forall is_int arr ->
  n st <= Z.of_nat fuel ->
  SegTree_ctor fuel arr = Ok st.
Proof.
  intros Hrep Hint Hfuel. apply represents_tree_of in Hrep as Ht.
  pose proof (tree_n _ _ Ht) as Hn. pose proof (tree_nonempty _ _ Ht) as H1.
  pose proof (tree_int _ _ Ht) as Hmax.
  destruct (SegTree_ctor_spec fuel arr Hint ltac:(lia) ltac:(lia) ltac:(lia))
    as (st' & E & Ht').
  rewrite E. f_equal. apply (tree_state_unique arr); auto.
  - eapply SegTree_ctor_clean, E.
  - apply (represents_clean arr), Hrep.
Qed.

Lemma update_is_rebuild_witness :
  exists st1,
    update 5 2 10 sample_tree = Ok (tt, st1) /\
    SegTree_ctor 5 [1; 2; 10; 4; 5] = Ok st1.
Proof.
  eexists. split; [vm_compute; reflexivity|].
  apply (update_is_rebuild 5 (array_set sample 2 10)).
  - apply (represents_update 5 _ sample_tree);
      [ | simpl; lia | machine_range | vm_compute; reflexivity].
    apply (represents_ctor 5); [unfold sample; machine_list | simpl; lia | reflexivity].
  - unfold array_set, sample. simpl. machine_list.
  - simpl; lia.
Defined.

(** X6: an update can be taken back. Writing to a position the value it
    already holds leaves the state as it is, and after [update pos x] the
    call [update pos old] with the old value gives back the state before
    the first update, slot by slot. *)
Theorem update_can_be_undone fuel arr st pos x :
  represents arr st ->
  0 <= pos <= n st - 1 -> is_T x ->
  n st <= Z.of_nat fuel ->
  exists old st1,
    vec_at arr pos = Ok old /\
    update fuel pos old st = Ok (tt, st) /\
    update fuel pos x st = Ok (tt, st1) /\
    update fuel pos old st1 = Ok (tt, st).
Proof.
  intros Hrep Hpos Hx Hfuel. apply represents_tree_of in Hrep as Ht.
  pose proof (represents_clean _ _ Hrep) as Hclean.
  pose proof (tree_n _ _ Ht) as Hn.
  destruct (vec_at_in_range arr pos ltac:(lia)) as [old Hold].
  pose proof (vec_at_is_T _ _ _ (tree_elems _ _ Ht) Hold) as Hold_T.
  apply vec_at_Ok in Hold as Hold'. destruct Hold' as [_ Hlk].
  destruct (update_tree_of fuel arr st pos old Ht Hfuel Hpos Hold_T)
    as (st0 & E0 & Ht0).
  destruct (update_tree_of fuel arr st pos x Ht Hfuel Hpos Hx)
    as (st1 & E1 & Ht1).
  pose proof (tree_of_update_n _ _ _ _ Ht Ht1 (array_set_length arr pos x)) as Hn1.
  destruct (update_tree_of fuel _ st1 pos old Ht1 ltac:(lia) ltac:(lia) Hold_T)
    as (st2 & E2 & Ht2).
  assert (array_set arr pos old = arr) as Eid
    by (apply list_insert_id, Hlk).
  assert (array_set (array_set arr pos x) pos old = arr) as Eback.
  { unfold array_set. rewrite list_insert_insert_eq. exact Eid. }
  rewrite Eid in Ht0. rewrite Eback in Ht2.
  assert (st0 = st) as ->.
  { apply (tree_state_unique arr); auto. eapply update_clean; eassumption. }
  assert (st2 = st) as ->.
  { apply (tree_state_unique arr); auto.
    eapply update_clean; [exact E2|]. eapply update_clean; eassumption. }
  exists old, st1. auto.
Qed.

Lemma update_can_be_undone_witness :
  exists old st1,
    vec_at sample 2 = Ok old /\
    update 5 2 old sample_tree = Ok (tt, sample_tree) /\
    update 5 2 10 sample_tree = Ok (tt, st1) /\
    update 5 2 old st1 = Ok (tt, sample_tree).
Proof.
  apply (update_can_be_undone 5 sample sample_tree 2 10).
  - apply (represents_ctor 5); [unfold sample; machine_list | simpl; lia | reflexivity].
  - simpl; lia.
  - machine_range.
  - simpl; lia.
Defined.

(** ** Queries of adjacent ranges, and sums without wrap-around *)

(** X7: queries compose. For l <= m < r inside the array, the result of
    [query l r] is [merge] of the results of [query l m] and
    [query (m+1) r], in this order. *)
Theorem query_of_adjacent_ranges fuel arr st l m r :
  represents arr st ->
  0 <= l <= m -> m < r -> r <= n st - 1 ->
  n st <= Z.of_nat fuel ->
  exists x y,
    query fuel l m st = Ok (x, st) /\
    query fuel (m + 1) r st = Ok (y, st) /\
    query fuel l r st = Ok (merge x y, st).
Proof.
  intros Hrep Hl Hm Hr Hfuel. apply represents_tree_of in Hrep as Ht.
  exists (range_fold arr l m), (range_fold arr (m + 1) r).
  rewrite !(query_tree_of fuel arr st) by (auto; lia).
  split; [reflexivity|]. split; [reflexivity|].
  rewrite (range_fold_split arr l m r) by lia. reflexivity.
Qed.

Lemma query_of_adjacent_ranges_witness :
  exists x y,
    query 5 0 1 sample_tree = Ok (x, sample_tree) /\
    query 5 2 4 sample_tree = Ok (y, sample_tree) /\
    query 5 0 4 sample_tree = Ok (merge x y, sample_tree).
Proof.
  apply (query_of_adjacent_ranges 5 sample sample_tree 0 1 4).
  - apply (represents_ctor 5); [unfold sample; machine_list | simpl; lia | reflexivity].
  - lia.
  - lia.
  - simpl; lia.
  - simpl; lia.
Defined.

Lemma fold_left_merge_Zsum xs : forall z,
  is_T z -> fold_left merge xs z = wrap_ll (z + Zsum xs).
Proof.
  induction xs as [|x xs IH]; intros z Hz; simpl.
  - rewrite Z.add_0_r. symmetry. apply wrap_ll_id, Hz.
  - rewrite IH by apply merge_is_T. unfold merge. rewrite wrap_ll_add_l.
    f_equal. lia.
Qed.

Lemma Zsum_bound xs :
  Forall is_int xs ->
  - (2 ^ 31 * Z.of_nat (length xs)) <= Zsum xs <= 2 ^ 31 * Z.of_nat (length xs).
Proof.
  intros H. induction H as [|x xs Hx H IH]; simpl; [lia|].
  unfold is_int, INT_MIN, INT_MAX in Hx. lia.
Qed.

Lemma range_length arr l r : (length (range arr l r) <= length arr)%nat.
Proof. unfold range. rewrite length_take, length_drop. lia. Qed.

(** X8: sums of [int]s do not wrap around. While the elements of the
    conceptual array are [int]s, as they are after construction, every
    [query] inside the array returns the exact sum of the elements of its
    range: the [long long] aggregates cannot overflow, because a tree
    that was built has fewer than 2^29 elements. *)
Theorem query_is_exact_sum fuel arr st l r :
  represents arr st ->
  Forall is_int arr ->
  0 <= l <= r -> r <= n st - 1 ->
  n st <= Z.of_nat fuel ->
  query fuel l r st = Ok (Zsum (range arr l r), st).
Proof.
  intros Hrep Hint Hl Hr Hfuel. apply represents_tree_of in Hrep as Ht.
  rewrite (query_tree_of fuel arr st l r Ht Hfuel) by (right; lia).
  do 2 f_equal. unfold range_fold, fold_merge.
  rewrite fold_left_merge_Zsum by apply IDENTITY_is_T.
  unfold IDENTITY. rewrite Z.add_0_l. apply wrap_ll_id.
  assert (Forall is_int (range arr l r)) as Hint'
    by (unfold range; apply Forall_take, Forall_drop, Hint).
  pose proof (Zsum_bound _ Hint') as Hb.
  pose proof (range_length arr l r) as Hlen.
  pose proof (tree_n _ _ Ht) as Hn. pose proof (tree_int _ _ Ht) as Hmax.
  unfold is_T, LLONG_MIN, LLONG_MAX. unfold INT_MAX in Hmax. nia.
Qed.

Lemma query_is_exact_sum_witness :
  query 5 1 3 sample_tree = Ok (2 + (3 + (4 + 0)), sample_tree).
Proof.
  apply (query_is_exact_sum 5 sample sample_tree 1 3).
  - apply (represents_ctor 5); [unfold sample; machine_list | simpl; lia | reflexivity].
  - unfold sample. machine_list.
  - lia.
  - simpl; lia.
  - simpl; lia.
Defined.

(** ** The depth of the recursion *)

Lemma build_depth k : forall fuel a v tl tr st r,
  tl <= tr -> tr - tl + 1 <= 2 ^ Z.of_nat k ->
  build fuel a v tl tr st = Ok r -> build (S k) a v tl tr st = Ok r.
Proof.
  induction k as [|k IH]; intros fuel a v tl tr st r Hle Hlen H;
    (destruct fuel as [|fuel]; [discriminate H|]);
    cbn [build] in H |- *;
    (destruct (Z.eqb_spec tl tr) as [|Hne]; [exact H|]).
  { simpl in Hlen. lia. }
  assert (2 ^ Z.of_nat (S k) = 2 * 2 ^ Z.of_nat k) as E
    by (rewrite Nat2Z.inj_succ, Z.pow_succ_r by lia; reflexivity).
  revert r H. apply bind_refines_at; [auto|]. intros tm s1 Htm.
  apply lift_Ok_inv in Htm as [Htm ->]. apply split_tm_inv in Htm.
  rewrite Z.quot_div_nonneg in Htm by lia.
  apply bind_refines_at; [auto|]. intros lc s1 _.
  apply bind_refines_at; [intros r; apply IH; lia|]. intros u1 s2 _.
  apply bind_refines_at; [auto|]. intros rc s3 _.
  apply bind_refines_at; [auto|]. intros tm1 s4 Htm1.
  apply lift_Ok_inv in Htm1 as [Htm1 ->]. apply int_add_inv in Htm1 as [-> _].
  apply bind_refines_at; [intros r; apply IH; lia|]. auto.
Qed.

Lemma update_recursive_depth k : forall fuel v tl tr pos x st r,
  tl <= tr -> tr - tl + 1 <= 2 ^ Z.of_nat k ->
  update_recursive fuel v tl tr pos x st = Ok r ->
  update_recursive (S k) v tl tr pos x st = Ok r.
Proof.
  induction k as [|k IH]; intros fuel v tl tr pos x st r Hle Hlen H;
    (destruct fuel as [|fuel]; [discriminate H|]);
    cbn [update_recursive] in H |- *;
    (destruct (Z.eqb_spec tl tr) as [|Hne]; [exact H|]).
  { simpl in Hlen. lia. }
  assert (2 ^ Z.of_nat (S k) = 2 * 2 ^ Z.of_nat k) as E
    by (rewrite Nat2Z.inj_succ, Z.pow_succ_r by lia; reflexivity).
  revert r H. apply bind_refines_at; [auto|]. intros tm s1 Htm.
  apply lift_Ok_inv in Htm as [Htm ->]. apply split_tm_inv in Htm.
  rewrite Z.quot_div_nonneg in Htm by lia.
  apply bind_refines_at; [|auto].
  destruct (pos <=? tm).
  - apply bind_refines_at; [auto|]. intros lc s1 _ r. apply IH; lia.
  - apply bind_refines_at; [auto|]. intros rc s1 _.
    apply bind_refines_at; [auto|]. intros tm1 s2 Htm1.
    apply lift_Ok_inv in Htm1 as [Htm1 ->]. apply int_add_inv in Htm1 as [-> _].
    intros r. apply IH; lia.
Qed.

Lemma query_recursive_depth k : forall fuel v tl tr l r st res,
  tl <= tr -> tr - tl + 1 <= 2 ^ Z.of_nat k ->
  r < l \/ tl <= l <= r /\ r <= tr ->
  query_recursive fuel v tl tr l r st = Ok res ->
  query_recursive (S k) v tl tr l r st = Ok res.
Proof.
  induction k as [|k IH]; intros fuel v tl tr l r st res Hle Hlen Hlr H;
    (destruct fuel as [|fuel]; [discriminate H|]);
    cbn [query_recursive] in H |- *;
    (destruct (Z.gtb_spec l r) as [|Hnot]; [exact H|]);
    (destruct Hlr as [|[Hl Hr]]; [lia|]);
    (destruct ((l =? tl) && (r =? tr)) eqn:Hexact; [exact H|]).
  { simpl in Hlen. assert (l = tl /\ r = tr) as [-> ->] by lia.
    rewrite !Z.eqb_refl in Hexact. discriminate Hexact. }
  assert (2 ^ Z.of_nat (S k) = 2 * 2 ^ Z.of_nat k) as E
    by (rewrite Nat2Z.inj_succ, Z.pow_succ_r by lia; reflexivity).
  assert (tl < tr) as Hlt.
  { destruct (Z.eq_dec tl tr) as [->|]; [|lia].
    assert (l = tr /\ r = tr) as [-> ->] by lia.
    rewrite !Z.eqb_refl in Hexact. discriminate Hexact. }
  revert res H. apply bind_refines_at; [auto|]. intros tm s1 Htm.
  apply lift_Ok_inv in Htm as [Htm ->]. apply split_tm_inv in Htm.
  rewrite Z.quot_div_nonneg in Htm by lia.
  apply bind_refines_at; [auto|]. intros lc s1 _.
  apply bind_refines_at; [intros res; apply IH; lia|]. intros xl s2 _.
  apply bind_refines_at; [auto|]. intros rc s3 _.
  apply bind_refines_at; [auto|]. intros tm1 s4 Htm1.
  apply lift_Ok_inv in Htm1 as [Htm1 ->]. apply int_add_inv in Htm1 as [-> _].
  apply bind_refines_at; [intros res; apply IH; lia|]. auto.
Qed.

(** X9: the recursion is of logarithmic depth. For a tree of N <= 2^k
    elements a recursion budget of k + 1 is enough for the constructor,
    for every [update] at a position of the array and for every [query]
    of a range inside it (or of an empty range). *)
Theorem logarithmic_depth (k : nat) arr st :
  represents arr st ->
  n st <= 2 ^ Z.of_nat k ->
  (Forall is_int arr -> SegTree_ctor (S k) arr = Ok st) /\
  (forall pos x, 0 <= pos <= n st - 1 -> is_T x ->
     exists st', update (S k) pos x st = Ok (tt, st')) /\
  (forall l r, r < l \/ 0 <= l <= r /\ r <= n st - 1 ->
     query (S k) l r st = Ok (range_fold arr l r, st)).
Proof.
  intros Hrep Hk. apply represents_tree_of in Hrep as Ht.
  pose proof (tree_n _ _ Ht) as Hn. pose proof (tree_nonempty _ _ Ht) as H1.
  pose proof (tree_int _ _ Ht) as Hmax.
  split; [|split].
  - intros Hint.
    destruct (SegTree_ctor_spec (length arr) arr Hint ltac:(lia) ltac:(lia)
                ltac:(lia)) as (st' & E & Ht').
    assert (st' = st) as ->.
    { apply (tree_state_unique arr); auto.
      - eapply SegTree_ctor_clean, E.
      - apply (represents_clean arr), Hrep. }
    revert E. unfold SegTree_ctor.
    destruct (int_of (Z.of_nat (length arr))) as [n0| | | |] eqn:E0;
      cbn [rbind]; try discriminate.
    apply int_of_Ok_inv in E0 as [-> _].
    destruct (int_mul 4 _) as [sz| | | |]; cbn [rbind]; try discriminate.
    destruct (vec_fill sz 0) as [buf| | | |]; cbn [rbind]; try discriminate.
    destruct (int_sub _ 1) as [hi| | | |] eqn:E1; cbn [rbind]; try discriminate.
    apply int_sub_inv in E1 as [-> _].
    destruct (build (length arr) arr 1 0 _ _) as [p| | | |] eqn:Eb;
      cbn [rbind]; try discriminate.
    apply (build_depth k) in Eb; [|lia|lia]. rewrite Eb. auto.
  - intros pos x Hpos Hx.
    destruct (update_tree_of (Z.to_nat (n st)) arr st pos x Ht ltac:(lia) Hpos Hx)
      as (st' & E & _).
    exists st'. revert E. unfold update.
    destruct (int_sub (n st) 1) as [hi| | | |] eqn:E1; simpl; try discriminate.
    apply int_sub_inv in E1 as [-> _].
    apply update_recursive_depth; lia.
  - intros l r Hlr.
    pose proof (query_tree_of (Z.to_nat (n st)) arr st l r Ht ltac:(lia) Hlr) as E.
    revert E. unfold query.
    destruct (int_sub (n st) 1) as [hi| | | |] eqn:E1; simpl; try discriminate.
    apply int_sub_inv in E1 as [-> _].
    apply query_recursive_depth; lia.
Qed.

Lemma logarithmic_depth_witness :
  SegTree_ctor 4 sample = Ok sample_tree /\
  (exists st', update 4 4 9 sample_tree = Ok (tt, st')) /\
  query 4 1 3 sample_tree = Ok (9, sample_tree).
Proof.
  destruct (logarithmic_depth 3 sample sample_tree) as (Hc & Hu & Hq).
  - apply (represents_ctor 5); [unfold sample; machine_list | simpl; lia | reflexivity].
  - simpl; lia.
  - split; [apply Hc; unfold sample; machine_list|].
    split; [apply (Hu 4 9); [simpl; lia | machine_range]|].
    apply (Hq 1 3). right. simpl. lia.
Defined.

End SegmentTreeSpec.

(** * Properties of the disjoint-set union *)

Module UnionFindSpec.

Import UnionFind.

(** ** Representatives *)

Lemma root_of_is_root P v r : root_of P v r -> vec_at P r = Ok r.
Proof. intros H. induction H; assumption. Qed.

Lemma root_of_unique P v r r' : root_of P v r -> root_of P v r' -> r = r'.
Proof.
  intros H. revert r'. induction H as [v Hv | v p r Hv Hne H IH]; intros r' H'.
  - inversion H' as [? Hv' | ? p' ? Hv' Hne' H'']; subst; [reflexivity|].
    congruence.
  - inversion H' as [? Hv' | ? p' ? Hv' Hne' H'']; subst; [congruence|].
    apply IH. congruence.
Qed.

Lemma root_of_bound P v r : root_of P v r -> 0 <= v < Z.of_nat (length P).
Proof. intros H. destruct H as [v Hv | v p r Hv _ _]; eapply vec_at_bound, Hv. Qed.

(** Re-linking a node to its own root keeps every representative. *)
Lemma relink_keeps_roots P v r :
  root_of P v r -> v <> r ->
  forall x rx, root_of P x rx -> root_of (<[Z.to_nat v := r]> P) x rx.
Proof.
  intros Hv Hne x rx H.
  pose proof (root_of_bound _ _ _ Hv) as Hb.
  pose proof (root_of_is_root _ _ _ Hv) as Hr.
  induction H as [x Hx | x p rx Hx Hpx H IH].
  - apply root_self. rewrite vec_at_insert_ne; [exact Hx | lia |].
    intros ->. inversion Hv; subst; congruence.
  - destruct (Z.eq_dec x v) as [->|Hxv].
    + assert (rx = r) as ->.
      { eapply root_of_unique; [|exact Hv]. eapply root_step; eassumption. }
      apply root_step with r.
      * apply vec_at_insert_eq. exact Hb.
      * auto.
      * apply root_self. rewrite vec_at_insert_ne; [exact Hr | lia | exact Hne].
    + apply root_step with p; [|exact Hpx|exact IH].
      rewrite vec_at_insert_ne; [exact Hx | lia | auto].
Qed.

(** Linking a root below another root sends the sets of both to the
    second one and keeps every other representative. *)
Lemma link_roots P a b :
  vec_at P a = Ok a -> vec_at P b = Ok b -> a <> b ->
  forall x rx, root_of P x rx ->
    root_of (<[Z.to_nat b := a]> P) x (if rx =? b then a else rx).
Proof.
  intros Ha Hb Hne x rx H.
  pose proof (vec_at_bound _ _ _ Hb) as Hbb.
  assert (root_of (<[Z.to_nat b := a]> P) a a) as Hroot.
  { apply root_self. rewrite vec_at_insert_ne; [exact Ha | lia | auto]. }
  induction H as [x Hx | x p rx Hx Hpx H IH].
  - destruct (Z.eqb_spec x b) as [->|Hxb].
    + apply root_step with a; [apply vec_at_insert_eq; exact Hbb | exact Hne | exact Hroot].
    + apply root_self. rewrite vec_at_insert_ne; [exact Hx | lia | auto].
  - apply root_step with p; [|exact Hpx|exact IH].
    rewrite vec_at_insert_ne; [exact Hx | lia |].
    intros ->. congruence.
Qed.

(** ** Sums of recorded sizes *)

Lemma sum_to_ext f g k :
  (forall i, (i < k)%nat -> f i = g i) -> sum_to f k = sum_to g k.
Proof.
  induction k as [|k IH]; intros H; simpl; [reflexivity|].
  rewrite IH by (intros i Hi; apply H; lia). rewrite H by lia. reflexivity.
Qed.

Lemma sum_to_change f g k j :
  (j < k)%nat -> (forall i, (i < k)%nat -> i <> j -> g i = f i) ->
  sum_to g k = sum_to f k - f j + g j.
Proof.
  induction k as [|k IH]; intros Hj H; [lia|]. simpl.
  destruct (Nat.eq_dec j k) as [->|Hne].
  - rewrite (sum_to_ext g f k) by (intros i Hi; apply H; lia). lia.
  - rewrite IH by (try lia; intros i Hi Hij; apply H; lia).
    rewrite (H k) by lia. lia.
Qed.

Lemma sum_to_nonneg f k :
  (forall i, (i < k)%nat -> 0 <= f i) -> 0 <= sum_to f k.
Proof.
  induction k as [|k IH]; intros H; simpl; [lia|].
  specialize (IH ltac:(intros i Hi; apply H; lia)).
  specialize (H k ltac:(lia)). lia.
Qed.

Lemma sum_to_two f k a b :
  (forall i, (i < k)%nat -> 0 <= f i) ->
  (a < k)%nat -> (b < k)%nat -> a <> b ->
  f a + f b <= sum_to f k.
Proof.
  intros Hf Ha Hb Hne.
  set (g := fun i => if Nat.eq_dec i a then 0 else if Nat.eq_dec i b then 0 else f i).
  set (h := fun i => if Nat.eq_dec i a then 0 else f i).
  assert (sum_to h k = sum_to f k - f a + h a) as E1.
  { apply sum_to_change; [exact Ha|]. intros i _ Hi. unfold h.
    destruct (Nat.eq_dec i a); [contradiction | reflexivity]. }
  assert (sum_to g k = sum_to h k - h b + g b) as E2.
  { apply sum_to_change; [exact Hb|]. intros i _ Hi. unfold g, h.
    destruct (Nat.eq_dec i a); [reflexivity|].
    destruct (Nat.eq_dec i b); [contradiction | reflexivity]. }
  assert (0 <= sum_to g k) as Hg.
  { apply sum_to_nonneg. intros i Hi. unfold g.
    destruct (Nat.eq_dec i a); [lia|]. destruct (Nat.eq_dec i b); [lia|].
    apply Hf, Hi. }
  assert (h a = 0) as Ea by (unfold h; destruct (Nat.eq_dec a a); congruence).
  assert (h b = f b) as Eb by (unfold h; destruct (Nat.eq_dec b a); congruence).
  assert (g b = 0) as Ec.
  { unfold g. destruct (Nat.eq_dec b a); [reflexivity|].
    destruct (Nat.eq_dec b b); congruence. }
  lia.
Qed.

Lemma sum_to_const c k : sum_to (fun _ => c) k = c * Z.of_nat k.
Proof. induction k as [|k IH]; simpl; lia. Qed.

Lemma vec_at_lookup {A : Type} (vec : list A) (i : nat) x :
  vec_at vec (Z.of_nat i) = Ok x <-> vec !! i = Some x.
Proof.
  rewrite vec_at_Ok, Nat2Z.id. split; [intros [_ H]; exact H | intros H; split; [lia | exact H]].
Qed.

Lemma root_size_root P S i s :
  P !! i = Some (Z.of_nat i) -> S !! i = Some s -> root_size P S i = s.
Proof. intros HP HS. unfold root_size. rewrite HP, HS, Z.eqb_refl. reflexivity. Qed.

Lemma root_size_not_root P S i :
  P !! i <> Some (Z.of_nat i) -> root_size P S i = 0.
Proof.
  intros HP. unfold root_size. destruct (P !! i) as [p|]; [|reflexivity].
  destruct (S !! i) as [s|]; [|reflexivity].
  destruct (Z.eqb_spec p (Z.of_nat i)) as [->|]; [contradiction | reflexivity].
Qed.

Lemma root_size_nonneg P S i :
  (forall j s, S !! j = Some s -> 0 <= s) -> 0 <= root_size P S i.
Proof.
  intros HS. unfold root_size. destruct (P !! i) as [p|]; [|lia].
  destruct (S !! i) as [s|] eqn:E; [|lia].
  destruct (p =? Z.of_nat i); [eapply HS, E | lia].
Qed.

Lemma root_size_same_roots P P' S i :
  (forall x, vec_at P' x = Ok x <-> vec_at P x = Ok x) ->
  length P' = length P ->
  root_size P' S i = root_size P S i.
Proof.
  intros Hroots Hlen. specialize (Hroots (Z.of_nat i)).
  rewrite !vec_at_lookup in Hroots.
  destruct (S !! i) as [s|] eqn:ES.
  - destruct (decide (P !! i = Some (Z.of_nat i))) as [HP|HP].
    + rewrite (root_size_root P S i s HP ES).
      apply root_size_root; [apply Hroots, HP | exact ES].
    + rewrite (root_size_not_root P S i HP).
      apply root_size_not_root. intros HP'. apply HP, Hroots, HP'.
  - unfold root_size. rewrite ES.
    destruct (P' !! i); destruct (P !! i); reflexivity.
Qed.

(** ** Steps of the programs *)

Lemma read_parent_Ok st v x :
  vec_at (parent st) v = Ok x -> read_parent v st = Ok (x, st).
Proof. intros H. unfold read_parent. rewrite H. reflexivity. Qed.

Lemma read_sz_Ok st v x : vec_at (sz st) v = Ok x -> read_sz v st = Ok (x, st).
Proof. intros H. unfold read_sz. rewrite H. reflexivity. Qed.

Lemma write_parent_Ok st v x :
  0 <= v < Z.of_nat (length (parent st)) ->
  write_parent v x st = Ok (tt, mkDSU (<[Z.to_nat v := x]> (parent st)) (sz st)).
Proof. intros H. unfold write_parent. rewrite vec_set_Ok by exact H. reflexivity. Qed.

Lemma write_sz_Ok st v x :
  0 <= v < Z.of_nat (length (sz st)) ->
  write_sz v x st = Ok (tt, mkDSU (parent st) (<[Z.to_nat v := x]> (sz st))).
Proof. intros H. unfold write_sz. rewrite vec_set_Ok by exact H. reflexivity. Qed.

(** ** find_set *)

Lemma compressed_refl P : compressed P P.
Proof. split; auto. Qed.

Lemma compressed_relink P P1 v r :
  compressed P P1 -> root_of P v r -> v <> r ->
  compressed P (<[Z.to_nat v := r]> P1).
Proof.
  intros [Hlen Hroots Hsame Hlinks] Hv Hne.
  pose proof (root_of_bound _ _ _ Hv) as Hb.
  split.
  - rewrite length_insert. exact Hlen.
  - intros x rx Hx. apply relink_keeps_roots; auto.
  - intros x. destruct (Z.eq_dec x v) as [->|Hxv].
    + rewrite vec_at_insert_eq by lia.
      split; [intros E; congruence|].
      intros E. inversion Hv; subst; congruence.
    + rewrite vec_at_insert_ne by (auto; lia). apply Hsame.
  - intros x. destruct (Z.eq_dec x v) as [->|Hxv].
    + right. exists r. split; [apply vec_at_insert_eq; lia | exact Hv].
    + rewrite vec_at_insert_ne by (auto; lia). apply Hlinks.
Qed.

Lemma find_set_spec st v r :
  root_of (parent st) v r ->
  exists k P',
    (forall fuel, (k <= fuel)%nat ->
       find_set fuel v st = Ok (r, mkDSU P' (sz st))) /\
    compressed (parent st) P'.
Proof.
  intros H. induction H as [v Hv | v p r Hv Hne H IH].
  - exists 1%nat, (parent st). split; [|apply compressed_refl].
    intros [|fuel] Hfuel; [lia|]. cbn [find_set].
    rewrite (bind_Ok _ _ _ _ _ (read_parent_Ok st v v Hv)).
    rewrite Z.eqb_refl. destruct st; reflexivity.
  - destruct IH as (k & P1 & Hfind & Hc).
    assert (root_of (parent st) v r) as Hroot by (eapply root_step; eassumption).
    assert (v <> r) as Hvr.
    { intros ->. apply root_of_is_root in H. congruence. }
    exists (S k), (<[Z.to_nat v := r]> P1). split.
    + intros [|fuel] Hfuel; [lia|]. cbn [find_set].
      rewrite (bind_Ok _ _ _ _ _ (read_parent_Ok st v p Hv)).
      destruct (Z.eqb_spec v p) as [|_]; [congruence|].
      rewrite (bind_Ok _ _ _ _ _ (read_parent_Ok st v p Hv)).
      rewrite (bind_Ok _ _ _ _ _ (Hfind fuel ltac:(lia))).
      rewrite (bind_Ok _ _ _ _ _
                 (write_parent_Ok (mkDSU P1 (sz st)) v r
                    ltac:(simpl; rewrite (compressed_length _ _ Hc);
                          apply (vec_at_bound _ _ _ Hv)))).
      reflexivity.
    + apply compressed_relink; assumption.
Qed.

Lemma find_set_fuel_mono fuel : forall fuel' v,
  (fuel <= fuel')%nat -> refines (find_set fuel v) (find_set fuel' v).
Proof.
  induction fuel as [|fuel IH]; intros fuel' v Hle; [apply refines_out_of_fuel|].
  destruct fuel' as [|fuel']; [lia|]. cbn [find_set].
  apply refines_bind; [apply refines_refl|]. intros p.
  destruct (v =? p); [apply refines_refl|].
  apply refines_bind; [apply refines_refl|]. intros p'.
  apply refines_bind; [apply IH; lia|]. intros r. apply refines_refl.
Qed.

Lemma compressed_inv P' st :
  dsu_inv st -> compressed (parent st) P' -> dsu_inv (mkDSU P' (sz st)).
Proof.
  intros [Hlen Hrooted Hnonneg Hsum] [Hlen' Hroots Hsame Hlinks].
  split; cbn [parent sz].
  - congruence.
  - intros v Hv. destruct (Hrooted v ltac:(lia)) as [r Hr].
    exists r. apply Hroots, Hr.
  - exact Hnonneg.
  - rewrite Hlen'.
    rewrite (sum_to_ext _ (root_size (parent st) (sz st))); [exact Hsum|].
    intros i _. apply root_size_same_roots; assumption.
Qed.

(** ** union_sets *)

Lemma link_sum P S (ia ib : nat) sa sb :
  P !! ia = Some (Z.of_nat ia) -> P !! ib = Some (Z.of_nat ib) -> ia <> ib ->
  S !! ia = Some sa -> S !! ib = Some sb ->
  sum_to (root_size (<[ib := Z.of_nat ia]> P) (<[ia := sa + sb]> S)) (length P)
  = sum_to (root_size P S) (length P).
Proof.
  intros HPa HPb Hne HSa HSb.
  pose proof (lookup_lt_Some _ _ _ HPa) as Hia.
  pose proof (lookup_lt_Some _ _ _ HPb) as Hib.
  pose proof (lookup_lt_Some _ _ _ HSa) as Hia'.
  set (P3 := <[ib := Z.of_nat ia]> P).
  assert (sum_to (root_size P3 S) (length P)
          = sum_to (root_size P S) (length P) - root_size P S ib + root_size P3 S ib)
    as E1.
  { apply sum_to_change; [exact Hib|]. intros i _ Hi. unfold root_size, P3.
    rewrite list_lookup_insert_ne by auto. reflexivity. }
  assert (sum_to (root_size P3 (<[ia := sa + sb]> S)) (length P)
          = sum_to (root_size P3 S) (length P) - root_size P3 S ia
            + root_size P3 (<[ia := sa + sb]> S) ia)
    as E2.
  { apply sum_to_change; [exact Hia|]. intros i _ Hi. unfold root_size.
    rewrite list_lookup_insert_ne by auto. reflexivity. }
  assert (P3 !! ia = Some (Z.of_nat ia)) as HP3a
    by (unfold P3; rewrite list_lookup_insert_ne by auto; exact HPa).
  rewrite (root_size_root P S ib sb HPb HSb) in E1.
  rewrite (root_size_not_root P3 S ib) in E1.
  2:{ unfold P3. rewrite list_lookup_insert_eq by exact Hib.
      intros E. injection E as E. lia. }
  rewrite (root_size_root P3 S ia sa HP3a HSa) in E2.
  rewrite (root_size_root P3 _ ia (sa + sb) HP3a) in E2
    by (apply list_lookup_insert_eq; exact Hia').
  lia.
Qed.

Lemma roots_sum_bound P S (ia ib : nat) sa sb :
  P !! ia = Some (Z.of_nat ia) -> P !! ib = Some (Z.of_nat ib) -> ia <> ib ->
  S !! ia = Some sa -> S !! ib = Some sb ->
  (forall j s, S !! j = Some s -> 0 <= s) ->
  sa + sb <= sum_to (root_size P S) (length P).
Proof.
  intros HPa HPb Hne HSa HSb Hnonneg.
  rewrite <- (root_size_root P S ia sa HPa HSa).
  rewrite <- (root_size_root P S ib sb HPb HSb).
  apply sum_to_two; [| | |exact Hne].
  - intros i _. apply root_size_nonneg, Hnonneg.
  - eapply lookup_lt_Some, HPa.
  - eapply lookup_lt_Some, HPb.
Qed.

(** The end of [union_sets]: the root [b] is linked below the root [a]. *)
Lemma link_spec st a b :
  dsu_inv st ->
  vec_at (parent st) a = Ok a -> vec_at (parent st) b = Ok b -> a <> b ->
  exists st',
    (write_parent b a ;;
     sa <- read_sz a ;;
     sb <- read_sz b ;;
     s <- lift (int_add sa sb) ;;
     write_sz a s) st = Ok (tt, st') /\
    dsu_inv st' /\
    length (parent st') = length (parent st) /\
    (forall x rx, root_of (parent st) x rx ->
       root_of (parent st') x (if rx =? b then a else rx)).
Proof.
  intros Hinv Ha Hb Hne.
  destruct Hinv as [Hlen Hrooted Hnonneg Hsum].
  pose proof (vec_at_bound _ _ _ Ha) as Hab.
  pose proof (vec_at_bound _ _ _ Hb) as Hbb.
  destruct (vec_at_in_range (sz st) a ltac:(lia)) as [sa Hsa].
  destruct (vec_at_in_range (sz st) b ltac:(lia)) as [sb Hsb].
  apply vec_at_Ok in Ha as Ha'. destruct Ha' as [_ HPa].
  apply vec_at_Ok in Hb as Hb'. destruct Hb' as [_ HPb].
  apply vec_at_Ok in Hsa as Hsa'. destruct Hsa' as [_ HSa].
  apply vec_at_Ok in Hsb as Hsb'. destruct Hsb' as [_ HSb].
  rewrite <- (Z2Nat.id a) in HPa at 2 by lia.
  rewrite <- (Z2Nat.id b) in HPb at 2 by lia.
  assert (Z.to_nat a <> Z.to_nat b) as Hne' by lia.
  pose proof (roots_sum_bound _ _ _ _ _ _ HPa HPb Hne' HSa HSb Hnonneg) as Hbound.
  pose proof (Hnonneg _ _ HSa) as Hsa0. pose proof (Hnonneg _ _ HSb) as Hsb0.
  rewrite (bind_Ok _ _ _ _ _ (write_parent_Ok st b a Hbb)).
  set (st1 := mkDSU (<[Z.to_nat b := a]> (parent st)) (sz st)).
  rewrite (bind_Ok _ _ _ _ _ (read_sz_Ok st1 a sa Hsa)).
  rewrite (bind_Ok _ _ _ _ _ (read_sz_Ok st1 b sb Hsb)).
  rewrite (bind_Ok _ _ _ _ _
             (lift_Ok _ st1 _ (int_of_Ok (sa + sb)
                ltac:(unfold is_int, INT_MIN; lia)))).
  rewrite (write_sz_Ok st1 a (sa + sb)) by (simpl; lia).
  eexists. split; [reflexivity|]. cbn [parent sz st1].
  split; [|split].
  - split; cbn [parent sz].
    + rewrite !length_insert. exact Hlen.
    + intros v Hv. rewrite length_insert in Hv.
      destruct (Hrooted v Hv) as [r Hr]. eexists.
      apply link_roots; eassumption.
    + intros i s Hs. apply list_lookup_insert_Some in Hs as [(_ & <- & _)|[_ Hs]].
      * lia.
      * eapply Hnonneg, Hs.
    + rewrite length_insert.
      rewrite <- (Z2Nat.id a) at 1 by lia.
      rewrite link_sum by assumption. exact Hsum.
  - apply length_insert.
  - intros x rx Hx. apply link_roots; assumption.
Qed.

Lemma union_sets_spec st a b :
  dsu_inv st ->
  0 <= a < Z.of_nat (length (parent st)) ->
  0 <= b < Z.of_nat (length (parent st)) ->
  exists k st',
    (forall fuel, (k <= fuel)%nat -> union_sets fuel a b st = Ok (tt, st')) /\
    dsu_inv st' /\
    length (parent st') = length (parent st) /\
    same_set st' a b.
Proof.
  intros Hinv Ha Hb.
  destruct (inv_rooted _ Hinv a Ha) as [ra Hra].
  destruct (inv_rooted _ Hinv b Hb) as [rb Hrb].
  destruct (find_set_spec st a ra Hra) as (k1 & P1 & Hf1 & Hc1).
  pose proof (compressed_inv P1 st Hinv Hc1) as Hinv1.
  set (st1 := mkDSU P1 (sz st)) in *.
  destruct (find_set_spec st1 b rb (compressed_roots _ _ Hc1 _ _ Hrb))
    as (k2 & P2 & Hf2 & Hc2).
  pose proof (compressed_inv P2 st1 Hinv1 Hc2) as Hinv2.
  cbn [parent sz st1] in Hf2, Hc2, Hinv2.
  set (st2 := mkDSU P2 (sz st)) in *.
  assert (root_of P2 a ra) as Hra2
    by (apply (compressed_roots _ _ Hc2), (compressed_roots _ _ Hc1), Hra).
  assert (root_of P2 b rb) as Hrb2
    by (apply (compressed_roots _ _ Hc2), (compressed_roots _ _ Hc1), Hrb).
  assert (length P2 = length (parent st)) as Hlen2
    by (rewrite (compressed_length _ _ Hc2); apply (compressed_length _ _ Hc1)).
  pose proof (root_of_is_root _ _ _ Hra2) as Hroot_a.
  pose proof (root_of_is_root _ _ _ Hrb2) as Hroot_b.
  destruct (Z.eq_dec ra rb) as [Heq|Hne].
  - exists (Nat.max k1 k2), st2. split; [|split; [exact Hinv2|split; [exact Hlen2|]]].
    + intros fuel Hfuel. unfold union_sets.
      rewrite (bind_Ok _ _ _ _ _ (Hf1 fuel ltac:(lia))).
      rewrite (bind_Ok _ _ _ _ _ (Hf2 fuel ltac:(lia))).
      rewrite Heq, Z.eqb_refl. reflexivity.
    + exists ra. split; [exact Hra2 | rewrite Heq; exact Hrb2].
  - pose proof (vec_at_bound _ _ _ Hroot_a) as Hab.
    pose proof (vec_at_bound _ _ _ Hroot_b) as Hbb.
    pose proof (inv_sz_length _ Hinv2) as Hszlen. cbn [parent sz st2] in Hszlen.
    destruct (vec_at_in_range (sz st) ra ltac:(lia)) as [sa Hsa].
    destruct (vec_at_in_range (sz st) rb ltac:(lia)) as [sb Hsb].
    destruct (Z.ltb_spec sa sb) as [Hlt|Hge].
    + destruct (link_spec st2 rb ra Hinv2 Hroot_b Hroot_a ltac:(auto))
        as (st' & E & Hinv' & Hlen' & Hroots').
      exists (Nat.max k1 k2), st'.
      split; [|split; [exact Hinv'|split; [rewrite Hlen'; exact Hlen2|]]].
      * intros fuel Hfuel. unfold union_sets.
        rewrite (bind_Ok _ _ _ _ _ (Hf1 fuel ltac:(lia))).
        rewrite (bind_Ok _ _ _ _ _ (Hf2 fuel ltac:(lia))).
        destruct (Z.eqb_spec ra rb) as [|_]; [contradiction|].
        rewrite (bind_Ok _ _ _ _ _ (read_sz_Ok st2 ra sa Hsa)).
        rewrite (bind_Ok _ _ _ _ _ (read_sz_Ok st2 rb sb Hsb)).
        destruct (Z.ltb_spec sa sb) as [_|]; [exact E | lia].
      * exists rb. split.
        -- specialize (Hroots' a ra Hra2). rewrite Z.eqb_refl in Hroots'.
           exact Hroots'.
        -- specialize (Hroots' b rb Hrb2).
           destruct (Z.eqb_spec rb ra) as [|_]; [congruence | exact Hroots'].
    + destruct (link_spec st2 ra rb Hinv2 Hroot_a Hroot_b Hne)
        as (st' & E & Hinv' & Hlen' & Hroots').
      exists (Nat.max k1 k2), st'.
      split; [|split; [exact Hinv'|split; [rewrite Hlen'; exact Hlen2|]]].
      * intros fuel Hfuel. unfold union_sets.
        rewrite (bind_Ok _ _ _ _ _ (Hf1 fuel ltac:(lia))).
        rewrite (bind_Ok _ _ _ _ _ (Hf2 fuel ltac:(lia))).
        destruct (Z.eqb_spec ra rb) as [|_]; [contradiction|].
        rewrite (bind_Ok _ _ _ _ _ (read_sz_Ok st2 ra sa Hsa)).
        rewrite (bind_Ok _ _ _ _ _ (read_sz_Ok st2 rb sb Hsb)).
        destruct (Z.ltb_spec sa sb) as [|_]; [lia | exact E].
      * exists ra. split.
        -- specialize (Hroots' a ra Hra2).
           destruct (Z.eqb_spec ra rb) as [|_]; [congruence | exact Hroots'].
        -- specialize (Hroots' b rb Hrb2). rewrite Z.eqb_refl in Hroots'.
           exact Hroots'.
Qed.

Lemma union_sets_fuel_mono fuel fuel' a b :
  (fuel <= fuel')%nat -> refines (union_sets fuel a b) (union_sets fuel' a b).
Proof.
  intros Hle. unfold union_sets.
  apply refines_bind; [apply find_set_fuel_mono, Hle|]. intros ra.
  apply refines_bind; [apply find_set_fuel_mono, Hle|]. intros rb.
  apply refines_refl.
Qed.

(** ** The states of the structure *)

Lemma DSU_ctor_inv N st :
  DSU_ctor N = Ok st -> is_int N ->
  dsu_inv st /\ Z.of_nat (length (parent st)) = N.
Proof.
  unfold DSU_ctor, vec_fill. intros E HN.
  destruct (Z.leb_spec 0 N) as [H0|]; simpl in E; [|discriminate].
  injection E as <-. cbn [parent sz].
  assert (forall i, (i < Z.to_nat N)%nat ->
            imap (fun i _ => Z.of_nat i) (replicate (Z.to_nat N) 0) !! i
            = Some (Z.of_nat i)) as HP.
  { intros i Hi. rewrite list_lookup_imap, lookup_replicate_2 by exact Hi.
    reflexivity. }
  split; [split; cbn [parent sz]|].
  - rewrite length_imap, !length_replicate. reflexivity.
  - intros v Hv. rewrite length_imap, length_replicate in Hv.
    exists v. apply root_self. apply vec_at_Ok. split; [lia|].
    rewrite HP by lia. f_equal. lia.
  - intros i s Hs. apply lookup_replicate in Hs as [-> _]. lia.
  - rewrite length_imap, length_replicate.
    rewrite (sum_to_ext _ (fun _ => 1)).
    + rewrite sum_to_const. destruct HN. lia.
    + intros i Hi. apply root_size_root; [apply HP, Hi|].
      apply lookup_replicate_2, Hi.
  - rewrite length_imap, length_replicate. lia.
Qed.

Lemma find_set_result fuel st v r st' :
  dsu_inv st -> 0 <= v < Z.of_nat (length (parent st)) ->
  find_set fuel v st = Ok (r, st') ->
  root_of (parent st) v r /\
  compressed (parent st) (parent st') /\ sz st' = sz st.
Proof.
  intros Hinv Hv E.
  destruct (inv_rooted _ Hinv v Hv) as [r0 Hr0].
  destruct (find_set_spec st v r0 Hr0) as (k & P' & Hfind & Hc).
  specialize (Hfind (Nat.max fuel k) ltac:(lia)).
  rewrite (find_set_fuel_mono fuel (Nat.max fuel k) v ltac:(lia) _ _ E) in Hfind.
  injection Hfind as -> ->. auto.
Qed.

Lemma dsu_state_inv N st :
  dsu_state N st -> dsu_inv st /\ Z.of_nat (length (parent st)) = N.
Proof.
  intros H.
  induction H as [st E HN | fuel st v r st' H [Hinv Hlen] Hv E
                 | fuel st a b st' H [Hinv Hlen] Ha Hb E].
  - apply DSU_ctor_inv; assumption.
  - destruct (find_set_result fuel st v r st' Hinv ltac:(lia) E) as (_ & Hc & Hsz).
    pose proof (compressed_inv _ st Hinv Hc) as Hinv'.
    rewrite <- Hsz in Hinv'. destruct st' as [P' S']. cbn [parent sz] in *.
    split; [exact Hinv'|]. rewrite (compressed_length _ _ Hc). exact Hlen.
  - destruct (union_sets_spec st a b Hinv ltac:(lia) ltac:(lia))
      as (k & st0 & Hu & Hinv' & Hlen' & _).
    specialize (Hu (Nat.max fuel k) ltac:(lia)).
    rewrite (union_sets_fuel_mono fuel (Nat.max fuel k) a b ltac:(lia) _ _ E) in Hu.
    injection Hu as ->. split; [exact Hinv'|]. rewrite Hlen'. exact Hlen.
Qed.

Lemma compressed_same_set st P' x y :
  dsu_inv st -> compressed (parent st) P' ->
  0 <= x < Z.of_nat (length (parent st)) ->
  0 <= y < Z.of_nat (length (parent st)) ->
  same_set st x y <-> same_set (mkDSU P' (sz st)) x y.
Proof.
  intros Hinv Hc Hx Hy. unfold same_set. cbn [parent]. split.
  - intros (r & Hrx & Hry). exists r.
    split; apply (compressed_roots _ _ Hc); assumption.
  - intros (r & Hrx & Hry).
    destruct (inv_rooted _ Hinv x Hx) as [rx Hx0].
    destruct (inv_rooted _ Hinv y Hy) as [ry Hy0].
    pose proof (root_of_unique _ _ _ _ (compressed_roots _ _ Hc _ _ Hx0) Hrx).
    pose proof (root_of_unique _ _ _ _ (compressed_roots _ _ Hc _ _ Hy0) Hry).
    subst. exists r. auto.
Qed.

(** ** The property of the specification *)

(** C10: in a DSU over N elements, with all arguments in [0, N-1]:
    [union_sets a b] returns, and [find_set a] and [find_set b] called
    after it return the same representative; [find_set v] returns the
    representative of [v] and leaves the partition as it was: two elements
    are in the same set after the call exactly when they were before it,
    and every parent link after the call is the link before it or leads
    to the node's own root. Each call returns for every recursion budget
    from some budget on. *)
Theorem union_joins_and_find_keeps_partition N st :
  dsu_state N st ->
  (forall a b, 0 <= a <= N - 1 -> 0 <= b <= N - 1 ->
     exists k, forall fuel, (k <= fuel)%nat ->
       exists st1 st2 st3 r,
         union_sets fuel a b st = Ok (tt, st1) /\
         find_set fuel a st1 = Ok (r, st2) /\
         find_set fuel b st2 = Ok (r, st3)) /\
  (forall v, 0 <= v <= N - 1 ->
     exists k r st',
       (forall fuel, (k <= fuel)%nat -> find_set fuel v st = Ok (r, st')) /\
       root_of (parent st) v r /\
       (forall x y, 0 <= x <= N - 1 -> 0 <= y <= N - 1 ->
          (same_set st x y <-> same_set st' x y)) /\
       (forall x,
          vec_at (parent st') x = vec_at (parent st) x \/
          exists rx, vec_at (parent st') x = Ok rx /\ root_of (parent st) x rx)).
Proof.
  intros Hst. destruct (dsu_state_inv N st Hst) as [Hinv Hlen]. split.
  - intros a b Ha Hb.
    destruct (union_sets_spec st a b Hinv ltac:(lia) ltac:(lia))
      as (k0 & st1 & Hu & Hinv1 & Hlen1 & (r & Hra & Hrb)).
    destruct (find_set_spec st1 a r Hra) as (k1 & P2 & Hf1 & Hc1).
    destruct (find_set_spec (mkDSU P2 (sz st1)) b r (compressed_roots _ _ Hc1 _ _ Hrb))
      as (k2 & P3 & Hf2 & Hc2).
    exists (Nat.max k0 (Nat.max k1 k2)). intros fuel Hfuel.
    exists st1, (mkDSU P2 (sz st1)), (mkDSU P3 (sz st1)), r.
    split; [apply Hu; lia|]. split; [apply Hf1; lia | apply Hf2; lia].
  - intros v Hv.
    destruct (inv_rooted _ Hinv v ltac:(lia)) as [r Hr].
    destruct (find_set_spec st v r Hr) as (k & P' & Hfind & Hc).
    exists k, r, (mkDSU P' (sz st)).
    split; [exact Hfind|]. split; [exact Hr|]. split.
    + intros x y Hx Hy. apply compressed_same_set; auto; lia.
    + apply (compressed_links _ _ Hc).
Qed.

Lemma union_joins_and_find_keeps_partition_witness :
  exists k, forall fuel, (k <= fuel)%nat ->
    exists st1 st2 st3 r,
      union_sets fuel 0 1 (mkDSU [0; 1; 2; 3; 4] [1; 1; 1; 1; 1]) = Ok (tt, st1) /\
      find_set fuel 0 st1 = Ok (r, st2) /\
      find_set fuel 1 st2 = Ok (r, st3).
Proof.
  apply (union_joins_and_find_keeps_partition 5).
  - apply dsu_new; [reflexivity | unfold is_int, INT_MIN, INT_MAX; lia].
  - lia.
  - lia.
Defined.

(** The run of the usage example of the source. *)
Example scenario_dsu :
  exists st1 st2 st3 st4 st5 st6,
    DSU_ctor 5 = Ok st1 /\
    union_sets 5 0 1 st1 = Ok (tt, st2) /\
    union_sets 5 2 3 st2 = Ok (tt, st3) /\
    union_sets 5 0 2 st3 = Ok (tt, st4) /\
    find_set 5 1 st4 = Ok (0, st5) /\
    find_set 5 3 st5 = Ok (0, st6) /\
    vec_at (sz st6) 0 = Ok 4.
Proof.
  do 6 eexists. do 6 (split; [vm_compute; reflexivity|]).
  vm_compute. reflexivity.
Qed.

(** * Further properties of the disjoint-set union *)

(** ** Steps to the representative *)

Lemma root_within_root_of P h v r : root_within P h v r -> root_of P v r.
Proof.
  intros H. induction H; [apply root_self; assumption|].
  eapply root_step; eassumption.
Qed.

Lemma root_within_mono P h h' v r :
  (h <= h')%nat -> root_within P h v r -> root_within P h' v r.
Proof.
  intros Hle H. revert h' Hle.
  induction H as [h v Hv | h v p r Hv Hne H IH]; intros h' Hle.
  - apply within_self, Hv.
  - destruct h' as [|h']; [lia|].
    eapply within_step; [exact Hv | exact Hne | apply IH; lia].
Qed.

Lemma relink_keeps_within P v r :
  root_of P v r -> v <> r ->
  forall h x rx, root_within P h x rx ->
    root_within (<[Z.to_nat v := r]> P) h x rx.
Proof.
  intros Hv Hne h x rx H.
  pose proof (root_of_bound _ _ _ Hv) as Hb.
  pose proof (root_of_is_root _ _ _ Hv) as Hr.
  induction H as [h x Hx | h x p rx Hx Hpx H IH].
  - apply within_self. rewrite vec_at_insert_ne; [exact Hx | lia |].
    intros ->. inversion Hv; subst; congruence.
  - destruct (Z.eq_dec x v) as [->|Hxv].
    + assert (rx = r) as ->.
      { eapply root_of_unique; [|exact Hv].
        eapply root_step; [exact Hx | exact Hpx |].
        eapply root_within_root_of, H. }
      apply within_step with r.
      * apply vec_at_insert_eq. exact Hb.
      * auto.
      * apply within_self. rewrite vec_at_insert_ne; [exact Hr | lia | exact Hne].
    + apply within_step with p; [|exact Hpx|exact IH].
      rewrite vec_at_insert_ne; [exact Hx | lia | auto].
Qed.

Lemma link_within_loser P a b :
  vec_at P a = Ok a -> vec_at P b = Ok b -> a <> b ->
  forall h x, root_within P h x b ->
    root_within (<[Z.to_nat b := a]> P) (S h) x a.
Proof.
  intros Ha Hb Hne h x H. pose proof (vec_at_bound _ _ _ Hb) as Hbb.
  remember b as rb eqn:E in H.
  induction H as [h x Hx | h x p rx Hx Hpx H IH]; subst.
  - apply within_step with a; [apply vec_at_insert_eq; exact Hbb | exact Hne |].
    apply within_self. rewrite vec_at_insert_ne; [exact Ha | lia | auto].
  - apply within_step with p; [|exact Hpx|apply IH; reflexivity].
    rewrite vec_at_insert_ne; [exact Hx | lia |]. intros ->. congruence.
Qed.

Lemma link_within_other P a b :
  vec_at P b = Ok b ->
  forall h x rx, root_within P h x rx -> rx <> b ->
    root_within (<[Z.to_nat b := a]> P) h x rx.
Proof.
  intros Hb h x rx H Hrx. pose proof (vec_at_bound _ _ _ Hb) as Hbb.
  induction H as [h x Hx | h x p rx Hx Hpx H IH].
  - apply within_self. rewrite vec_at_insert_ne; [exact Hx | lia | auto].
  - apply within_step with p; [|exact Hpx|apply IH; exact Hrx].
    rewrite vec_at_insert_ne; [exact Hx | lia |]. intros ->. congruence.
Qed.

(** [find_set v] leaves [v] linked to its root and makes no way to a
    root longer. *)
Lemma find_set_flat st v r :
  root_of (parent st) v r ->
  exists k P',
    (forall fuel, (k <= fuel)%nat ->
       find_set fuel v st = Ok (r, mkDSU P' (sz st))) /\
    compressed (parent st) P' /\
    vec_at P' v = Ok r /\
    (forall h x rx, root_within (parent st) h x rx -> root_within P' h x rx).
Proof.
  intros H. induction H as [v Hv | v p r Hv Hne H IH].
  - exists 1%nat, (parent st).
    split; [|split; [apply compressed_refl | split; [exact Hv | auto]]].
    intros [|fuel] Hfuel; [lia|]. cbn [find_set].
    rewrite (bind_Ok _ _ _ _ _ (read_parent_Ok st v v Hv)).
    rewrite Z.eqb_refl. destruct st; reflexivity.
  - destruct IH as (k & P1 & Hfind & Hc & _ & Hwithin).
    assert (root_of (parent st) v r) as Hroot by (eapply root_step; eassumption).
    assert (v <> r) as Hvr.
    { intros ->. apply root_of_is_root in H. congruence. }
    pose proof (vec_at_bound _ _ _ Hv) as Hb.
    pose proof (compressed_length _ _ Hc) as Hlen.
    exists (S k), (<[Z.to_nat v := r]> P1). split; [|split; [|split]].
    + intros [|fuel] Hfuel; [lia|]. cbn [find_set].
      rewrite (bind_Ok _ _ _ _ _ (read_parent_Ok st v p Hv)).
      destruct (Z.eqb_spec v p) as [|_]; [congruence|].
      rewrite (bind_Ok _ _ _ _ _ (read_parent_Ok st v p Hv)).
      rewrite (bind_Ok _ _ _ _ _ (Hfind fuel ltac:(lia))).
      rewrite (bind_Ok _ _ _ _ _
                 (write_parent_Ok (mkDSU P1 (sz st)) v r ltac:(simpl; lia))).
      reflexivity.
    + apply compressed_relink; assumption.
    + apply vec_at_insert_eq. lia.
    + intros h x rx Hx. apply relink_keeps_within; auto.
      apply (compressed_roots _ _ Hc), Hroot.
Qed.

(** ** The effect of union_sets *)

Lemma link_effect st a b sa sb :
  dsu_inv st ->
  vec_at (parent st) a = Ok a -> vec_at (parent st) b = Ok b -> a <> b ->
  vec_at (sz st) a = Ok sa -> vec_at (sz st) b = Ok sb ->
  (write_parent b a ;;
   sa <- read_sz a ;;
   sb <- read_sz b ;;
   s <- lift (int_add sa sb) ;;
   write_sz a s) st
  = Ok (tt, mkDSU (<[Z.to_nat b := a]> (parent st))
                  (<[Z.to_nat a := sa + sb]> (sz st))).
Proof.
  intros Hinv Ha Hb Hne Hsa Hsb.
  destruct (link_spec st a b Hinv Ha Hb Hne) as (st' & E & _).
  rewrite E. revert E.
  pose proof (vec_at_bound _ _ _ Hb) as Hbb.
  pose proof (vec_at_bound _ _ _ Hsa) as Hab.
  rewrite (bind_Ok _ _ _ _ _ (write_parent_Ok st b a Hbb)).
  set (st1 := mkDSU (<[Z.to_nat b := a]> (parent st)) (sz st)).
  rewrite (bind_Ok _ _ _ _ _ (read_sz_Ok st1 a sa Hsa)).
  rewrite (bind_Ok _ _ _ _ _ (read_sz_Ok st1 b sb Hsb)).
  intros E. apply bind_Ok_inv in E as (s0 & s1 & E1 & E).
  apply lift_Ok_inv in E1 as [E1 ->]. apply int_add_inv in E1 as [-> _].
  rewrite (write_sz_Ok st1 a (sa + sb)) in E by (simpl; lia).
  symmetry. exact E.
Qed.

Lemma link_roots_both P a b :
  vec_at P a = Ok a -> vec_at P b = Ok b -> a <> b ->
  forall x rx, root_of P x rx ->
    root_of (<[Z.to_nat b := a]> P) x (if (rx =? a) || (rx =? b) then a else rx).
Proof.
  intros Ha Hb Hne x rx Hx.
  pose proof (link_roots P a b Ha Hb Hne x rx Hx) as H.
  destruct (Z.eqb_spec rx a) as [->|]; simpl.
  - destruct (Z.eqb_spec a b); [contradiction | exact H].
  - exact H.
Qed.

Lemma link_same_roots P a b :
  vec_at P a = Ok a -> vec_at P b = Ok b -> a <> b ->
  forall r, vec_at (<[Z.to_nat b := a]> P) r = Ok r <-> vec_at P r = Ok r /\ r <> b.
Proof.
  intros Ha Hb Hne r. pose proof (vec_at_bound _ _ _ Hb) as Hbb.
  destruct (Z.eq_dec r b) as [->|Hr].
  - rewrite vec_at_insert_eq by lia. split; [congruence | intros [_ H]; contradiction].
  - rewrite vec_at_insert_ne by (auto; lia). split; [auto | intros [H _]; exact H].
Qed.

(** What [union_sets a b] does: with [ra] and [rb] the representatives of
    [a] and [b] and [sa] and [sb] their recorded sizes, the roots [ra]
    and [rb] are sent to the winner [ra] (or [rb] when [sa < sb]), every
    other representative stays, and the winner records [sa + sb]. *)
Lemma union_sets_effect st a b :
  dsu_inv st ->
  0 <= a < Z.of_nat (length (parent st)) ->
  0 <= b < Z.of_nat (length (parent st)) ->
  exists k st' ra rb sa sb,
    root_of (parent st) a ra /\ root_of (parent st) b rb /\
    vec_at (sz st) ra = Ok sa /\ vec_at (sz st) rb = Ok sb /\
    (forall fuel, (k <= fuel)%nat -> union_sets fuel a b st = Ok (tt, st')) /\
    dsu_inv st' /\ length (parent st') = length (parent st) /\
    (forall x rx, root_of (parent st) x rx ->
       root_of (parent st') x
         (if (rx =? ra) || (rx =? rb) then (if sa <? sb then rb else ra) else rx)) /\
    (ra = rb ->
       sz st' = sz st /\
       forall r, vec_at (parent st') r = Ok r <-> vec_at (parent st) r = Ok r) /\
    (ra <> rb ->
       sz st' = <[Z.to_nat (if sa <? sb then rb else ra) := sa + sb]> (sz st) /\
       forall r, vec_at (parent st') r = Ok r <->
                 vec_at (parent st) r = Ok r /\ r <> (if sa <? sb then ra else rb)) /\
    (ra = rb ->
       forall h x rx, root_within (parent st) h x rx ->
                      root_within (parent st') h x rx) /\
    (ra <> rb ->
       (forall h x,
          root_within (parent st) h x (if sa <? sb then ra else rb) ->
          root_within (parent st') (S h) x (if sa <? sb then rb else ra)) /\
       (forall h x rx,
          root_within (parent st) h x rx ->
          rx <> (if sa <? sb then ra else rb) ->
          root_within (parent st') h x rx)).
Proof.
  intros Hinv Ha Hb.
  destruct (inv_rooted _ Hinv a Ha) as [ra Hra].
  destruct (inv_rooted _ Hinv b Hb) as [rb Hrb].
  destruct (find_set_flat st a ra Hra) as (k1 & P1 & Hf1 & Hc1 & _ & Hw1).
  pose proof (compressed_inv P1 st Hinv Hc1) as Hinv1.
  set (st1 := mkDSU P1 (sz st)) in *.
  destruct (find_set_flat st1 b rb (compressed_roots _ _ Hc1 _ _ Hrb))
    as (k2 & P2 & Hf2 & Hc2 & _ & Hw2).
  pose proof (compressed_inv P2 st1 Hinv1 Hc2) as Hinv2.
  cbn [parent sz st1] in Hf2, Hc2, Hinv2, Hw2.
  assert (forall h x rx, root_within (parent st) h x rx -> root_within P2 h x rx)
    as Hwithin2 by (intros h x rx Hx; apply Hw2, Hw1, Hx).
  set (st2 := mkDSU P2 (sz st)) in *.
  assert (forall x rx, root_of (parent st) x rx -> root_of P2 x rx) as Hroots2.
  { intros x rx Hx. apply (compressed_roots _ _ Hc2), (compressed_roots _ _ Hc1), Hx. }
  assert (forall r, vec_at P2 r = Ok r <-> vec_at (parent st) r = Ok r) as Hsame2.
  { intros r. rewrite (compressed_same_roots _ _ Hc2 r).
    apply (compressed_same_roots _ _ Hc1 r). }
  assert (length P2 = length (parent st)) as Hlen2
    by (rewrite (compressed_length _ _ Hc2); apply (compressed_length _ _ Hc1)).
  pose proof (root_of_is_root _ _ _ (Hroots2 _ _ Hra)) as Hroot_a.
  pose proof (root_of_is_root _ _ _ (Hroots2 _ _ Hrb)) as Hroot_b.
  pose proof (vec_at_bound _ _ _ Hroot_a) as Hab.
  pose proof (vec_at_bound _ _ _ Hroot_b) as Hbb.
  pose proof (inv_sz_length _ Hinv2) as Hszlen. cbn [parent sz st2] in Hszlen.
  destruct (vec_at_in_range (sz st) ra ltac:(lia)) as [sa Hsa].
  destruct (vec_at_in_range (sz st) rb ltac:(lia)) as [sb Hsb].
  assert (forall fuel, (Nat.max k1 k2 <= fuel)%nat ->
            union_sets fuel a b st
            = (if ra =? rb then ret tt
               else
                 sa <- read_sz ra ;;
                 sb <- read_sz rb ;;
                 (let (a0, b0) := if sa <? sb then (rb, ra) else (ra, rb) in
                  write_parent b0 a0 ;;
                  sa0 <- read_sz a0 ;;
                  sb0 <- read_sz b0 ;;
                  s <- lift (int_add sa0 sb0) ;;
                  write_sz a0 s)) st2) as Hrun.
  { intros fuel Hfuel. unfold union_sets.
    rewrite (bind_Ok _ _ _ _ _ (Hf1 fuel ltac:(lia))).
    rewrite (bind_Ok _ _ _ _ _ (Hf2 fuel ltac:(lia))). reflexivity. }
  destruct (Z.eq_dec ra rb) as [Heq|Hne].
  - subst rb. assert (sb = sa) as -> by congruence.
    exists (Nat.max k1 k2), st2, ra, ra, sa, sa.
    rewrite Z.ltb_irrefl.
    repeat (split; [assumption|]).
    split; [|split; [exact Hinv2|split; [exact Hlen2|split; [|split; [|split; [|split]]]]]].
    + intros fuel Hfuel. rewrite (Hrun fuel Hfuel), Z.eqb_refl. reflexivity.
    + intros x rx Hx. cbn [parent st2].
      destruct (Z.eqb_spec rx ra) as [->|]; simpl; apply Hroots2, Hx.
    + intros _. split; [reflexivity | exact Hsame2].
    + intros Hne. contradiction.
    + intros _. exact Hwithin2.
    + intros Hne. contradiction.
  - destruct (Z.ltb_spec sa sb) as [Hlt|Hge].
    + destruct (link_spec st2 rb ra Hinv2 Hroot_b Hroot_a ltac:(auto))
        as (st' & E & Hinv' & Hlen' & _).
      rewrite (link_effect st2 rb ra sb sa Hinv2 Hroot_b Hroot_a ltac:(auto) Hsb Hsa)
        in E.
      injection E as <-.
      exists (Nat.max k1 k2), (mkDSU (<[Z.to_nat ra := rb]> P2)
                                 (<[Z.to_nat rb := sb + sa]> (sz st))), ra, rb, sa, sb.
      assert ((sa <? sb) = true) as Hcmp by (apply Z.ltb_lt; lia).
      rewrite !Hcmp.
      repeat (split; [assumption|]).
      split; [|split; [exact Hinv'|split; [rewrite Hlen'; exact Hlen2
               |split; [|split; [|split; [|split]]]]]].
      * intros fuel Hfuel. rewrite (Hrun fuel Hfuel).
        destruct (Z.eqb_spec ra rb) as [|_]; [contradiction|].
        rewrite (bind_Ok _ _ _ _ _ (read_sz_Ok st2 ra sa Hsa)).
        rewrite (bind_Ok _ _ _ _ _ (read_sz_Ok st2 rb sb Hsb)).
        destruct (Z.ltb_spec sa sb) as [_|]; [|lia].
        apply (link_effect st2 rb ra sb sa); auto.
      * intros x rx Hx. cbn [parent].
        pose proof (link_roots_both P2 rb ra Hroot_b Hroot_a ltac:(auto) x rx
                      (Hroots2 _ _ Hx)) as H.
        rewrite orb_comm. exact H.
      * intros Heq. contradiction.
      * intros _. cbn [parent sz]. split; [f_equal; lia|].
        intros r. rewrite (link_same_roots P2 rb ra Hroot_b Hroot_a ltac:(auto) r).
        rewrite Hsame2. reflexivity.
      * intros Heq. contradiction.
      * intros _. cbn [parent]. split.
        -- intros h x Hx.
           apply (link_within_loser P2 rb ra Hroot_b Hroot_a ltac:(auto)), Hwithin2, Hx.
        -- intros h x rx Hx Hrx.
           apply (link_within_other P2 rb ra Hroot_a); [apply Hwithin2, Hx | exact Hrx].
    + destruct (link_spec st2 ra rb Hinv2 Hroot_a Hroot_b Hne)
        as (st' & E & Hinv' & Hlen' & _).
      rewrite (link_effect st2 ra rb sa sb Hinv2 Hroot_a Hroot_b Hne Hsa Hsb) in E.
      injection E as <-.
      exists (Nat.max k1 k2), (mkDSU (<[Z.to_nat rb := ra]> P2)
                                 (<[Z.to_nat ra := sa + sb]> (sz st))), ra, rb, sa, sb.
      assert ((sa <? sb) = false) as Hcmp by (apply Z.ltb_ge; lia).
      rewrite !Hcmp.
      repeat (split; [assumption|]).
      split; [|split; [exact Hinv'|split; [rewrite Hlen'; exact Hlen2
               |split; [|split; [|split; [|split]]]]]].
      * intros fuel Hfuel. rewrite (Hrun fuel Hfuel).
        destruct (Z.eqb_spec ra rb) as [|_]; [contradiction|].
        rewrite (bind_Ok _ _ _ _ _ (read_sz_Ok st2 ra sa Hsa)).
        rewrite (bind_Ok _ _ _ _ _ (read_sz_Ok st2 rb sb Hsb)).
        destruct (Z.ltb_spec sa sb) as [|_]; [lia|].
        apply (link_effect st2 ra rb sa sb); auto.
      * intros x rx Hx. cbn [parent].
        apply (link_roots_both P2 ra rb Hroot_a Hroot_b Hne x rx (Hroots2 _ _ Hx)).
      * intros Heq. contradiction.
      * intros _. cbn [parent sz]. split; [reflexivity|].
        intros r. rewrite (link_same_roots P2 ra rb Hroot_a Hroot_b Hne r).
        rewrite Hsame2. reflexivity.
      * intros Heq. contradiction.
      * intros _. cbn [parent]. split.
        -- intros h x Hx.
           apply (link_within_loser P2 ra rb Hroot_a Hroot_b Hne), Hwithin2, Hx.
        -- intros h x rx Hx Hrx.
           apply (link_within_other P2 ra rb Hroot_b); [apply Hwithin2, Hx | exact Hrx].
Qed.

(** ** Recorded sizes *)

Lemma sum_to_plus f g k :
  sum_to (fun i => f i + g i) k = sum_to f k + sum_to g k.
Proof. induction k as [|k IH]; simpl; lia. Qed.

Lemma sum_to_term f k j :
  (forall i, (i < k)%nat -> 0 <= f i) -> (j < k)%nat -> f j <= sum_to f k.
Proof.
  intros Hf Hj. induction k as [|k IH]; [lia|]. simpl.
  pose proof (sum_to_nonneg f k ltac:(intros i Hi; apply Hf; lia)) as H0.
  destruct (Nat.eq_dec j k) as [->|Hne]; [lia|].
  specialize (IH ltac:(intros i Hi; apply Hf; lia) ltac:(lia)).
  specialize (Hf k ltac:(lia)). lia.
Qed.

Lemma sum_to_at_most f c k :
  (forall i, (i < k)%nat -> f i <= c) -> sum_to f k <= c * Z.of_nat k.
Proof.
  intros Hf. induction k as [|k IH]; simpl; [lia|].
  specialize (IH ltac:(intros i Hi; apply Hf; lia)).
  specialize (Hf k ltac:(lia)). lia.
Qed.

Lemma class_size_one k (j : nat) :
  (j < k)%nat -> class_size Z.of_nat k (Z.of_nat j) = 1.
Proof.
  intros Hj. unfold class_size.
  rewrite (sum_to_change (fun _ => 0) _ k j Hj).
  - rewrite sum_to_const, Z.eqb_refl. lia.
  - intros i _ Hi. destruct (Z.eqb_spec (Z.of_nat i) (Z.of_nat j)); [lia | reflexivity].
Qed.

Lemma class_size_bounds rep k (j : nat) :
  (j < k)%nat -> 1 <= class_size rep k (rep j) <= Z.of_nat k.
Proof.
  intros Hj. unfold class_size. split.
  - pose proof (sum_to_term (fun i => if rep i =? rep j then 1 else 0) k j) as H.
    cbv beta in H. rewrite Z.eqb_refl in H. apply H; [|exact Hj].
    intros i _. destruct (rep i =? rep j); lia.
  - pose proof (sum_to_at_most (fun i => if rep i =? rep j then 1 else 0) 1 k) as H.
    rewrite Z.mul_1_l in H. apply H.
    intros i _. destruct (rep i =? rep j); lia.
Qed.

Lemma DSU_ctor_sizes N st : DSU_ctor N = Ok st -> sizes_ok st.
Proof.
  unfold DSU_ctor, vec_fill. intros E.
  destruct (Z.leb_spec 0 N) as [H0|]; simpl in E; [|discriminate].
  injection E as <-. exists Z.of_nat. cbn [parent sz].
  assert (forall i, (i < Z.to_nat N)%nat ->
            imap (fun i _ => Z.of_nat i) (replicate (Z.to_nat N) 0) !! i
            = Some (Z.of_nat i)) as HP.
  { intros i Hi. rewrite list_lookup_imap, lookup_replicate_2 by exact Hi.
    reflexivity. }
  rewrite length_imap, length_replicate. split.
  - intros i Hi. rewrite length_imap, length_replicate in Hi.
    apply root_self. apply vec_at_of_nat, HP, Hi.
  - intros r s Hr Hs. apply vec_at_bound in Hr as Hb.
    rewrite length_imap, length_replicate in Hb.
    apply vec_at_Ok in Hs as [_ Hs]. apply lookup_replicate in Hs as [-> _].
    rewrite <- (Z2Nat.id r) by lia. symmetry. apply class_size_one. lia.
Qed.

Lemma compressed_sizes P' st :
  sizes_ok st -> compressed (parent st) P' -> sizes_ok (mkDSU P' (sz st)).
Proof.
  intros (rep & Hrep & Hsz) [Hlen Hroots Hsame Hlinks]. exists rep.
  cbn [parent sz]. rewrite Hlen. split.
  - intros i Hi. rewrite Hlen in Hi. apply Hroots, Hrep, Hi.
  - intros r s Hr Hs. apply Hsz; [apply Hsame, Hr | exact Hs].
Qed.

Lemma union_sets_sizes fuel st a b st' :
  dsu_inv st -> sizes_ok st ->
  0 <= a < Z.of_nat (length (parent st)) ->
  0 <= b < Z.of_nat (length (parent st)) ->
  union_sets fuel a b st = Ok (tt, st') ->
  sizes_ok st'.
Proof.
  intros Hinv (rep & Hrep & Hsz) Ha Hb E.
  destruct (union_sets_effect st a b Hinv Ha Hb)
    as (k & st0 & ra & rb & sa & sb & Hra & Hrb & Hsa & Hsb & Hu & Hinv' & Hlen'
        & Hmap & Hsame & Hdiff & _).
  specialize (Hu (Nat.max fuel k) ltac:(lia)).
  rewrite (union_sets_fuel_mono fuel (Nat.max fuel k) a b ltac:(lia) _ _ E) in Hu.
  injection Hu as ->.
  pose proof (root_of_is_root _ _ _ Hra) as Hroot_a.
  pose proof (root_of_is_root _ _ _ Hrb) as Hroot_b.
  set (w := if sa <? sb then rb else ra) in *.
  exists (fun i => if (rep i =? ra) || (rep i =? rb) then w else rep i).
  rewrite Hlen'. split.
  - intros i Hi. rewrite Hlen' in Hi. apply Hmap, Hrep, Hi.
  - intros r s Hr Hs. destruct (Z.eq_dec ra rb) as [Heq|Hne].
    + destruct (Hsame Heq) as [Esz Eroots].
      rewrite Esz in Hs. apply Eroots in Hr.
      rewrite (Hsz r s Hr Hs). unfold class_size. apply sum_to_ext.
      intros i _. subst rb.
      assert (w = ra) as -> by (unfold w; destruct (sa <? sb); reflexivity).
      destruct (Z.eqb_spec (rep i) ra) as [->|]; reflexivity.
    + destruct (Hdiff Hne) as [Esz Eroots].
      rewrite Esz in Hs. apply Eroots in Hr as [Hr Hloser].
      assert (w = ra \/ w = rb) as Hw by (unfold w; destruct (sa <? sb); auto).
      assert (0 <= w < Z.of_nat (length (sz st))) as Hwb.
      { destruct Hw as [->| ->]; eapply vec_at_bound; eassumption. }
      destruct (Z.eq_dec r w) as [->|Hrw].
      * rewrite vec_at_insert_eq in Hs by exact Hwb. injection Hs as <-.
        rewrite (Hsz ra sa Hroot_a Hsa), (Hsz rb sb Hroot_b Hsb).
        unfold class_size. rewrite <- sum_to_plus. apply sum_to_ext.
        intros i _.
        destruct (Z.eqb_spec (rep i) ra) as [Ea|Ea];
          destruct (Z.eqb_spec (rep i) rb) as [Eb|Eb]; simpl.
        -- congruence.
        -- rewrite Z.eqb_refl. reflexivity.
        -- rewrite Z.eqb_refl. reflexivity.
        -- destruct (Z.eqb_spec (rep i) w) as [Ew|]; [|reflexivity].
           destruct Hw; congruence.
      * rewrite vec_at_insert_ne in Hs by (auto; lia).
        rewrite (Hsz r s Hr Hs). unfold class_size. apply sum_to_ext.
        intros i _.
        assert (r <> ra /\ r <> rb) as [Hr1 Hr2].
        { unfold w in Hrw. destruct (sa <? sb); split; congruence. }
        destruct (Z.eqb_spec (rep i) ra) as [Ea|Ea];
          destruct (Z.eqb_spec (rep i) rb) as [Eb|Eb]; simpl;
          destruct (Z.eqb_spec w r); destruct (Z.eqb_spec (rep i) r);
          congruence.
Qed.

Lemma dsu_state_sizes N st : dsu_state N st -> sizes_ok st.
Proof.
  intros H.
  induction H as [st E HN | fuel st v r st' H IH Hv E
                 | fuel st a b st' H IH Ha Hb E].
  - eapply DSU_ctor_sizes, E.
  - destruct (dsu_state_inv N st H) as [Hinv Hlen].
    destruct (find_set_result fuel st v r st' Hinv ltac:(lia) E) as (_ & Hc & Hsz).
    pose proof (compressed_sizes _ st IH Hc) as H'.
    rewrite <- Hsz in H'. destruct st'; exact H'.
  - destruct (dsu_state_inv N st H) as [Hinv Hlen].
    eapply (union_sets_sizes fuel st a b); eauto; lia.
Qed.

(** ** The properties *)

Lemma same_set_roots st x y rx ry :
  root_of (parent st) x rx -> root_of (parent st) y ry ->
  (same_set st x y <-> rx = ry).
Proof.
  intros Hx Hy. split.
  - intros (r & Hrx & Hry).
    rewrite (root_of_unique _ _ _ _ Hx Hrx), (root_of_unique _ _ _ _ Hy Hry).
    reflexivity.
  - intros ->. exists ry. auto.
Qed.

(** X10: a new DSU. [DSU(n)] with a negative [n] does not return; for
    n >= 0 it returns a structure of n singletons: every element is its
    own representative, [find_set] returns it and changes nothing, its
    recorded size is 1, and no two different elements are in one set. *)
Theorem new_dsu_is_discrete N :
  (N < 0 -> DSU_ctor N = LengthError) /\
  (0 <= N ->
   exists st,
     DSU_ctor N = Ok st /\
     Z.of_nat (length (parent st)) = N /\
     forall v, 0 <= v <= N - 1 ->
       (forall fuel, find_set (S fuel) v st = Ok (v, st)) /\
       vec_at (sz st) v = Ok 1 /\
       (forall y, same_set st v y <-> y = v)).
Proof.
  unfold DSU_ctor, vec_fill. split; intros HN.
  - destruct (Z.leb_spec 0 N); [lia | reflexivity].
  - destruct (Z.leb_spec 0 N) as [_|]; [|lia]. simpl.
    eexists. split; [reflexivity|]. cbn [parent sz].
    assert (forall i, (i < Z.to_nat N)%nat ->
              imap (fun i _ => Z.of_nat i) (replicate (Z.to_nat N) 0) !! i
              = Some (Z.of_nat i)) as HP.
    { intros i Hi. rewrite list_lookup_imap, lookup_replicate_2 by exact Hi.
      reflexivity. }
    assert (forall v, 0 <= v <= N - 1 ->
              vec_at (imap (fun i _ => Z.of_nat i) (replicate (Z.to_nat N) 0)) v
              = Ok v) as Hself.
    { intros v Hv. rewrite <- (Z2Nat.id v) at 1 2 by lia.
      apply vec_at_of_nat, HP. lia. }
    split; [rewrite length_imap, length_replicate; lia|].
    intros v Hv. split; [|split].
    + intros fuel. cbn [find_set].
      erewrite bind_Ok by (apply read_parent_Ok, Hself, Hv).
      rewrite Z.eqb_refl. reflexivity.
    + apply vec_at_Ok. split; [lia|]. apply lookup_replicate_2. lia.
    + intros y. split.
      * intros (r & Hv' & Hy).
        inversion Hv' as [? E|? p ? E Hne ?]; subst.
        -- inversion Hy as [? E'|? p ? E' Hne' ?]; subst; [reflexivity|].
           cbn [parent] in E'. pose proof (vec_at_bound _ _ _ E') as Hb.
           rewrite length_imap, length_replicate in Hb.
           rewrite Hself in E' by lia. congruence.
        -- cbn [parent] in E. rewrite Hself in E by lia. congruence.
      * intros ->. exists v. split; apply root_self, Hself, Hv.
Qed.

Lemma new_dsu_is_discrete_witness :
  exists st,
    DSU_ctor 5 = Ok st /\
    Z.of_nat (length (parent st)) = 5 /\
    find_set 1 3 st = Ok (3, st).
Proof.
  destruct (new_dsu_is_discrete 5) as [_ H].
  destruct (H ltac:(lia)) as (st & E & Hlen & Hall).
  exists st. split; [exact E|]. split; [exact Hlen|].
  apply (Hall 3 ltac:(lia)).
Defined.

(** X11: [union_sets a b] merges the sets of [a] and [b] and nothing
    else. Afterwards two elements are in one set exactly when they were
    before, or one was with [a] and the other with [b]. The merged set is
    represented by the old representative with the larger recorded size
    ([a]'s on a tie), and every other set keeps its representative. *)
Theorem union_merges_two_sets N st a b :
  dsu_state N st ->
  0 <= a <= N - 1 -> 0 <= b <= N - 1 ->
  exists k st' ra rb sa sb,
    root_of (parent st) a ra /\ root_of (parent st) b rb /\
    vec_at (sz st) ra = Ok sa /\ vec_at (sz st) rb = Ok sb /\
    (forall fuel, (k <= fuel)%nat -> union_sets fuel a b st = Ok (tt, st')) /\
    (forall x y, 0 <= x <= N - 1 -> 0 <= y <= N - 1 ->
       (same_set st' x y <->
        same_set st x y \/
        same_set st x a /\ same_set st y b \/
        same_set st x b /\ same_set st y a)) /\
    root_of (parent st') a (if sa <? sb then rb else ra) /\
    root_of (parent st') b (if sa <? sb then rb else ra) /\
    (forall x rx, root_of (parent st) x rx -> rx <> ra -> rx <> rb ->
       root_of (parent st') x rx).
Proof.
  intros Hst Ha Hb. destruct (dsu_state_inv N st Hst) as [Hinv Hlen].
  destruct (union_sets_effect st a b Hinv ltac:(lia) ltac:(lia))
    as (k & st' & ra & rb & sa & sb & Hra & Hrb & Hsa & Hsb & Hu & Hinv' & Hlen'
        & Hmap & _ & _).
  exists k, st', ra, rb, sa, sb.
  repeat (split; [assumption|]).
  set (w := if sa <? sb then rb else ra) in *.
  assert (w = ra \/ w = rb) as Hw by (unfold w; destruct (sa <? sb); auto).
  split; [|split; [|split]].
  - intros x y Hx Hy.
    destruct (inv_rooted _ Hinv x ltac:(lia)) as [rx Hrx].
    destruct (inv_rooted _ Hinv y ltac:(lia)) as [ry Hry].
    rewrite (same_set_roots st' x y _ _ (Hmap _ _ Hrx) (Hmap _ _ Hry)).
    rewrite (same_set_roots st x y _ _ Hrx Hry).
    rewrite (same_set_roots st x a _ _ Hrx Hra).
    rewrite (same_set_roots st y b _ _ Hry Hrb).
    rewrite (same_set_roots st x b _ _ Hrx Hrb).
    rewrite (same_set_roots st y a _ _ Hry Hra).
    destruct (Z.eqb_spec rx ra); destruct (Z.eqb_spec rx rb);
      destruct (Z.eqb_spec ry ra); destruct (Z.eqb_spec ry rb); simpl;
      split; intros H; subst; auto; try tauto;
      try (destruct Hw; destruct H as [|[[]|[]]]; congruence);
      try (destruct Hw; congruence).
  - pose proof (Hmap a ra Hra) as H. rewrite Z.eqb_refl in H. exact H.
  - pose proof (Hmap b rb Hrb) as H. rewrite Z.eqb_refl, orb_true_r in H. exact H.
  - intros x rx Hx H1 H2. pose proof (Hmap x rx Hx) as H.
    destruct (Z.eqb_spec rx ra); [contradiction|].
    destruct (Z.eqb_spec rx rb); [contradiction|]. exact H.
Qed.

Lemma union_merges_two_sets_witness :
  exists k st' ra rb sa sb,
    root_of [0; 1; 2; 3; 4] 0 ra /\ root_of [0; 1; 2; 3; 4] 1 rb /\
    vec_at [1; 1; 1; 1; 1] ra = Ok sa /\ vec_at [1; 1; 1; 1; 1] rb = Ok sb /\
    (forall fuel, (k <= fuel)%nat ->
       union_sets fuel 0 1 (mkDSU [0; 1; 2; 3; 4] [1; 1; 1; 1; 1]) = Ok (tt, st')) /\
    root_of (parent st') 1 (if sa <? sb then rb else ra).
Proof.
  destruct (union_merges_two_sets 5 (mkDSU [0; 1; 2; 3; 4] [1; 1; 1; 1; 1]) 0 1)
    as (k & st' & ra & rb & sa & sb & H1 & H2 & H3 & H4 & H5 & _ & _ & H6 & _).
  - apply dsu_new; [reflexivity | unfold is_int, INT_MIN, INT_MAX; lia].
  - lia.
  - lia.
  - exists k, st', ra, rb, sa, sb. auto 10.
Defined.

(** X12: the recorded size of a representative is the size of its set.
    In a DSU over N elements, [find_set v] returns a root whose [sz] is
    the number of elements that have this root as their representative,
    a number between 1 and N. *)
Theorem recorded_size_is_set_size N st v :
  dsu_state N st ->
  0 <= v <= N - 1 ->
  exists k r st' s rep,
    (forall fuel, (k <= fuel)%nat -> find_set fuel v st = Ok (r, st')) /\
    vec_at (sz st') r = Ok s /\
    representatives (parent st') rep /\
    s = class_size rep (Z.to_nat N) r /\
    1 <= s <= N.
Proof.
  intros Hst Hv. destruct (dsu_state_inv N st Hst) as [Hinv Hlen].
  destruct (inv_rooted _ Hinv v ltac:(lia)) as [r Hr].
  destruct (find_set_spec st v r Hr) as (k & P' & Hfind & Hc).
  assert (dsu_state N (mkDSU P' (sz st))) as Hst'.
  { apply (dsu_find N k st v r); [exact Hst | exact Hv | apply Hfind; lia]. }
  destruct (dsu_state_inv N _ Hst') as [Hinv' Hlen'].
  destruct (dsu_state_sizes N _ Hst') as (rep & Hrep & Hsz).
  cbn [parent sz] in *.
  pose proof (compressed_roots _ _ Hc _ _ Hr) as Hr'.
  pose proof (root_of_is_root _ _ _ Hr') as Hroot.
  pose proof (vec_at_bound _ _ _ Hroot) as Hrb.
  pose proof (inv_sz_length _ Hinv') as Hszlen. cbn [parent sz] in Hszlen.
  destruct (vec_at_in_range (sz st) r ltac:(lia)) as [s Hs].
  exists k, r, (mkDSU P' (sz st)), s, rep. cbn [parent sz].
  split; [exact Hfind|]. split; [exact Hs|]. split; [exact Hrep|].
  assert (length P' = Z.to_nat N) as HlenN by lia.
  rewrite <- HlenN.
  pose proof (Hsz r s Hroot Hs) as Es. split; [exact Es|].
  assert (rep (Z.to_nat v) = r) as Erep.
  { apply (root_of_unique P' v); [|exact Hr'].
    pose proof (Hrep (Z.to_nat v) ltac:(lia)) as H.
    rewrite Z2Nat.id in H by lia. exact H. }
  rewrite Es, <- Erep.
  pose proof (class_size_bounds rep (length P') (Z.to_nat v) ltac:(lia)). lia.
Qed.

Lemma recorded_size_is_set_size_witness :
  exists k r st' s rep,
    (forall fuel, (k <= fuel)%nat ->
       find_set fuel 3 (mkDSU [0; 0; 0; 2; 4] [4; 1; 2; 1; 1]) = Ok (r, st')) /\
    vec_at (sz st') r = Ok s /\
    representatives (parent st') rep /\
    s = class_size rep (Z.to_nat 5) r /\
    1 <= s <= 5.
Proof.
  apply (recorded_size_is_set_size 5).
  - apply (dsu_union 5 5 (mkDSU [0; 0; 2; 2; 4] [2; 1; 2; 1; 1]) 0 2);
      [ | lia | lia | vm_compute; reflexivity].
    apply (dsu_union 5 5 (mkDSU [0; 0; 2; 3; 4] [2; 1; 1; 1; 1]) 2 3);
      [ | lia | lia | vm_compute; reflexivity].
    apply (dsu_union 5 5 (mkDSU [0; 1; 2; 3; 4] [1; 1; 1; 1; 1]) 0 1);
      [ | lia | lia | vm_compute; reflexivity].
    apply dsu_new; [reflexivity | unfold is_int, INT_MIN, INT_MAX; lia].
  - lia.
Defined.

Lemma find_set_S fuel v :
  find_set (S fuel) v
  = (p <- read_parent v ;;
     if v =? p then ret v
     else
       p <- read_parent v ;;
       r <- find_set fuel p ;;
       write_parent v r ;;
       ret r).
Proof. reflexivity. Qed.

Lemma find_set_root fuel st r :
  vec_at (parent st) r = Ok r -> find_set (S fuel) r st = Ok (r, st).
Proof.
  intros Hr. rewrite find_set_S.
  rewrite (bind_Ok _ _ _ _ _ (read_parent_Ok st r r Hr)).
  rewrite Z.eqb_refl. reflexivity.
Qed.

(** X13: path compression. After [find_set v] the element [v] is linked
    directly to its representative, so that a second [find_set v] returns
    the same representative within two steps and changes nothing. *)
Theorem find_set_flattens N st v :
  dsu_state N st ->
  0 <= v <= N - 1 ->
  exists k r st',
    (forall fuel, (k <= fuel)%nat -> find_set fuel v st = Ok (r, st')) /\
    vec_at (parent st') v = Ok r /\
    vec_at (parent st') r = Ok r /\
    (forall fuel, find_set (S (S fuel)) v st' = Ok (r, st')).
Proof.
  intros Hst Hv. destruct (dsu_state_inv N st Hst) as [Hinv Hlen].
  destruct (inv_rooted _ Hinv v ltac:(lia)) as [r Hr].
  destruct (find_set_flat st v r Hr) as (k & P' & Hfind & Hc & Hlink & _).
  pose proof (root_of_is_root _ _ _ (compressed_roots _ _ Hc _ _ Hr)) as Hroot.
  exists k, r, (mkDSU P' (sz st)). cbn [parent].
  split; [exact Hfind|]. split; [exact Hlink|]. split; [exact Hroot|].
  intros fuel. set (st' := mkDSU P' (sz st)). rewrite find_set_S.
  rewrite (bind_Ok _ _ _ _ _ (read_parent_Ok st' v r Hlink)).
  destruct (Z.eqb_spec v r) as [->|Hne]; [reflexivity|].
  rewrite (bind_Ok _ _ _ _ _ (read_parent_Ok st' v r Hlink)).
  rewrite (bind_Ok _ _ _ _ _ (find_set_root fuel st' r Hroot)).
  rewrite (bind_Ok _ _ _ _ _
             (write_parent_Ok st' v r ltac:(apply (vec_at_bound _ _ _ Hlink)))).
  unfold ret, st'. cbn [parent sz]. do 3 f_equal.
  apply list_insert_id. apply vec_at_Ok in Hlink as [_ Hlink]. exact Hlink.
Qed.

Lemma find_set_flattens_witness :
  exists k r st',
    (forall fuel, (k <= fuel)%nat ->
       find_set fuel 3 (mkDSU [0; 0; 0; 2; 4] [4; 1; 2; 1; 1]) = Ok (r, st')) /\
    vec_at (parent st') 3 = Ok r /\
    vec_at (parent st') r = Ok r /\
    (forall fuel, find_set (S (S fuel)) 3 st' = Ok (r, st')).
Proof.
  apply (find_set_flattens 5).
  - apply (dsu_union 5 5 (mkDSU [0; 0; 2; 2; 4] [2; 1; 2; 1; 1]) 0 2);
      [ | lia | lia | vm_compute; reflexivity].
    apply (dsu_union 5 5 (mkDSU [0; 0; 2; 3; 4] [2; 1; 1; 1; 1]) 2 3);
      [ | lia | lia | vm_compute; reflexivity].
    apply (dsu_union 5 5 (mkDSU [0; 1; 2; 3; 4] [1; 1; 1; 1; 1]) 0 1);
      [ | lia | lia | vm_compute; reflexivity].
    apply dsu_new; [reflexivity | unfold is_int, INT_MIN, INT_MAX; lia].
  - lia.
Defined.

(** X14: [union_sets] of two elements that are already in one set changes
    no set and no size: it returns, the sizes and the roots are as before,
    and two elements are in one set afterwards exactly when they were. *)
Theorem union_of_joined_elements N st a b :
  dsu_state N st ->
  0 <= a <= N - 1 -> 0 <= b <= N - 1 ->
  same_set st a b ->
  exists k st',
    (forall fuel, (k <= fuel)%nat -> union_sets fuel a b st = Ok (tt, st')) /\
    sz st' = sz st /\
    (forall r, vec_at (parent st') r = Ok r <-> vec_at (parent st) r = Ok r) /\
    (forall x y, 0 <= x <= N - 1 -> 0 <= y <= N - 1 ->
       (same_set st' x y <-> same_set st x y)).
Proof.
  intros Hst Ha Hb Hsame. destruct (dsu_state_inv N st Hst) as [Hinv Hlen].
  destruct (union_sets_effect st a b Hinv ltac:(lia) ltac:(lia))
    as (k & st' & ra & rb & sa & sb & Hra & Hrb & Hsa & Hsb & Hu & Hinv' & Hlen'
        & Hmap & Heq & _).
  assert (ra = rb) as E by (apply (same_set_roots st a b ra rb Hra Hrb), Hsame).
  destruct (Heq E) as [Hsz Hroots]. subst rb.
  assert (sb = sa) as -> by congruence. rewrite Z.ltb_irrefl in Hmap.
  assert (forall x rx, root_of (parent st) x rx -> root_of (parent st') x rx)
    as Hkeep.
  { intros x rx Hx. pose proof (Hmap x rx Hx) as H.
    destruct (Z.eqb_spec rx ra) as [->|]; exact H. }
  exists k, st'. split; [exact Hu|]. split; [exact Hsz|]. split; [exact Hroots|].
  intros x y Hx Hy.
  destruct (inv_rooted _ Hinv x ltac:(lia)) as [rx Hrx].
  destruct (inv_rooted _ Hinv y ltac:(lia)) as [ry Hry].
  rewrite (same_set_roots st' x y _ _ (Hkeep _ _ Hrx) (Hkeep _ _ Hry)).
  rewrite (same_set_roots st x y _ _ Hrx Hry). reflexivity.
Qed.

Lemma union_of_joined_elements_witness :
  exists k st',
    (forall fuel, (k <= fuel)%nat ->
       union_sets fuel 1 0 (mkDSU [0; 0; 2; 3; 4] [2; 1; 1; 1; 1]) = Ok (tt, st')) /\
    sz st' = [2; 1; 1; 1; 1].
Proof.
  destruct (union_of_joined_elements 5 (mkDSU [0; 0; 2; 3; 4] [2; 1; 1; 1; 1]) 1 0)
    as (k & st' & Hu & Hsz & _).
  - apply (dsu_union 5 5 (mkDSU [0; 1; 2; 3; 4] [1; 1; 1; 1; 1]) 0 1);
      [ | lia | lia | vm_compute; reflexivity].
    apply dsu_new; [reflexivity | unfold is_int, INT_MIN, INT_MAX; lia].
  - lia.
  - lia.
  - exists 0. split; [apply (root_step _ 1 0 0); [reflexivity | lia |]|];
      apply root_self; reflexivity.
  - exists k, st'. split; [exact Hu | exact Hsz].
Defined.

(** X15: the DSU does not check its arguments. With an index [v] outside
    [0, N-1], the first thing [find_set v] does is to read [parent[v]]
    outside the vector, and [union_sets] reaches such a read as well,
    whether [v] is its first argument or its second (then after
    [find_set] of the first has been carried out). Each of these calls
    leaves defined behaviour at that read; what the compiled program does
    afterwards (it may well return and change the structure) is not
    determined by the source. *)
Theorem dsu_index_outside N st v :
  dsu_state N st ->
  v < 0 \/ N <= v ->
  (forall fuel, find_set (S fuel) v st = OutOfBounds) /\
  (forall fuel b, union_sets (S fuel) v b st = OutOfBounds) /\
  (forall a, 0 <= a <= N - 1 ->
     exists k, forall fuel, (k <= fuel)%nat ->
       union_sets (S fuel) a v st = OutOfBounds).
Proof.
  intros Hst Hv. destruct (dsu_state_inv N st Hst) as [Hinv Hlen].
  assert (forall st0 fuel, length (parent st0) = length (parent st) ->
            find_set (S fuel) v st0 = OutOfBounds) as Hfind.
  { intros st0 fuel Hlen0. cbn [find_set]. unfold bind, read_parent.
    rewrite vec_at_out_of_range by lia. reflexivity. }
  split; [intros fuel; apply Hfind; reflexivity|]. split.
  - intros fuel b. unfold union_sets, bind. rewrite Hfind by reflexivity.
    reflexivity.
  - intros a Ha.
    destruct (inv_rooted _ Hinv a ltac:(lia)) as [ra Hra].
    destruct (find_set_spec st a ra Hra) as (k & P' & Hf & Hc).
    exists k. intros fuel Hfuel. unfold union_sets.
    rewrite (bind_Ok _ _ _ _ _ (Hf (S fuel) ltac:(lia))).
    unfold bind. rewrite Hfind by apply (compressed_length _ _ Hc).
    reflexivity.
Qed.

Lemma dsu_index_outside_witness :
  find_set 1 5 (mkDSU [0; 1; 2; 3; 4] [1; 1; 1; 1; 1]) = OutOfBounds /\
  find_set 1 (-1) (mkDSU [0; 1; 2; 3; 4] [1; 1; 1; 1; 1]) = OutOfBounds.
Proof.
  assert (dsu_state 5 (mkDSU [0; 1; 2; 3; 4] [1; 1; 1; 1; 1])) as Hst
    by (apply dsu_new; [reflexivity | unfold is_int, INT_MIN, INT_MAX; lia]).
  split.
  - apply (dsu_index_outside 5 _ 5 Hst). lia.
  - apply (dsu_index_outside 5 _ (-1) Hst). lia.
Defined.

(** ** Union by size *)

Lemma find_set_within st h v r :
  root_within (parent st) h v r ->
  exists P',
    find_set (S h) v st = Ok (r, mkDSU P' (sz st)) /\
    length P' = length (parent st).
Proof.
  intros H. induction H as [h v Hv | h v p r Hv Hne H IH].
  - exists (parent st). split; [|reflexivity].
    rewrite (find_set_root h st v Hv). destruct st; reflexivity.
  - destruct IH as (P1 & E & Hlen).
    pose proof (vec_at_bound _ _ _ Hv) as Hb.
    exists (<[Z.to_nat v := r]> P1). split; [|rewrite length_insert; exact Hlen].
    rewrite find_set_S.
    rewrite (bind_Ok _ _ _ _ _ (read_parent_Ok st v p Hv)).
    destruct (Z.eqb_spec v p) as [|_]; [congruence|].
    rewrite (bind_Ok _ _ _ _ _ (read_parent_Ok st v p Hv)).
    rewrite (bind_Ok _ _ _ _ _ E).
    rewrite (bind_Ok _ _ _ _ _
               (write_parent_Ok (mkDSU P1 (sz st)) v r ltac:(simpl; lia))).
    reflexivity.
Qed.

Lemma DSU_ctor_shallow N st : DSU_ctor N = Ok st -> shallow st.
Proof.
  intros E v r Hr.
  pose proof (DSU_ctor_sizes N st E) as _.
  revert E. unfold DSU_ctor, vec_fill.
  destruct (Z.leb_spec 0 N) as [H0|]; simpl; [|discriminate].
  intros E. injection E as <-. cbn [parent sz] in *.
  assert (forall x y, vec_at (imap (fun i _ => Z.of_nat i)
                                (replicate (Z.to_nat N) 0)) x = Ok y -> y = x)
    as Hid.
  { intros x y Hx. apply vec_at_Ok in Hx as [Hx0 Hx].
    rewrite list_lookup_imap in Hx.
    destruct (replicate (Z.to_nat N) 0 !! Z.to_nat x); simpl in Hx;
      [|discriminate].
    injection Hx as <-. lia. }
  assert (r = v) as ->.
  { inversion Hr as [? E|? p ? E Hne ?]; subst; [reflexivity|].
    apply Hid in E. contradiction. }
  pose proof (root_of_is_root _ _ _ Hr) as Hroot.
  pose proof (vec_at_bound _ _ _ Hroot) as Hb.
  rewrite length_imap, length_replicate in Hb.
  exists 0%nat, 1. split; [apply within_self, Hroot|]. split; [|simpl; lia].
  apply vec_at_Ok. split; [lia|]. apply lookup_replicate_2. lia.
Qed.

Lemma compressed_shallow st P' :
  dsu_inv st -> shallow st -> compressed (parent st) P' ->
  (forall h x rx, root_within (parent st) h x rx -> root_within P' h x rx) ->
  shallow (mkDSU P' (sz st)).
Proof.
  intros Hinv Hsh Hc Hw v r Hr. cbn [parent sz] in *.
  pose proof (root_of_bound _ _ _ Hr) as Hb.
  rewrite (compressed_length _ _ Hc) in Hb.
  destruct (inv_rooted _ Hinv v Hb) as [r0 Hr0].
  pose proof (root_of_unique _ _ _ _ (compressed_roots _ _ Hc _ _ Hr0) Hr) as ->.
  destruct (Hsh v r Hr0) as (h & s & Hh & Hs & Hpow).
  exists h, s. split; [apply Hw, Hh|]. split; assumption.
Qed.

Lemma union_sets_shallow fuel st a b st' :
  dsu_inv st -> shallow st ->
  0 <= a < Z.of_nat (length (parent st)) ->
  0 <= b < Z.of_nat (length (parent st)) ->
  union_sets fuel a b st = Ok (tt, st') ->
  shallow st'.
Proof.
  intros Hinv Hsh Ha Hb E.
  destruct (union_sets_effect st a b Hinv Ha Hb)
    as (k & st0 & ra & rb & sa & sb & Hra & Hrb & Hsa & Hsb & Hu & Hinv' & Hlen'
        & Hmap & Hsame & Hdiff & Hwsame & Hwdiff).
  specialize (Hu (Nat.max fuel k) ltac:(lia)).
  rewrite (union_sets_fuel_mono fuel (Nat.max fuel k) a b ltac:(lia) _ _ E) in Hu.
  injection Hu as ->.
  intros x r' Hr'.
  pose proof (root_of_bound _ _ _ Hr') as Hxb. rewrite Hlen' in Hxb.
  destruct (inv_rooted _ Hinv x Hxb) as [rx Hrx].
  pose proof (root_of_unique _ _ _ _ (Hmap _ _ Hrx) Hr') as Er'.
  destruct (Hsh x rx Hrx) as (h & s & Hh & Hs & Hpow).
  destruct (Z.eq_dec ra rb) as [Heq|Hne].
  - destruct (Hsame Heq) as [Esz _]. subst rb.
    assert (r' = rx) as ->.
    { rewrite <- Er'. destruct (Z.eqb_spec rx ra) as [->|]; simpl;
        [destruct (sa <? sb)|]; reflexivity. }
    exists h, s. split; [apply (Hwsame eq_refl), Hh|]. rewrite Esz. auto.
  - destruct (Hdiff Hne) as [Esz _]. destruct (Hwdiff Hne) as [Hloser Hother].
    rewrite Esz.
    pose proof (inv_sz_nonneg _ Hinv) as Hnonneg.
    apply vec_at_Ok in Hsa as Hsa'. destruct Hsa' as [_ Hsa'].
    apply vec_at_Ok in Hsb as Hsb'. destruct Hsb' as [_ Hsb'].
    pose proof (Hnonneg _ _ Hsa') as Hsa0. pose proof (Hnonneg _ _ Hsb') as Hsb0.
    pose proof (vec_at_bound _ _ _ Hsa) as Hab.
    pose proof (vec_at_bound _ _ _ Hsb) as Hbb.
    assert (2 ^ Z.of_nat (S h) = 2 * 2 ^ Z.of_nat h) as Epow
      by (rewrite Nat2Z.inj_succ, Z.pow_succ_r by lia; reflexivity).
    destruct (Z.ltb_spec sa sb) as [Hlt|Hge].
    + (* the winner is rb, the loser ra *)
      destruct (Z.eqb_spec rx ra) as [->|Hxa]; simpl in Er'.
      * subst r'. assert (s = sa) as -> by congruence.
        exists (S h), (sa + sb). split; [apply Hloser, Hh|].
        split; [apply vec_at_insert_eq; lia | lia].
      * destruct (Z.eqb_spec rx rb) as [->|Hxb']; subst r'.
        -- assert (s = sb) as -> by congruence.
           exists h, (sa + sb). split; [apply Hother; auto|].
           split; [apply vec_at_insert_eq; lia | lia].
        -- exists h, s. split; [apply Hother; auto|].
           split; [rewrite vec_at_insert_ne by (auto; lia); exact Hs | exact Hpow].
    + (* the winner is ra, the loser rb *)
      destruct (Z.eqb_spec rx ra) as [->|Hxa]; simpl in Er'.
      * subst r'. assert (s = sa) as -> by congruence.
        exists h, (sa + sb). split; [apply Hother; auto|].
        split; [apply vec_at_insert_eq; lia | lia].
      * destruct (Z.eqb_spec rx rb) as [->|Hxb']; subst r'.
        -- assert (s = sb) as -> by congruence.
           exists (S h), (sa + sb). split; [apply Hloser, Hh|].
           split; [apply vec_at_insert_eq; lia | lia].
        -- exists h, s. split; [apply Hother; auto|].
           split; [rewrite vec_at_insert_ne by (auto; lia); exact Hs | exact Hpow].
Qed.

Lemma dsu_state_shallow N st : dsu_state N st -> shallow st.
Proof.
  intros H.
  induction H as [st E HN | fuel st v r st' H IH Hv E
                 | fuel st a b st' H IH Ha Hb E].
  - eapply DSU_ctor_shallow, E.
  - destruct (dsu_state_inv N st H) as [Hinv Hlen].
    destruct (inv_rooted _ Hinv v ltac:(lia)) as [r0 Hr0].
    destruct (find_set_flat st v r0 Hr0) as (k & P' & Hfind & Hc & _ & Hw).
    specialize (Hfind (Nat.max fuel k) ltac:(lia)).
    rewrite (find_set_fuel_mono fuel (Nat.max fuel k) v ltac:(lia) _ _ E) in Hfind.
    injection Hfind as -> ->. apply compressed_shallow; assumption.
  - destruct (dsu_state_inv N st H) as [Hinv Hlen].
    eapply (union_sets_shallow fuel st a b); eauto; lia.
Qed.

(** X16: union by size keeps the trees shallow. In a DSU over N elements
    an element is at most [h] steps away from its representative, where
    [2 ^ h] is at most the size of its set and so at most N; [find_set]
    therefore returns with a recursion budget of k + 1 whenever
    N < 2 ^ (k + 1). *)
Theorem union_by_size_keeps_trees_shallow N st v (k : nat) :
  dsu_state N st ->
  0 <= v <= N - 1 ->
  N < 2 ^ (Z.of_nat k + 1) ->
  exists r h st',
    root_within (parent st) h v r /\
    2 ^ Z.of_nat h <= N /\
    find_set (S k) v st = Ok (r, st').
Proof.
  intros Hst Hv HN. destruct (dsu_state_inv N st Hst) as [Hinv Hlen].
  pose proof (dsu_state_shallow N st Hst) as Hsh.
  destruct (dsu_state_sizes N st Hst) as (rep & Hrep & Hsz).
  destruct (inv_rooted _ Hinv v ltac:(lia)) as [r Hr].
  destruct (Hsh v r Hr) as (h & s & Hh & Hs & Hpow).
  pose proof (root_of_is_root _ _ _ Hr) as Hroot.
  pose proof (vec_at_bound _ _ _ Hroot) as Hrb.
  assert (s <= N) as HsN.
  { rewrite (Hsz r s Hroot Hs).
    assert (rep (Z.to_nat r) = r) as Erep.
    { apply (root_of_unique (parent st) r); [|apply root_self, Hroot].
      pose proof (Hrep (Z.to_nat r) ltac:(lia)) as H.
      rewrite Z2Nat.id in H by lia. exact H. }
    pose proof (class_size_bounds rep (length (parent st)) (Z.to_nat r)
                  ltac:(lia)) as Hb.
    rewrite Erep in Hb. lia. }
  assert ((h <= k)%nat) as Hhk.
  { assert (2 ^ Z.of_nat h < 2 ^ (Z.of_nat k + 1)) as Hlt by lia.
    apply Z.pow_lt_mono_r_iff in Hlt; lia. }
  destruct (find_set_within st k v r (root_within_mono _ _ _ _ _ Hhk Hh))
    as (P' & E & _).
  exists r, h, (mkDSU P' (sz st)). split; [exact Hh|]. split; [lia | exact E].
Qed.

Lemma union_by_size_keeps_trees_shallow_witness :
  exists r h st',
    root_within [0; 0; 0; 2; 4] h 3 r /\
    2 ^ Z.of_nat h <= 5 /\
    find_set 3 3 (mkDSU [0; 0; 0; 2; 4] [4; 1; 2; 1; 1]) = Ok (r, st').
Proof.
  apply (union_by_size_keeps_trees_shallow 5 (mkDSU [0; 0; 0; 2; 4] [4; 1; 2; 1; 1])
           3 2).
  - apply (dsu_union 5 5 (mkDSU [0; 0; 2; 2; 4] [2; 1; 2; 1; 1]) 0 2);
      [ | lia | lia | vm_compute; reflexivity].
    apply (dsu_union 5 5 (mkDSU [0; 0; 2; 3; 4] [2; 1; 1; 1; 1]) 2 3);
      [ | lia | lia | vm_compute; reflexivity].
    apply (dsu_union 5 5 (mkDSU [0; 1; 2; 3; 4] [1; 1; 1; 1; 1]) 0 1);
      [ | lia | lia | vm_compute; reflexivity].
    apply dsu_new; [reflexivity | unfold is_int, INT_MIN, INT_MAX; lia].
  - lia.
  - simpl. lia.
Defined.

End UnionFindSpec.
